(** * Lockfile generator: tree builder, scope resolver and classifier

    A shallow embedding of [src/lib/Builder.ts], of the walkers module
    (imported by the builder as [./Walkers]) and of the interfaces module
    ([./Interfaces]), together with the properties the specification states
    about them.

    Modelling conventions.
    - A JavaScript object used as a string-keyed map is an association list
      in insertion order with unique keys ([Obj]); assigning an existing key
      keeps its position, assigning a new key appends it.  Keys are package
      names, never canonical array indices, so insertion order is the
      enumeration order of [Object.keys] and [Object.values].
      A name is looked up among the keys the map holds; the properties
      every object inherits ([constructor], [toString], ...) are not package
      names.
    - Entries are objects with identity.  They live in a heap ([list Entry]);
      a reference to an entry is its index ([loc]), allocation appends.
    - A [Set] or [Map] of the build context is kept as the list of its
      insertions, newest first; [has] is membership and [get] the newest
      binding, which is what the JavaScript container answers.  Keeping the
      insertions makes "inserted at most once" a statement about the code.
    - A path is the list of its segments below the filesystem root.
    - The manifest reader and the module locator are external collaborators
      and are taken as a parameter ([World]).
    - Loops and recursion the source does not bound take a [fuel] argument;
      running out of it is the distinguished result [OutOfFuel]. *)

From stdpp Require Import base option list strings relations.
From Stdlib Require Import Lia.

Open Scope string_scope.
Open Scope list_scope.
Open Scope nat_scope.

(** ** JavaScript objects as insertion-ordered maps *)

Abbreviation Obj V := (list (string * V)) (only parsing).

Section Obj.
Context {V : Type}.

(** [o[k]], and [k in o] as [is_Some]. *)
Fixpoint obj_get (o : Obj V) (k : string) : option V :=
  match o with
  | [] => None
  | (k', v) :: o' => if decide (k' = k) then Some v else obj_get o' k
  end.

(** [o[k] = v]. *)
Fixpoint obj_set (o : Obj V) (k : string) (v : V) : Obj V :=
  match o with
  | [] => [(k, v)]
  | (k', v') :: o' =>
      if decide (k' = k) then (k', v) :: o' else (k', v') :: obj_set o' k v
  end.

(** [delete o[k]]. *)
Fixpoint obj_delete (o : Obj V) (k : string) : Obj V :=
  match o with
  | [] => []
  | (k', v') :: o' =>
      if decide (k' = k) then obj_delete o' k else (k', v') :: obj_delete o' k
  end.

Definition obj_keys (o : Obj V) : list string := map fst o.
Definition obj_values (o : Obj V) : list V := map snd o.

(** One spread element [...src] of an object literal being built in [acc]. *)
Definition obj_assign (acc src : Obj V) : Obj V :=
  fold_left (fun a kv => obj_set a (fst kv) (snd kv)) src acc.

(** [...x] where [x] may be [undefined] or [null]: spreads nothing. *)
Definition spread (acc : Obj V) (src : option (Obj V)) : Obj V :=
  match src with
  | Some o => obj_assign acc o
  | None => acc
  end.
End Obj.

(** ** Results of fallible, possibly non-terminating code *)

Inductive Err : Type :=
| ManifestError                       (* the manifest reader threw *)
| ModuleNotFound                      (* require.resolve: code MODULE_NOT_FOUND *)
| LocatorFailure                      (* require.resolve: any other error *)
| TypeError                           (* property read on undefined *)
| InternalError (parentName depName : string) (* "Internal error: failed to resolve entry for ..." *)
| BadRef.                             (* model only: a reference outside the heap *)

Inductive Res (A : Type) : Type :=
| Ok (a : A)
| Throw (e : Err)
| OutOfFuel.
Arguments Ok {A} a.
Arguments Throw {A} e.
Arguments OutOfFuel {A}.

#[export] Instance res_bind : MBind Res := fun A B k m =>
  match m with
  | Ok a => k a
  | Throw e => Throw e
  | OutOfFuel => OutOfFuel
  end.

(** A [for ... of] loop over a snapshot array whose body may throw. *)
Fixpoint foldM {A S : Type} (body : S -> A -> Res S) (l : list A) (s : S) : Res S :=
  match l with
  | [] => Ok s
  | a :: l' => s' ← body s a; foldM body l' s'
  end.

(** ** Paths *)

Abbreviation Dir := (list string) (only parsing).

Definition dirname (d : Dir) : Dir := removelast d.
Definition basename (d : Dir) : string := default EmptyString (last d).
Definition fsroot : Dir := [].

(** ** The external collaborators *)

Record Manifest : Type := {
  name : string;
  mversion : string;
  mdependencies : option (Obj string);
  optionalDependencies : option (Obj string);
  devDependencies : option (Obj string);
  peerDependencies : option (Obj string);
  _integrity : option string;
  _resolved : option string
}.

Inductive Located : Type :=
| Found (d : Dir)
| NotFound
| Failed.

Record World : Type := {
  (** [manifestReader.read(dir)]; [None] when it throws. *)
  read : Dir -> option Manifest;
  (** [manifestReader.readIfExists(dir)]; [None] when there is no manifest. *)
  readIfExists : Dir -> option Manifest;
  (** [path.dirname(require.resolve(name + "/package.json", {paths: [from]}))] *)
  locate : Dir -> string -> Located
}.

(** ** Interfaces *)

Abbreviation loc := nat (only parsing).

Abbreviation EntryDeps := (Obj loc) (only parsing).

Record Entry : Type := {
  version : string;
  integrity : option string;
  resolved : option string;
  requires : option (Obj string);
  dependencies : option EntryDeps;
  dev : option bool;
  optional : option bool;
  (** Read by the scope resolver; no interface declares it. *)
  owner : option loc
}.

Abbreviation Heap := (list Entry) (only parsing).

Record BuildContext : Type := {
  packagesDir : Dir;
  startDir : Dir;
  (** Read by [walkNonSubsetDeps]; no interface declares it. *)
  root : option loc;
  rootDeps : EntryDeps;
  visited : list Dir;
  moduleDirs : list (Dir * loc);
  resolves : list (loc * Obj loc)
}.

Record St : Type := {
  heap : Heap;
  ctx : BuildContext
}.

(** Field updates (the records are immutable; an assignment builds a copy). *)

Definition set_dependencies (v : option EntryDeps) (e : Entry) : Entry :=
  {| version := version e; integrity := integrity e; resolved := resolved e;
     requires := requires e; dependencies := v; dev := dev e;
     optional := optional e; owner := owner e |}.

Definition set_requires (v : option (Obj string)) (e : Entry) : Entry :=
  {| version := version e; integrity := integrity e; resolved := resolved e;
     requires := v; dependencies := dependencies e; dev := dev e;
     optional := optional e; owner := owner e |}.

Definition set_dev (v : option bool) (e : Entry) : Entry :=
  {| version := version e; integrity := integrity e; resolved := resolved e;
     requires := requires e; dependencies := dependencies e; dev := v;
     optional := optional e; owner := owner e |}.

Definition set_optional (v : option bool) (e : Entry) : Entry :=
  {| version := version e; integrity := integrity e; resolved := resolved e;
     requires := requires e; dependencies := dependencies e; dev := dev e;
     optional := v; owner := owner e |}.

(** [h[l] = f(h[l])]: an in-place mutation of the entry at [l]. *)
Definition heap_update (l : loc) (f : Entry -> Entry) (h : Heap) : Heap :=
  match h !! l with
  | Some e => <[l := f e]> h
  | None => h
  end.

Definition set_heap (h : Heap) (s : St) : St := {| heap := h; ctx := ctx s |}.
Definition set_ctx (c : BuildContext) (s : St) : St := {| heap := heap s; ctx := c |}.

Definition set_rootDeps (d : EntryDeps) (c : BuildContext) : BuildContext :=
  {| packagesDir := packagesDir c; startDir := startDir c; root := root c;
     rootDeps := d; visited := visited c; moduleDirs := moduleDirs c;
     resolves := resolves c |}.

Definition set_resolves (r : list (loc * Obj loc)) (c : BuildContext) : BuildContext :=
  {| packagesDir := packagesDir c; startDir := startDir c; root := root c;
     rootDeps := rootDeps c; visited := visited c; moduleDirs := moduleDirs c;
     resolves := r |}.

(** [ctx.visited.add(dir); ctx.moduleDirs.set(dir, entry);
    ctx.resolves.set(entry, new Map())] *)
Definition register (dir : Dir) (entry : loc) (c : BuildContext) : BuildContext :=
  {| packagesDir := packagesDir c; startDir := startDir c; root := root c;
     rootDeps := rootDeps c; visited := dir :: visited c;
     moduleDirs := (dir, entry) :: moduleDirs c;
     resolves := (entry, []) :: resolves c |}.

(** [ctx.moduleDirs.get(dir)] *)
Fixpoint moduleDirs_get (m : list (Dir * loc)) (dir : Dir) : option loc :=
  match m with
  | [] => None
  | (d, e) :: m' => if decide (d = dir) then Some e else moduleDirs_get m' dir
  end.

(** [entryResolves.set(depName, depEntry)], where [entryResolves] is the map
    registered for [entry] in [ctx.resolves]. *)
Fixpoint resolves_set (r : list (loc * Obj loc)) (entry : loc)
    (depName : string) (depEntry : loc) : list (loc * Obj loc) :=
  match r with
  | [] => []
  | (e, m) :: r' =>
      if decide (e = entry) then (e, obj_set m depName depEntry) :: r'
      else (e, m) :: resolves_set r' entry depName depEntry
  end.

Fixpoint resolves_get (r : list (loc * Obj loc)) (entry : loc) : option (Obj loc) :=
  match r with
  | [] => None
  | (e, m) :: r' => if decide (e = entry) then Some m else resolves_get r' entry
  end.

Definition heap_get (h : Heap) (l : loc) : Res Entry :=
  match h !! l with
  | Some e => Ok e
  | None => Throw BadRef
  end.

(** A JavaScript [Set] that is added to without a prior [has] test
    ([subsetDeps]): duplicate-free, in insertion order. *)
Definition set_add (x : loc) (s : list loc) : list loc :=
  if decide (x ∈ s) then s else (s ++ [x])%list.

(** ** Walkers *)

Section Walkers.
(** The visitor's effects are a transformer of [σ]; [hp] reads the heap of
    entries out of it, which is how [value.dependencies] is looked up at the
    moment the loop reaches [value]. *)
Context {σ : Type} (hp : σ -> Heap).

Fixpoint walkEntries (fuel : nat) (deps : option EntryDeps)
    (walker : loc -> σ -> σ) (s : σ) : Res σ :=
  match fuel with
  | 0 => OutOfFuel
  | S fuel =>
      match deps with
      | None => Ok s
      | Some deps =>
          foldM (fun s value =>
                   e ← heap_get (hp s) value;
                   s ← walkEntries fuel (dependencies e) walker s;
                   Ok (walker value s))
                (obj_values deps) s
      end
  end.
End Walkers.

Definition resolveDependencyEntryIfExists (h : Heap) (parent : loc)
    (name : string) : Res (option loc) :=
  e ← heap_get h parent;
  Ok (match dependencies e with
      | Some d => obj_get d name
      | None => None
      end).

(** The [while (curOwner != null)] loop of [resolveDependencyEntry]. *)
Fixpoint resolveLoop (fuel : nat) (h : Heap) (curOwner : option loc)
    (parentName depName : string) : Res loc :=
  match curOwner with
  | None => Throw (InternalError parentName depName)
  | Some cur =>
      match fuel with
      | 0 => OutOfFuel
      | S fuel =>
          resolved ← resolveDependencyEntryIfExists h cur depName;
          match resolved with
          | Some r => Ok r
          | None =>
              e ← heap_get h cur;
              resolveLoop fuel h (owner e) parentName depName
          end
      end
  end.

Definition resolveDependencyEntry (fuel : nat) (c : BuildContext) (h : Heap)
    (parent : loc) (parentName depName : string) : Res loc :=
  resolveLoop fuel h (Some parent) parentName depName.

Section WalkDeps.
(** The visitor of [walkDeps] is a transformer of its own state [A]
    ([e => subsetDeps.add(e)] in the one call there is); the heap is only
    read.  [walked] is guarded by [has], so it is kept as its insertion
    history, newest first. *)
Context {A : Type}.

Fixpoint walkDeps (fuel : nat) (c : BuildContext) (h : Heap)
    (entryName : string) (entry : loc) (walker : loc -> A -> A) (acc : A)
    (walked : option (list loc)) : Res (A * list loc) :=
  match fuel with
  | 0 => OutOfFuel
  | S fuel =>
      let walked := default [] walked in
      if decide (entry ∈ walked) then Ok (acc, walked)
      else
        let walked := entry :: walked in
        e ← heap_get h entry;
        match requires e with
        | None => Ok (acc, walked)
        | Some req =>
            foldM (fun st packageName =>
                     resolvedEntry ←
                       resolveDependencyEntry fuel c h entry entryName packageName;
                     walkDeps fuel c h packageName resolvedEntry walker
                              (walker resolvedEntry (fst st)) (Some (snd st)))
                  (obj_keys req) (acc, walked)
        end
  end.
End WalkDeps.

Definition walkNonSubsetDeps (fuel : nat) (c : BuildContext) (h : Heap)
    (subset : list string) (walker : loc -> Heap -> Heap) : Res Heap :=
  match root c with
  | None => Throw TypeError
  | Some r =>
      rootEntry ← heap_get h r;
      match dependencies rootEntry with
      | None => Ok h
      | Some rdeps =>
          subsetDeps ←
            foldM (fun subsetDeps packageName =>
                     match obj_get rdeps packageName with
                     | None => Ok subsetDeps
                     | Some entry =>
                         r ← walkDeps fuel c h packageName entry set_add
                               (set_add entry subsetDeps) None;
                         Ok (fst r)
                     end)
                  subset [];
          walkEntries id fuel (Some rdeps)
            (fun e h => if decide (e ∈ subsetDeps) then h else walker e h) h
      end
  end.

(** ** Builder *)

(** Where a new entry is inserted: [ctx.rootDeps], or the [dependencies]
    object of an entry.  The source holds a reference to the object
    ([depsObject]); neither object is replaced while the tree is built. *)
Inductive Target : Type :=
| TRoot
| TEntry (l : loc).

Definition target_deps (s : St) (t : Target) : Res EntryDeps :=
  match t with
  | TRoot => Ok (rootDeps (ctx s))
  | TEntry l =>
      e ← heap_get (heap s) l;
      match dependencies e with
      | Some d => Ok d
      | None => Throw BadRef
      end
  end.

Definition target_write (t : Target) (d : EntryDeps) (s : St) : St :=
  match t with
  | TRoot => set_ctx (set_rootDeps d (ctx s)) s
  | TEntry l => set_heap (heap_update l (set_dependencies (Some d)) (heap s)) s
  end.

(** The [while (true)] loop of [getModulesDir]; a path of [n] segments is
    at the root after [n] steps. *)
Fixpoint getModulesDir_loop (n : nat) (location : Dir) : option Dir :=
  if decide (basename location = "node_modules") then Some location
  else if decide (location = fsroot) then None
  else match n with
       | 0 => None
       | S n => getModulesDir_loop n (dirname location)
       end.

Definition getModulesDir (location : Dir) : option Dir :=
  getModulesDir_loop (length location) location.

Definition getDependencyTarget (s : St) (modulesDir : Dir) : Target * St :=
  let modulesDir := dirname modulesDir in
  match moduleDirs_get (moduleDirs (ctx s)) modulesDir with
  | None => (TRoot, s)
  | Some target =>
      match heap s !! target with
      | Some e =>
          match dependencies e with
          | None =>
              (TEntry target,
               set_heap (<[target := set_dependencies (Some []) e]> (heap s)) s)
          | Some _ => (TEntry target, s)
          end
      | None => (TEntry target, s)
      end
  end.

Definition record_resolve (entry : loc) (depName : string) (depEntry : loc)
    (s : St) : St :=
  set_ctx (set_resolves (resolves_set (resolves (ctx s)) entry depName depEntry)
                        (ctx s)) s.

Record Lockfile : Type := {
  lname : string;
  lversion : string;
  lockfileVersion : nat;
  lrequires : bool;
  ldependencies : EntryDeps
}.

Section Builder.
Variable W : World.

Definition readManifest (dir : Dir) : Res Manifest :=
  match read W dir with
  | Some m => Ok m
  | None => Throw ManifestError
  end.

Definition resolvePackageLocation (fromDir : Dir) (packageName : string) : Res Dir :=
  match locate W fromDir packageName with
  | Found d => Ok d
  | NotFound => Throw ModuleNotFound
  | Failed => Throw LocatorFailure
  end.

Definition isInstalled (dir : Dir) (packageName : string) : Res bool :=
  match resolvePackageLocation dir packageName with
  | Ok _ => Ok true
  | Throw ModuleNotFound => Ok false
  | Throw e => Throw e
  | OutOfFuel => OutOfFuel
  end.

(** The object literal of [getRequires], before the filtering loop. *)
Definition declaredRequires (manifest : Manifest) (includeDev : bool) : Obj string :=
  spread (spread (spread [] (mdependencies manifest))
                 (optionalDependencies manifest))
         (if includeDev then devDependencies manifest else None).

Definition getRequires (dir : Dir) (includeDev : bool) : Res (Obj string) :=
  manifest ← readManifest dir;
  let requires := declaredRequires manifest includeDev in
  foldM (fun requires packageName =>
           installed ← isInstalled dir packageName;
           Ok (if installed : bool then requires
               else obj_delete requires packageName))
        (obj_keys requires) requires.

Definition newEntry (manifest : Manifest) (requires : Obj string) : Entry :=
  {| version := mversion manifest;
     integrity := _integrity manifest;
     resolved := _resolved manifest;
     requires := Some requires;
     dependencies := Some [];
     dev := None;
     optional := None;
     owner := None |}.

(** The [if (!modulesDir) ... else ...] that chooses [depsObject]. *)
Definition chooseTarget (s : St) (resolvedDir : Dir) : Target * St :=
match getModulesDir resolvedDir with
| None => (TRoot, s)
| Some modulesDir => getDependencyTarget s modulesDir
end.

(** One iteration of the loop over [Object.keys(requires)] in
  [buildLockfileEntry]; [rec] is the recursive call. *)
Definition buildDep (rec : St -> Dir -> bool -> Res (loc * St))
  (dir : Dir) (entry : loc) (s : St) (depName : string) : Res St :=
resolvedDir ← resolvePackageLocation dir depName;
if decide (resolvedDir ∈ visited (ctx s)) then Ok s
else
  let ts := chooseTarget s resolvedDir in
  let depsObject := fst ts in
  let s := snd ts in
  d ← target_deps s depsObject;
  match obj_get d depName with
  | None =>
      r ← rec s resolvedDir false;
      let depEntry := fst r in
      let s := snd r in
      d ← target_deps s depsObject;
      Ok (record_resolve entry depName depEntry
            (target_write depsObject (obj_set d depName depEntry) s))
  | Some depEntry => Ok (record_resolve entry depName depEntry s)
  end.

Fixpoint buildLockfileEntry (fuel : nat) (s : St) (dir : Dir)
    (includeDev : bool) : Res (loc * St) :=
  match fuel with
  | 0 => OutOfFuel
  | S fuel =>
      manifest ← readManifest dir;
      requires ← getRequires dir includeDev;
      let entry := length (heap s) in
      let s := {| heap := (heap s ++ [newEntry manifest requires])%list;
                  ctx := register dir entry (ctx s) |} in
      s ← foldM (buildDep (buildLockfileEntry fuel) dir entry)
                (obj_keys requires) s;
      Ok (entry, s)
  end.

Definition initialState (dir packagesDir : Dir) : St :=
  {| heap := [];
     ctx := {| packagesDir := packagesDir; startDir := dir; root := None;
               rootDeps := []; visited := []; moduleDirs := [];
               resolves := [] |} |}.

(** [ctx.rootDeps = {...entry.dependencies, ...ctx.rootDeps}] *)
Definition mergeRootDeps (entry : loc) (s : St) : Res St :=
  e ← heap_get (heap s) entry;
  Ok (set_ctx (set_rootDeps (obj_assign (spread [] (dependencies e))
                                        (rootDeps (ctx s)))
                            (ctx s)) s).

(** The visitor of the cleanup pass. *)
Definition stripEmpty (dep : Entry) : Entry :=
  let dep := match dependencies dep with
             | Some [] => set_dependencies None dep
             | _ => dep
             end in
  match requires dep with
  | Some [] => set_requires None dep
  | _ => dep
  end.

Definition cleanup (fuel : nat) (s : St) : Res St :=
  h ← walkEntries id fuel (Some (rootDeps (ctx s)))
        (fun dep h => heap_update dep stripEmpty h) (heap s);
  Ok (set_heap h s).

Definition markDevDeps (fuel : nat) (s : St) : Res St :=
  manifest ← readManifest (startDir (ctx s));
  let nonDevDeps :=
    spread (spread (spread [] (mdependencies manifest))
                   (optionalDependencies manifest))
           (peerDependencies manifest) in
  h ← walkNonSubsetDeps fuel (ctx s) (heap s) (obj_keys nonDevDeps)
        (fun e h => heap_update e (set_dev (Some true)) h);
  Ok (set_heap h s).

Definition markOptionalDeps (fuel : nat) (s : St) : Res St :=
  manifest ← readManifest (startDir (ctx s));
  let nonOptionalDeps :=
    spread (spread (spread [] (mdependencies manifest))
                   (devDependencies manifest))
           (peerDependencies manifest) in
  h ← walkNonSubsetDeps fuel (ctx s) (heap s) (obj_keys nonOptionalDeps)
        (fun e h => heap_update e (set_optional (Some true)) h);
  Ok (set_heap h s).

(** [generateLockfile]; [None] is the [undefined] returned when there is no
    manifest.  The heap is returned with the document: the entries of
    [ldependencies] live in it. *)
Definition generateLockfile (fuel : nat) (dir packagesDir : Dir)
    : Res (option (Lockfile * St)) :=
  let s := initialState dir packagesDir in
  match readIfExists W dir with
  | None => Ok None
  | Some manifest =>
      r ← buildLockfileEntry fuel s dir true;
      s ← mergeRootDeps (fst r) (snd r);
      s ← cleanup fuel s;
      s ← markDevDeps fuel s;
      s ← markOptionalDeps fuel s;
      Ok (Some ({| lname := name manifest;
                   lversion := mversion manifest;
                   lockfileVersion := 1;
                   lrequires := true;
                   ldependencies := rootDeps (ctx s) |}, s))
  end.
End Builder.

(** ** Specification-level definitions *)

(** The specification's reading of the object literal: the keys of [base] in
    their order, each with the value [over] gives it if it has one, followed
    by the keys only [over] has. *)
Definition overlay (base over : Obj string) : Obj string :=
  (map (λ kv, (kv.1, default kv.2 (obj_get over kv.1))) base
   ++ filter (λ kv, kv.1 ∉ obj_keys base) over)%list.

(** "the ordered union of declared dependency ranges, then optional-dependency
    ranges (overwriting on name collision), then, only if
    [includeDevRequirements], development ranges (overwriting again)" *)
Definition orderedUnion (m : Manifest) (includeDev : bool) : Obj string :=
  overlay (overlay (default [] (mdependencies m))
                   (default [] (optionalDependencies m)))
          (if includeDev then default [] (devDependencies m) else []).

Definition isFound (W : World) (dir : Dir) (packageName : string) : bool :=
  match locate W dir packageName with
  | Found _ => true
  | _ => false
  end.

(** A manifest whose maps are objects: no key twice. *)
Definition wf_manifest (m : Manifest) : Prop :=
  NoDup (obj_keys (default [] (mdependencies m))) ∧
  NoDup (obj_keys (default [] (optionalDependencies m))) ∧
  NoDup (obj_keys (default [] (devDependencies m))) ∧
  NoDup (obj_keys (default [] (peerDependencies m))).

(** The containers of an entry, innermost first: the entry itself, its
    owner, the owner of its owner, and so on until there is none. *)
Inductive ownerChain (h : Heap) : option loc → list loc → Prop :=
| ownerChain_end : ownerChain h None []
| ownerChain_step l e ls :
    h !! l = Some e →
    ownerChain h (owner e) ls →
    ownerChain h (Some l) (l :: ls).

(** The entry a container provides under a name, if any. *)
Definition provides (h : Heap) (container : loc) (depName : string) : option loc :=
  e ← h !! container; d ← dependencies e; obj_get d depName.

(** The entry provided by the nearest container of a chain. *)
Fixpoint nearest (h : Heap) (chain : list loc) (depName : string) : option loc :=
  match chain with
  | [] => None
  | container :: chain =>
      match provides h container depName with
      | Some r => Some r
      | None => nearest h chain depName
      end
  end.

(** The entries of the nested [dependencies] map of an entry. *)
Definition children (h : Heap) (l : loc) : list loc :=
  match h !! l with
  | Some e => obj_values (default [] (dependencies e))
  | None => []
  end.

(** A visitor that leaves the nesting of the entries as it is: it neither
    creates nor drops entries, and an entry has the same children after it
    as before. *)
Definition keeps_nesting {σ : Type} (hp : σ → Heap) (walker : loc → σ → σ) : Prop :=
  ∀ l s, length (hp (walker l s)) = length (hp s) ∧
         ∀ x, children (hp (walker l s)) x = children (hp s) x.

(** A visitor together with the record of its calls, oldest first. *)
Definition logged {σ : Type} (walker : loc → σ → σ) (l : loc)
    (s : σ * list loc) : σ * list loc :=
  (walker l (fst s), (snd s ++ [l])%list).

(** In a record of visits, every child of an entry comes, each time the
    entry is visited, strictly before that visit. *)
Definition children_before (h : Heap) (visits : list loc) : Prop :=
  ∀ pre e post, visits = pre ++ e :: post → ∀ c, c ∈ children h e → c ∈ pre.

(** What one run of the loop of [walkEntries] over the values [vs] does to
    the record of visits ([run], with the visitor recording its calls) and
    to the state ([plain], the walk as it is). *)
Definition walk_spec {σ : Type} (hp : σ → Heap)
    (run : σ * list loc → Res (σ * list loc))
    (plain : σ → Res σ) (vs : list loc) : Prop :=
  ∀ s log0 s' log1,
    run (s, log0) = Ok (s', log1) →
    ∃ seg, log1 = log0 ++ seg ∧ plain s = Ok s' ∧
           (∀ v, v ∈ vs → v ∈ seg) ∧
           children_before (hp s) seg ∧
           length (hp s') = length (hp s) ∧
           (∀ x, children (hp s') x = children (hp s) x).

(** The entry a dependency name of an entry resolves to: the one provided
    by the nearest of its containers. *)
Definition resolvesTo (h : Heap) (e : loc) (depName : string) (t : loc) : Prop :=
  ∃ chain, ownerChain h (Some e) chain ∧ nearest h chain depName = Some t.

(** An edge of the logical requires graph: a name of the [requires] map of
    [e] resolves to [t]. *)
Definition requires_edge (h : Heap) (e t : loc) : Prop :=
  ∃ rec depName, h !! e = Some rec ∧
                 depName ∈ obj_keys (default [] (requires rec)) ∧
                 resolvesTo h e depName t.

(** Every entry has a chain of containers: no cycle of owners, no owner
    outside the heap. *)
Definition owners_wf (h : Heap) : Prop :=
  ∀ l, l < length h → ∃ chain, ownerChain h (Some l) chain.

(** What a call of [walkDeps] on [entry] has done when it returns: [walked]
    has grown, without repetition, by entries of the heap that are reachable
    from [entry] and whose edges all lead into it, and the set collected by
    the visitor has grown by the targets of the edges of the new entries. *)
Definition walk_ok (h : Heap) (entry : loc) (acc walked acc' walked' : list loc) : Prop :=
  NoDup walked' ∧
  (∃ new, walked' = new ++ walked) ∧
  entry ∈ walked' ∧
  (∀ e, e ∈ walked' → e ∉ walked →
        e < length h ∧ rtc (requires_edge h) entry e ∧
        ∀ t, requires_edge h e t → t ∈ walked') ∧
  (∀ x, x ∈ acc' ↔
        (x ∈ acc ∨ (∃ e, e ∈ walked' ∧ (e ∉ walked) ∧ requires_edge h e x))) ∧
  (NoDup acc → NoDup acc').

(** The same for the loop of [walkDeps] over the names [ks] of the
    [requires] map of [entry]. *)
Definition walk_loop_ok (h : Heap) (entry : loc) (ks : list string)
    (acc walked acc' walked' : list loc) : Prop :=
  NoDup walked' ∧
  (∃ new, walked' = new ++ walked) ∧
  (∀ k t, k ∈ ks → resolvesTo h entry k t → t ∈ walked') ∧
  (∀ e, e ∈ walked' → e ∉ walked →
        e < length h ∧
        (∃ k t, k ∈ ks ∧ resolvesTo h entry k t ∧ rtc (requires_edge h) t e) ∧
        ∀ t, requires_edge h e t → t ∈ walked') ∧
  (∀ x, x ∈ acc' ↔
        (x ∈ acc ∨ (∃ k, k ∈ ks ∧ resolvesTo h entry k x) ∨
         (∃ e, e ∈ walked' ∧ (e ∉ walked) ∧ requires_edge h e x))) ∧
  (NoDup acc → NoDup acc').

(** ** Invariants of the tree under construction *)

(** An entry at [l] in a heap of [n] entries while the tree is built: it
    has no owner and no flag, its [dependencies] map is present, binds no
    name twice, and holds entries created after it. *)
Definition entry_inv (n : nat) (l : loc) (e : Entry) : Prop :=
  owner e = None ∧ dev e = None ∧ optional e = None ∧
  ∃ d, dependencies e = Some d ∧ NoDup (obj_keys d) ∧
       ∀ c, c ∈ obj_values d → l < c < n.

Definition build_inv (s : St) : Prop :=
  root (ctx s) = None ∧
  visited (ctx s) = map fst (moduleDirs (ctx s)) ∧
  map snd (moduleDirs (ctx s)) = reverse (seq 0 (length (heap s))) ∧
  NoDup (visited (ctx s)) ∧
  NoDup (obj_keys (rootDeps (ctx s))) ∧
  (∀ c, c ∈ obj_values (rootDeps (ctx s)) → c < length (heap s)) ∧
  (∀ l e, heap s !! l = Some e → entry_inv (length (heap s)) l e) ∧
  (∀ r m t, (r, m) ∈ resolves (ctx s) → t ∈ obj_values m → t < length (heap s)).

(** The logical edge [requirer -depName-> target] is on record in
    [ctx.resolves]. *)
Definition edge_recorded (s : St) (requirer : loc) (depName : string)
    (target : loc) : Prop :=
  ∃ m, resolves_get (resolves (ctx s)) requirer = Some m ∧
       obj_get m depName = Some target.

(** What a call of the builder on a directory not yet visited does: it
    keeps the invariant, returns the entry it has allocated, and only adds
    to the heap and to [visited]. *)
Definition build_ok (rec : St → Dir → bool → Res (loc * St)) : Prop :=
  ∀ s dir includeDev e s',
    build_inv s → dir ∉ visited (ctx s) →
    rec s dir includeDev = Ok (e, s') →
    build_inv s' ∧ e = length (heap s) ∧
    length (heap s) < length (heap s') ∧
    (∀ x, x ∈ visited (ctx s) → x ∈ visited (ctx s')).

(** The entries of a tree: those of the top-level list [tops] and,
    recursively, the children of its entries. *)
Inductive in_tree (h : Heap) (tops : list loc) : loc → Prop :=
| in_tree_top l : l ∈ tops → in_tree h tops l
| in_tree_child p l : in_tree h tops p → l ∈ children h p → in_tree h tops l.

(** An entry with no present-but-empty map. *)
Definition no_empty_map (e : Entry) : Prop :=
  requires e ≠ Some [] ∧ dependencies e ≠ Some [].

(** Children are allocated after their container. *)
Definition ordered (h : Heap) : Prop :=
  ∀ l c, c ∈ children h l → l < c < length h.

(** A rewriting [g] of entries that keeps their children and that it makes
    no difference to apply twice. *)
Definition keeps_children (g : loc → Entry → Entry) : Prop :=
  ∀ l e,
    obj_values (default [] (dependencies (g l e)))
    = obj_values (default [] (dependencies e)) ∧
    g l (g l e) = g l e.

(** What a walk whose visitor rewrites the entry it visits with [g] may have
    done to a heap: rewritten some of its entries. *)
Definition rewritten (g : loc → Entry → Entry) (h h' : Heap) : Prop :=
  length h' = length h ∧
  ∀ l, h' !! l = h !! l ∨ h' !! l = g l <$> h !! l.

(** What such a walk [run] over the tree of [tops] achieves from [h]: it
    returns, and has rewritten every entry of the tree. *)
Definition rewrite_spec (g : loc → Entry → Entry) (run : Heap → Res Heap)
    (tops : list loc) (h : Heap) : Prop :=
  ∃ h', run h = Ok h' ∧ rewritten g h h' ∧
        ∀ l, in_tree h tops l → h' !! l = g l <$> h !! l.

(** Any two requirers of one directory have their recorded edges lead to
    one entry: [r1], created for the directory [d1], requires under [n1] what
    the locator finds at [dep], and so does [r2] under [n2]. *)
Definition requirers_share_entry (W : World) (s : St) : Prop :=
  ∀ d1 r1 n1 t1 d2 r2 n2 t2 dep,
    (d1, r1) ∈ moduleDirs (ctx s) → (d2, r2) ∈ moduleDirs (ctx s) →
    locate W d1 n1 = Found dep → locate W d2 n2 = Found dep →
    edge_recorded s r1 n1 t1 → edge_recorded s r2 n2 t2 →
    t1 = t2.

(** ** Concrete installations and trees *)

Fixpoint table_get {K V : Type} `{EqDecision K} (t : list (K * V)) (k : K) : option V :=
  match t with
  | [] => None
  | (k', v) :: t' => if decide (k' = k) then Some v else table_get t' k
  end.

(** An installation given by the manifests on disk and by what the locator
    finds; a name it has no line for is not found. *)
Definition tableWorld (manifests : list (Dir * Manifest))
    (links : list ((Dir * string) * Dir)) : World :=
  {| read := table_get manifests;
     readIfExists := table_get manifests;
     locate := fun from packageName =>
       match table_get links (from, packageName) with
       | Some d => Found d
       | None => NotFound
       end |}.

Definition pkg (nm : string) (deps opt devd : Obj string) : Manifest :=
  {| name := nm; mversion := "1.0.0"; mdependencies := Some deps;
     optionalDependencies := Some opt; devDependencies := Some devd;
     peerDependencies := None; _integrity := None; _resolved := None |}.

Definition modulesOf (d : Dir) (nm : string) : Dir := d ++ ["node_modules"; nm].

(** The specification's scenario: the root requires [a] and, for
    development only, [b]; [a] requires nothing, [b] requires [c]; the
    optional dependency [x] is declared but not installed. *)
Definition rootDir : Dir := ["r"].

Definition world_spec : World :=
  tableWorld
    [(rootDir, pkg "root" [("a", "^1")] [("x", "^2")] [("b", "^1")]);
     (modulesOf rootDir "a", pkg "a" [] [] []);
     (modulesOf rootDir "b", pkg "b" [("c", "^1")] [] []);
     (modulesOf rootDir "c", pkg "c" [] [] [])]
    [((rootDir, "a"), modulesOf rootDir "a");
     ((rootDir, "b"), modulesOf rootDir "b");
     ((modulesOf rootDir "b", "c"), modulesOf rootDir "c")].

(** A workspace package [a] with its own copy of [x], and a dependency [y]
    hoisted to the workspace that requires the workspace's [x]. *)
Definition wsDir : Dir := ["ws"].
Definition pkgDir (nm : string) : Dir := ["ws"; "packages"; nm].

Definition world_collision : World :=
  tableWorld
    [(pkgDir "a", pkg "a" [("x", "^2"); ("y", "^1")] [] []);
     (modulesOf (pkgDir "a") "x", pkg "x" [] [] []);
     (modulesOf wsDir "y", pkg "y" [("x", "^1")] [] []);
     (modulesOf wsDir "x", pkg "x" [] [] [])]
    [((pkgDir "a", "x"), modulesOf (pkgDir "a") "x");
     ((pkgDir "a", "y"), modulesOf wsDir "y");
     ((modulesOf wsDir "y", "x"), modulesOf wsDir "x")].

(** A workspace package [a] that requires the workspace package [x] (found
    through a link, at its real directory); [x] requires [y], hoisted to the
    workspace, and [y] requires the published [x], hoisted next to it. *)
Definition world_overwrite : World :=
  tableWorld
    [(pkgDir "a", pkg "a" [("x", "^2")] [] []);
     (pkgDir "x", pkg "x" [("y", "^1")] [] []);
     (modulesOf wsDir "y", pkg "y" [("x", "^1")] [] []);
     (modulesOf wsDir "x", pkg "x" [] [] [])]
    [((pkgDir "a", "x"), pkgDir "x");
     ((pkgDir "x", "y"), modulesOf wsDir "y");
     ((modulesOf wsDir "y", "x"), modulesOf wsDir "x")].

(** The root requires [w], [x] and [c].  [w] is a workspace package that
    requires the workspace package [x]; the root's own [x] is found inside
    [c]'s modules directory, and [c] requires that same [x]. *)
Definition world_later : World :=
  tableWorld
    [(rootDir, pkg "root" [("w", "^1"); ("x", "^1"); ("c", "^1")] [] []);
     (pkgDir "w", pkg "w" [("x", "^2")] [] []);
     (pkgDir "x", pkg "x" [] [] []);
     (modulesOf rootDir "c", pkg "c" [("x", "^1")] [] []);
     (modulesOf (modulesOf rootDir "c") "x", pkg "x" [] [] [])]
    [((rootDir, "w"), pkgDir "w");
     ((pkgDir "w", "x"), pkgDir "x");
     ((rootDir, "x"), modulesOf (modulesOf rootDir "c") "x");
     ((rootDir, "c"), modulesOf rootDir "c");
     ((modulesOf rootDir "c", "x"), modulesOf (modulesOf rootDir "c") "x")].

(** A store layout with two versions of [x]: every package sits in its own
    directory of the store, the application requires [x] (version 2) and
    [y], and [y] requires [x] (version 1). *)
Definition appDir : Dir := ["app"].
Definition storeDir (nm ver : string) : Dir :=
  ["app"; "node_modules"; ".store"; ver; "node_modules"; nm].

Definition world_versions : World :=
  tableWorld
    [(appDir, pkg "app" [("x", "^2"); ("y", "^1")] [] []);
     (storeDir "x" "x@2", pkg "x" [] [] []);
     (storeDir "y" "y@1", pkg "y" [("x", "^1")] [] []);
     (storeDir "x" "x@1", pkg "x" [] [] [])]
    [((appDir, "x"), storeDir "x" "x@2");
     ((appDir, "y"), storeDir "y" "y@1");
     ((storeDir "y" "y@1", "x"), storeDir "x" "x@1")].

Definition mkEntry (req : option (Obj string)) (deps : option EntryDeps)
    (own : option loc) : Entry :=
  {| version := "1.0.0"; integrity := None; resolved := None;
     requires := req; dependencies := deps; dev := None; optional := None;
     owner := own |}.

(** A tree with owners: the root (0) holds [a] (1) and [c] (3); [a] holds
    [b] (2).  [a] requires [b] and [c], and [b] requires [a]: a cycle. *)
Definition heap_demo : Heap :=
  [ mkEntry None (Some [("a", 1); ("c", 3)]) None;
    mkEntry (Some [("b", "^1"); ("c", "^1")]) (Some [("b", 2)]) (Some 0);
    mkEntry (Some [("a", "^1")]) None (Some 1);
    mkEntry None None (Some 0) ].

Definition ctx_demo : BuildContext :=
  {| packagesDir := []; startDir := rootDir; root := Some 0; rootDeps := [];
     visited := []; moduleDirs := []; resolves := [] |}.

(** The entries logically reachable from the names [subset] of the root:
    those reachable along requires edges from an entry that the root's
    [dependencies] map binds to one of the names. *)
Definition reachable_from (h : Heap) (rdeps : EntryDeps) (subset : list string)
    (x : loc) : Prop :=
  ∃ depName entry, depName ∈ subset ∧ obj_get rdeps depName = Some entry ∧
                   rtc (requires_edge h) entry x.

(** ** Further specification-level definitions *)

(** One step of the locator: some name is found, from [a], at [b]. *)
Definition locates (W : World) (a b : Dir) : Prop :=
  ∃ packageName, locate W a packageName = Found b.

(** The directories the builder can come to from [dir]: [dir] itself and,
    step by step, whatever the locator finds from them. *)
Definition reachable_dir (W : World) (dir : Dir) : Dir → Prop :=
  rtc (locates W) dir.

(** The two ways a build started at [dir] can fail: a directory it comes to
    has no readable manifest, or the locator fails, from such a directory,
    with something other than "not found". *)
Definition build_error (W : World) (dir : Dir) (e : Err) : Prop :=
  (e = ManifestError ∧ ∃ d, reachable_dir W dir d ∧ read W d = None) ∨
  (e = LocatorFailure ∧
   ∃ d packageName, reachable_dir W dir d ∧ locate W d packageName = Failed).

(** What a call of the builder may throw. *)
Definition throws_ok (W : World) (rec : St → Dir → bool → Res (loc * St)) : Prop :=
  ∀ s dir includeDev e,
    build_inv s → dir ∉ visited (ctx s) →
    rec s dir includeDev = Throw e → build_error W dir e.

(** The directories of [dirs] the builder has not visited yet. *)
Definition unvisited (dirs : list Dir) (s : St) : list Dir :=
  filter (λ d, d ∉ visited (ctx s)) dirs.

(** A call of the builder that does not run out of fuel while at most [n]
    of the directories [dirs], which hold all that can be come to from
    [dir0], are left to visit. *)
Definition rec_fuel (W : World) (dir0 : Dir) (dirs : list Dir) (n : nat)
    (rec : St → Dir → bool → Res (loc * St)) : Prop :=
  ∀ s d includeDev,
    build_inv s → reachable_dir W dir0 d → d ∉ visited (ctx s) →
    length (unvisited dirs s) ≤ n →
    rec s d includeDev ≠ OutOfFuel.

(** The root requires [a], which is installed without a manifest. *)
Definition world_broken : World :=
  tableWorld
    [(rootDir, pkg "root" [("a", "^1")] [] [])]
    [((rootDir, "a"), modulesOf rootDir "a")].

(** An entry that carries what the manifest of the directory [d] says:
    its version, integrity and resolved fields, and as [requires] what
    [getRequires] returns there. *)
Definition entry_of (W : World) (d : Dir) (includeDev : bool) (e : Entry) : Prop :=
  ∃ m req, read W d = Some m ∧ getRequires W d includeDev = Ok req ∧
           version e = mversion m ∧ integrity e = _integrity m ∧
           resolved e = _resolved m ∧ requires e = Some req.

(** Every directory on record has its entry in the heap, and the entry
    carries what the directory's manifest says; development requirements
    count for the first entry only, which is the root's when [includeDev]
    is what the build was started with. *)
Definition entries_match (W : World) (includeDev : bool) (s : St) : Prop :=
  ∀ d l, (d, l) ∈ moduleDirs (ctx s) →
         ∃ e, heap s !! l = Some e ∧
              entry_of W d (if decide (l = 0) then includeDev else false) e.

Definition match_ok (W : World) (includeDev : bool)
    (rec : St → Dir → bool → Res (loc * St)) : Prop :=
  ∀ s dir b e s',
    build_inv s → dir ∉ visited (ctx s) → entries_match W includeDev s →
    b = (if decide (length (heap s) = 0) then includeDev else false) →
    rec s dir b = Ok (e, s') →
    entries_match W includeDev s'.

(** A call of the builder puts its directory on record with the entry it
    returns, and keeps what was on record. *)
Definition grow_ok (rec : St → Dir → bool → Res (loc * St)) : Prop :=
  ∀ s dir b e s',
    rec s dir b = Ok (e, s') →
    ∃ new, moduleDirs (ctx s') = (new ++ (dir, e) :: moduleDirs (ctx s))%list.

(** [childDir] lies in the modules directory of the package at
    [parentDir], and in no modules directory further down. *)
Definition nested_under (parentDir childDir : Dir) : Prop :=
  ∃ rest, childDir = (parentDir ++ "node_modules" :: rest)%list ∧
          "node_modules" ∉ rest.

(** The nesting of the entries follows that of their directories. *)
Definition nest_inv (s : St) : Prop :=
  ∀ dl l dc c,
    (dl, l) ∈ moduleDirs (ctx s) → (dc, c) ∈ moduleDirs (ctx s) →
    c ∈ children (heap s) l → nested_under dl dc.

Definition nest_ok (rec : St → Dir → bool → Res (loc * St)) : Prop :=
  ∀ s dir b e s',
    build_inv s → dir ∉ visited (ctx s) → nest_inv s →
    rec s dir b = Ok (e, s') → nest_inv s'.

(** The tree [heap_demo] as the state of a run: the top-level map holds
    [a] and [c]. *)
Definition st_demo : St :=
  {| heap := heap_demo;
     ctx := set_rootDeps [("a", 1); ("c", 3)] ctx_demo |}.

(** Two heaps with the same tree and the same logical graph: entry by
    entry, the same [requires], [dependencies] and [owner]. *)
Definition same_graph (h h' : Heap) : Prop :=
  length h' = length h ∧
  ∀ l e, h !! l = Some e →
         ∃ e', h' !! l = Some e' ∧ requires e' = requires e ∧
               dependencies e' = dependencies e ∧ owner e' = owner e.

(** A visitor's rewriting that touches neither the tree nor the graph. *)
Definition keeps_graph (mark : Entry → Entry) : Prop :=
  ∀ e, requires (mark e) = requires e ∧
       dependencies (mark e) = dependencies e ∧ owner (mark e) = owner e.

(** The names that keep an entry from being development-only, and those
    that keep it from being optional: the object literals of
    [markDevDeps] and [markOptionalDeps]. *)
Definition nonDevDeps (manifest : Manifest) : list string :=
  obj_keys (spread (spread (spread [] (mdependencies manifest))
                           (optionalDependencies manifest))
                   (peerDependencies manifest)).

Definition nonOptionalDeps (manifest : Manifest) : list string :=
  obj_keys (spread (spread (spread [] (mdependencies manifest))
                           (devDependencies manifest))
                   (peerDependencies manifest)).

(** The directory [d] was required: the entry at [l'], created for the
    directory [d'], lists in its [requires] a name that the locator finds,
    from [d'], at [d]. *)
Definition required_by (W : World) (includeDev : bool) (s : St)
    (d' : Dir) (l' : loc) (d : Dir) : Prop :=
  (d', l') ∈ moduleDirs (ctx s) ∧
  ∃ depName req,
    getRequires W d' (if decide (l' = 0) then includeDev else false) = Ok req ∧
    depName ∈ obj_keys req ∧ locate W d' depName = Found d.

(** Every entry but the first was required by an entry created before it. *)
Definition required_inv (W : World) (includeDev : bool) (s : St) : Prop :=
  ∀ d l, (d, l) ∈ moduleDirs (ctx s) → l ≠ 0 →
         ∃ d' l', l' < l ∧ required_by W includeDev s d' l' d.

Definition required_ok (W : World) (includeDev : bool)
    (rec : St → Dir → bool → Res (loc * St)) : Prop :=
  ∀ s dir b e s',
    build_inv s → dir ∉ visited (ctx s) → required_inv W includeDev s →
    b = (if decide (length (heap s) = 0) then includeDev else false) →
    (length (heap s) ≠ 0 →
     ∃ d' l', l' < length (heap s) ∧ required_by W includeDev s d' l' dir) →
    rec s dir b = Ok (e, s') →
    required_inv W includeDev s'.

(** Where an entry can be bound: at top level, in [ctx.rootDeps]
    ([None]), or in the [dependencies] map of an entry. *)
Definition holds (s : St) (p : option loc) (c : loc) : Prop :=
  match p with
  | None => c ∈ obj_values (rootDeps (ctx s))
  | Some l => c ∈ children (heap s) l
  end.

Definition pos_of (t : Target) : option loc :=
  match t with
  | TRoot => None
  | TEntry l => Some l
  end.

(** No entry is bound twice: not under two names of one map, and not in
    two maps. *)
Definition held_once (s : St) : Prop :=
  NoDup (obj_values (rootDeps (ctx s))) ∧
  (∀ l, NoDup (children (heap s) l)) ∧
  ∀ p1 p2 c, holds s p1 c → holds s p2 c → p1 = p2.

(** A step of the build that binds only entries created from [n] on. *)
Definition binds_from (n : nat) (s s' : St) : Prop :=
  ∀ p c, holds s' p c → holds s p c ∨ n ≤ c.

Definition held_ok (rec : St → Dir → bool → Res (loc * St)) : Prop :=
  ∀ s dir b e s',
    build_inv s → dir ∉ visited (ctx s) → held_once s →
    rec s dir b = Ok (e, s') →
    held_once s' ∧ binds_from (S (length (heap s))) s s'.

(** A forest: no entry is a top twice, no entry of the tree holds an
    entry twice or holds a top, and no entry is held by two entries of the
    tree. *)
Definition forest (h : Heap) (tops : list loc) : Prop :=
  NoDup tops ∧
  (∀ l, in_tree h tops l → NoDup (children h l)) ∧
  (∀ l c, in_tree h tops l → c ∈ children h l → c ∉ tops) ∧
  (∀ l1 l2 c, in_tree h tops l1 → in_tree h tops l2 →
              c ∈ children h l1 → c ∈ children h l2 → l1 = l2).

(** * Properties *)

(** ** Objects *)

Section ObjFacts.
Context {V : Type}.
Implicit Types (o : Obj V) (k : string) (v : V).

Lemma obj_get_None o k : obj_get o k = None ↔ k ∉ obj_keys o.
Proof.
  induction o as [|[k' v'] o IH]; simpl.
  - split; [intros _; apply not_elem_of_nil | done].
  - rewrite not_elem_of_cons. destruct (decide (k' = k)) as [->|Hne].
    + split; [done | intros [? _]; done].
    + rewrite IH. split; [intros ?; split; [congruence | done] | intros [_ ?]; done].
Qed.

Lemma obj_get_Some_elem o k v : obj_get o k = Some v → (k, v) ∈ o.
Proof.
  induction o as [|[k' v'] o IH]; simpl; [done|].
  destruct (decide (k' = k)) as [->|Hne].
  - intros [= ->]. apply list_elem_of_here.
  - intros ?. apply list_elem_of_further. auto.
Qed.

Lemma obj_get_is_Some o k : is_Some (obj_get o k) ↔ k ∈ obj_keys o.
Proof.
  destruct (obj_get o k) eqn:E.
  - split; [intros _ | eauto]. apply obj_get_Some_elem in E.
    apply list_elem_of_fmap. exists (k, v). done.
  - apply obj_get_None in E. split; [intros [? ?]; done | done].
Qed.

Lemma obj_get_elem_NoDup o k v :
  NoDup (obj_keys o) → (k, v) ∈ o → obj_get o k = Some v.
Proof.
  induction o as [|[k' v'] o IH]; simpl.
  - intros _ H. by apply elem_of_nil in H.
  - intros Hnd H. apply NoDup_cons in Hnd as [Hk' Hnd].
    apply elem_of_cons in H as [[= <- <-]|H].
    + by destruct (decide (k = k)).
    + destruct (decide (k' = k)) as [->|Hne]; [|auto].
      exfalso. apply Hk'. apply list_elem_of_fmap. by exists (k, v).
Qed.

Lemma obj_set_fresh o k v : k ∉ obj_keys o → obj_set o k v = (o ++ [(k, v)])%list.
Proof.
  induction o as [|[k' v'] o IH]; simpl; [done|].
  rewrite not_elem_of_cons. intros [Hne Hk].
  rewrite decide_False by congruence. by rewrite IH.
Qed.

Lemma obj_keys_set o k v :
  obj_keys (obj_set o k v) =
  if decide (k ∈ obj_keys o) then obj_keys o else (obj_keys o ++ [k])%list.
Proof.
  induction o as [|[k' v'] o IH]; cbn [obj_set obj_keys map fst].
  - destruct (decide (k ∈ [])) as [H|_]; [by apply elem_of_nil in H | done].
  - destruct (decide (k' = k)) as [->|Hne]; cbn [map fst].
    + destruct (decide (k ∈ k :: map fst o)) as [_|H]; [done|].
      exfalso. apply H, list_elem_of_here.
    + fold (obj_keys (obj_set o k v)). rewrite IH. unfold obj_keys.
      destruct (decide (k ∈ map fst o)) as [Hin|Hnin].
      * destruct (decide (k ∈ k' :: map fst o)) as [_|H]; [done|].
        exfalso. by apply H, list_elem_of_further.
      * destruct (decide (k ∈ k' :: map fst o)) as [H|_]; [|done].
        apply elem_of_cons in H as [->|?]; done.
Qed.

Lemma obj_set_NoDup o k v : NoDup (obj_keys o) → NoDup (obj_keys (obj_set o k v)).
Proof.
  intros Hnd. rewrite obj_keys_set. case_decide; [done|].
  apply NoDup_app. split; [done|]. split; [|apply NoDup_singleton].
  intros x Hx Hx'. apply list_elem_of_singleton in Hx'. by subst.
Qed.

Lemma obj_get_set o k v k' :
  obj_get (obj_set o k v) k' = if decide (k = k') then Some v else obj_get o k'.
Proof.
  induction o as [|[k0 v0] o IH]; cbn [obj_set obj_get].
  - by destruct (decide (k = k')).
  - destruct (decide (k0 = k)) as [->|Hne]; cbn [obj_get].
    + by destruct (decide (k = k')).
    + rewrite IH. destruct (decide (k0 = k')) as [->|?]; [|done].
      destruct (decide (k = k')); congruence.
Qed.

Lemma obj_values_set_subset o k v x :
  x ∈ obj_values (obj_set o k v) → x = v ∨ x ∈ obj_values o.
Proof.
  unfold obj_values.
  induction o as [|[k0 v0] o IH]; cbn [obj_set map snd].
  - intros H. apply list_elem_of_singleton in H. by left.
  - destruct (decide (k0 = k)) as [->|Hne]; cbn [map snd]; rewrite !elem_of_cons.
    + intros [->|?]; [by left | right; by right].
    + intros [->|H]; [right; by left|]. apply IH in H as [->|?]; [by left | right; by right].
Qed.

Lemma obj_get_delete o k k' :
  obj_get (obj_delete o k) k' = if decide (k = k') then None else obj_get o k'.
Proof.
  induction o as [|[k0 v0] o IH]; cbn [obj_delete obj_get].
  - by destruct (decide (k = k')).
  - destruct (decide (k0 = k)) as [->|Hne]; cbn [obj_get].
    + rewrite IH. destruct (decide (k = k')); done.
    + rewrite IH. destruct (decide (k0 = k')) as [->|?]; [|done].
      destruct (decide (k = k')); congruence.
Qed.

Lemma obj_delete_filter o k : obj_delete o k = filter (λ kv, kv.1 ≠ k) o.
Proof.
  induction o as [|[k0 v0] o IH]; cbn [obj_delete]; [done|].
  destruct (decide (k0 = k)) as [->|Hne].
  - rewrite filter_cons_False by (simpl; auto). done.
  - rewrite filter_cons_True by done. by rewrite IH.
Qed.
End ObjFacts.

(** ** The requires of a directory *)

Lemma filter_iff_elem {A} (P1 P2 : A → Prop)
    `{!∀ x, Decision (P1 x), !∀ x, Decision (P2 x)} (l : list A) :
  (∀ x, x ∈ l → P1 x ↔ P2 x) → filter P1 l = filter P2 l.
Proof.
  induction l as [|a l IH]; intros Hiff; [done|].
  assert (P1 a ↔ P2 a) as Ha by apply Hiff, list_elem_of_here.
  assert (filter P1 l = filter P2 l) as Hl.
  { apply IH. intros x Hx. by apply Hiff, list_elem_of_further. }
  destruct (decide (P1 a)).
  - rewrite !filter_cons_True by tauto. by rewrite Hl.
  - rewrite !filter_cons_False by tauto. done.
Qed.

Section RequiresFacts.
Implicit Types (o acc src : Obj string).

Lemma overlay_nil_r o : overlay o [] = o.
Proof.
  unfold overlay. rewrite filter_nil, app_nil_r.
  induction o as [|[k v] o IH]; [done|].
  cbn [map]. by rewrite IH.
Qed.

Lemma overlay_nil_l o : overlay [] o = o.
Proof.
  unfold overlay. cbn [map app obj_keys].
  induction o as [|[k v] o IH]; [done|].
  rewrite filter_cons_True by apply not_elem_of_nil. by rewrite IH.
Qed.

Lemma overlay_keys base over :
  obj_keys (overlay base over) =
  (obj_keys base ++ filter (λ k, k ∉ obj_keys base) (obj_keys over))%list.
Proof.
  unfold overlay, obj_keys. rewrite map_app, map_map. cbn [fst]. f_equal.
  induction over as [|[k v] over IH]; [done|].
  cbn [map fst]. destruct (decide (k ∉ map fst base)).
  - rewrite !filter_cons_True by done. cbn [map fst]. by rewrite IH.
  - rewrite !filter_cons_False by done. done.
Qed.

Lemma overlay_NoDup base over :
  NoDup (obj_keys base) → NoDup (obj_keys over) →
  NoDup (obj_keys (overlay base over)).
Proof.
  intros Hb Ho. rewrite overlay_keys. apply NoDup_app. split; [done|]. split.
  - intros k Hk Hk'. apply list_elem_of_filter in Hk' as [Hn _]. done.
  - by apply NoDup_filter.
Qed.

Lemma overlay_values_other acc k v src :
  k ∉ obj_keys acc →
  map (λ kv, (kv.1, default kv.2 (obj_get src kv.1))) acc =
  map (λ kv, (kv.1, default kv.2 (obj_get ((k, v) :: src) kv.1))) acc.
Proof.
  intros Hk. apply map_ext_in. intros [k1 v1] Hin1. cbn [fst snd obj_get].
  destruct (decide (k = k1)) as [->|?]; [|done].
  exfalso. apply Hk. apply list_elem_of_fmap. exists (k1, v1).
  split; [done|]. by apply list_elem_of_In.
Qed.

Lemma overlay_values_set acc k v src :
  NoDup (obj_keys acc) → k ∈ obj_keys acc → k ∉ obj_keys src →
  map (λ kv, (kv.1, default kv.2 (obj_get src kv.1))) (obj_set acc k v) =
  map (λ kv, (kv.1, default kv.2 (obj_get ((k, v) :: src) kv.1))) acc.
Proof.
  intros Hnd Hin Hk. induction acc as [|[k0 v0] acc IH].
  - by apply elem_of_nil in Hin.
  - cbn [obj_keys map fst] in Hnd, Hin. apply NoDup_cons in Hnd as [Hk0 Hnd].
    cbn [obj_set]. destruct (decide (k0 = k)) as [->|Hne]; cbn [map].
    + f_equal.
      * cbn [fst snd obj_get]. apply obj_get_None in Hk. rewrite Hk.
        by destruct (decide (k = k)).
      * by apply overlay_values_other.
    + f_equal.
      * cbn [fst snd obj_get]. by destruct (decide (k = k0)); [congruence|].
      * apply IH; [done|]. apply elem_of_cons in Hin as [?|?]; [congruence | done].
Qed.

Lemma overlay_cons_fresh acc k v src :
  NoDup (obj_keys acc) → k ∉ obj_keys src →
  overlay (obj_set acc k v) src = overlay acc ((k, v) :: src).
Proof.
  intros Hnd Hk. destruct (decide (k ∈ obj_keys acc)) as [Hin|Hnin].
  - unfold overlay. rewrite filter_cons_False by (cbn [fst]; auto). f_equal.
    + by apply overlay_values_set.
    + apply list_filter_iff. intros [k1 v1]. cbn [fst].
      rewrite obj_keys_set. by destruct (decide (k ∈ obj_keys acc)).
  - rewrite obj_set_fresh by done. unfold overlay.
    rewrite filter_cons_True by done. rewrite map_app. cbn [map fst snd].
    rewrite <- app_assoc. cbn [app]. f_equal; [by apply overlay_values_other|].
    f_equal.
    + apply obj_get_None in Hk. by rewrite Hk.
    + apply filter_iff_elem. intros [k1 v1] Hin1. cbn [fst].
      unfold obj_keys. rewrite map_app. cbn [map fst].
      rewrite elem_of_app, list_elem_of_singleton.
      split; [tauto|]. intros Hn [?|Heq]; [done|]. subst k1. apply Hk.
      apply list_elem_of_fmap. by exists (k, v1).
Qed.

(** The fold of assignments that a spread element is builds the overlay. *)
Lemma obj_assign_overlay acc src :
  NoDup (obj_keys acc) → NoDup (obj_keys src) →
  obj_assign acc src = overlay acc src.
Proof.
  revert acc. induction src as [|[k v] src IH]; intros acc Ha Hnd.
  - by rewrite overlay_nil_r.
  - cbn [obj_keys map fst] in Hnd. apply NoDup_cons in Hnd as [Hk Hnd].
    unfold obj_assign. cbn [fold_left fst snd].
    fold (obj_assign (obj_set acc k v) src).
    rewrite IH by (done || by apply obj_set_NoDup).
    by apply overlay_cons_fresh.
Qed.

Lemma spread_overlay acc (src : option (Obj string)) :
  NoDup (obj_keys acc) → NoDup (obj_keys (default [] src)) →
  spread acc src = overlay acc (default [] src).
Proof.
  destruct src as [o|]; cbn [spread default]; intros Ha Hs.
  - by apply obj_assign_overlay.
  - by rewrite overlay_nil_r.
Qed.
End RequiresFacts.

Section GetRequires.
Variable W : World.

Lemma isInstalled_isFound dir k :
  locate W dir k ≠ Failed → isInstalled W dir k = Ok (isFound W dir k).
Proof.
  unfold isInstalled, resolvePackageLocation, isFound.
  by destruct (locate W dir k).
Qed.

(** The loop of [getRequires] deletes the keys it meets that are not
    installed, and nothing else. *)
Lemma getRequires_loop dir ks (acc : Obj string) :
  (∀ k, k ∈ ks → locate W dir k ≠ Failed) →
  foldM (fun requires packageName =>
           installed ← isInstalled W dir packageName;
           Ok (if installed : bool then requires
               else obj_delete requires packageName)) ks acc
  = Ok (filter (λ kv, kv.1 ∈ ks → isFound W dir kv.1) acc).
Proof.
  revert acc. induction ks as [|k ks IH]; intros acc Hks.
  - cbn [foldM]. f_equal. symmetry. induction acc as [|kv acc IHa]; [done|].
    rewrite filter_cons_True; [by rewrite IHa|].
    intros H. by apply elem_of_nil in H.
  - cbn [foldM]. rewrite isInstalled_isFound by apply Hks, list_elem_of_here.
    cbn [mbind res_bind]. rewrite IH by (intros; by apply Hks, list_elem_of_further).
    f_equal. destruct (isFound W dir k) eqn:Ek.
    + apply list_filter_iff. intros [k1 v1]. cbn [fst].
      rewrite elem_of_cons. split; [|tauto].
      intros H [Heq|?]; [subst k1; rewrite Ek; exact I | auto].
    + rewrite obj_delete_filter, list_filter_filter.
      apply list_filter_iff. intros [k1 v1]. cbn [fst].
      rewrite elem_of_cons. split.
      * intros [H Hne] [?|?]; [congruence | auto].
      * intros H. split; [auto|]. intros ->.
        assert (Is_true (isFound W dir k)) as Hf by auto. by rewrite Ek in Hf.
Qed.

Lemma declaredRequires_orderedUnion m includeDev :
  wf_manifest m → declaredRequires m includeDev = orderedUnion m includeDev.
Proof.
  intros (Hd & Ho & Hv & _). unfold declaredRequires, orderedUnion.
  rewrite (spread_overlay [] (mdependencies m)) by (done || apply NoDup_nil_2).
  rewrite overlay_nil_l.
  rewrite (spread_overlay _ (optionalDependencies m)) by done.
  destruct includeDev.
  - apply spread_overlay; [by apply overlay_NoDup | done].
  - cbn [spread]. by rewrite overlay_nil_r.
Qed.

End GetRequires.

(** ** Scope resolution *)

Lemma resolveLoop_nearest h cur chain parentName depName :
  ownerChain h cur chain →
  ∀ fuel, length chain ≤ fuel →
  resolveLoop fuel h cur parentName depName
  = match nearest h chain depName with
    | Some r => Ok r
    | None => Throw (InternalError parentName depName)
    end.
Proof.
  induction 1 as [|l e ls Hl Hchain IH]; intros fuel Hfuel.
  - by destruct fuel.
  - cbn [length] in Hfuel. destruct fuel as [|fuel]; [lia|].
    cbn [resolveLoop nearest].
    unfold resolveDependencyEntryIfExists, heap_get, provides. rewrite Hl.
    cbn [mbind res_bind option_bind].
    destruct (dependencies e) as [d|]; cbn [mbind option_bind].
    + destruct (obj_get d depName); [done|]. apply IH. lia.
    + apply IH. lia.
Qed.


(** ** Inversion of monadic code *)

Lemma bind_Ok {A B} (m : Res A) (k : A → Res B) (r : B) :
  (x ← m; k x) = Ok r → ∃ a, m = Ok a ∧ k a = Ok r.
Proof. destruct m; cbn [mbind res_bind]; [eauto | done | done]. Qed.

Lemma heap_get_Ok (h : Heap) l e : heap_get h l = Ok e ↔ h !! l = Some e.
Proof. unfold heap_get. destruct (h !! l); split; congruence. Qed.

Ltac inv_bind H :=
  let a := fresh "a" in
  let Ha := fresh "H" a in
  apply bind_Ok in H as (a & Ha & H).

Tactic Notation "inv_bind_as" hyp(H) ident(x) ident(Hx) :=
  apply bind_Ok in H as (x & Hx & H).

(** ** The post-order walk *)

Lemma children_before_nil h : children_before h [].
Proof. intros pre e post H. by destruct pre. Qed.

Lemma children_before_app_gen h a b :
  children_before h a →
  (∀ pre e post, b = pre ++ e :: post → ∀ c, c ∈ children h e → c ∈ a ++ pre) →
  children_before h (a ++ b).
Proof.
  intros Ha Hb pre e post Heq c Hc.
  apply app_eq_inv in Heq as [(k & -> & Hk)|(k & -> & ->)].
  - destruct k as [|e' k].
    + cbn [app] in Hk. subst b.
      specialize (Hb [] e post eq_refl c Hc). by rewrite !app_nil_r in Hb.
    + cbn [app] in Hk. injection Hk as <- ->. by eapply (Ha pre e k).
  - by eapply (Hb k e post).
Qed.

Lemma children_before_app h a b :
  children_before h a → children_before h b → children_before h (a ++ b).
Proof.
  intros Ha Hb. apply children_before_app_gen; [done|].
  intros pre e post Heq c Hc. apply elem_of_app. right. by eapply Hb.
Qed.

Lemma children_before_snoc h seg v :
  children_before h seg →
  (∀ c, c ∈ children h v → c ∈ seg) →
  children_before h (seg ++ [v]).
Proof.
  intros Hseg Hv. apply children_before_app_gen; [done|].
  intros pre e post Heq c Hc. destruct pre as [|x pre].
  - cbn [app] in Heq. injection Heq as <- _. rewrite app_nil_r. by apply Hv.
  - cbn [app] in Heq. injection Heq as _ Heq. by destruct pre.
Qed.

Lemma children_before_ext h h' seg :
  (∀ x, children h' x = children h x) →
  children_before h seg → children_before h' seg.
Proof.
  intros Hch H pre e post Heq c Hc. rewrite Hch in Hc. by eapply H.
Qed.

Section PostOrder.
Context {σ : Type} (hp : σ → Heap) (walker : loc → σ → σ).
Hypothesis Hkeeps : keeps_nesting hp walker.

Lemma walkEntries_loop_spec fuel vs :
  (∀ deps, walk_spec hp
     (walkEntries (hp ∘ fst) fuel deps (logged walker))
     (walkEntries hp fuel deps walker)
     (obj_values (default [] deps))) →
  walk_spec hp
    (foldM (fun s value =>
              e ← heap_get ((hp ∘ fst) s) value;
              s ← walkEntries (hp ∘ fst) fuel (dependencies e) (logged walker) s;
              Ok (logged walker value s)) vs)
    (foldM (fun s value =>
              e ← heap_get (hp s) value;
              s ← walkEntries hp fuel (dependencies e) walker s;
              Ok (walker value s)) vs)
    vs.
Proof.
  intros IH. induction vs as [|v vs IHvs]; intros s log0 s' log1 Hrun.
  - cbn [foldM] in Hrun. injection Hrun as <- <-. exists [].
    rewrite app_nil_r. split_and!; try done. apply children_before_nil.
  - cbn [foldM] in Hrun. inv_bind Hrun. inv_bind Ha. inv_bind Ha.
    cbn [compose fst] in Ha0. apply heap_get_Ok in Ha0 as Hv.
    destruct a1 as [s1 log_1]. apply IH in Ha1 as (seg1 & -> & Hplain1 & Hin1 & Hord1 & Hlen1 & Hch1).
    injection Ha as <-. unfold logged in Hrun. cbn [fst snd] in Hrun.
    apply IHvs in Hrun as (seg2 & -> & Hplain2 & Hin2 & Hord2 & Hlen2 & Hch2).
    destruct (Hkeeps v s1) as [Hlenw Hchw].
    exists (seg1 ++ [v] ++ seg2). split_and!.
    + by rewrite <- !app_assoc.
    + cbn [foldM]. rewrite Ha0. cbn [mbind res_bind]. rewrite Hplain1.
      cbn [mbind res_bind]. done.
    + intros x Hx. apply elem_of_cons in Hx as [->|Hx].
      * rewrite !elem_of_app, list_elem_of_singleton. auto.
      * rewrite !elem_of_app. auto.
    + rewrite app_assoc. apply children_before_app.
      * apply children_before_snoc; [done|]. intros c Hc. apply Hin1.
        unfold children in Hc. by rewrite Hv in Hc.
      * eapply children_before_ext; [|exact Hord2].
        intros x. by rewrite Hchw, Hch1.
    + lia.
    + intros x. by rewrite Hch2, Hchw, Hch1.
Qed.

Lemma walkEntries_spec fuel deps :
  walk_spec hp (walkEntries (hp ∘ fst) fuel deps (logged walker))
            (walkEntries hp fuel deps walker)
            (obj_values (default [] deps)).
Proof.
  revert deps. induction fuel as [|fuel IH]; intros deps.
  - intros s log0 s' log1 Hrun. done.
  - destruct deps as [deps|]; cbn [walkEntries default].
    + by apply walkEntries_loop_spec.
    + intros s log0 s' log1 Hrun. injection Hrun as <- <-. exists [].
      rewrite app_nil_r. split_and!; try done. apply children_before_nil.
Qed.

End PostOrder.

(** ** The walk of the logical requires graph *)

Lemma ownerChain_det h cur chain1 chain2 :
  ownerChain h cur chain1 → ownerChain h cur chain2 → chain1 = chain2.
Proof.
  intros H1. revert chain2. induction H1 as [|l e ls Hl Hchain IH]; intros chain2 H2.
  - by inversion H2.
  - inversion H2 as [|l' e' ls' Hl' Hchain' Heq]; subst.
    rewrite Hl in Hl'. injection Hl' as <-. f_equal. by apply IH.
Qed.

Lemma resolvesTo_det h e depName t1 t2 :
  resolvesTo h e depName t1 → resolvesTo h e depName t2 → t1 = t2.
Proof.
  intros (ch1 & Hc1 & Hn1) (ch2 & Hc2 & Hn2).
  rewrite (ownerChain_det _ _ _ _ Hc1 Hc2) in Hn1. congruence.
Qed.

Lemma resolveLoop_Ok_nearest h cur chain parentName depName :
  ownerChain h cur chain →
  ∀ fuel r, resolveLoop fuel h cur parentName depName = Ok r →
            nearest h chain depName = Some r.
Proof.
  induction 1 as [|l e ls Hl Hchain IH]; intros fuel r Hr.
  - by destruct fuel.
  - destruct fuel as [|fuel]; [done|]. cbn [resolveLoop nearest] in *.
    unfold resolveDependencyEntryIfExists, heap_get, provides in *.
    rewrite Hl in *. cbn [mbind res_bind option_bind] in *.
    destruct (dependencies e) as [d|]; cbn [mbind option_bind] in *.
    + destruct (obj_get d depName); [congruence|]. by eapply IH.
    + by eapply IH.
Qed.

Lemma owners_wf_bounded h :
  owners_wf h →
  ∃ B, ∀ l, l < length h → ∃ chain, ownerChain h (Some l) chain ∧ length chain ≤ B.
Proof.
  intros Hwf.
  assert (∀ n, n ≤ length h →
          ∃ B, ∀ l, l < n → ∃ chain, ownerChain h (Some l) chain ∧ length chain ≤ B)
    as Hn.
  { induction n as [|n IH]; intros Hle.
    - exists 0. intros l Hl. lia.
    - destruct IH as [B HB]; [lia|]. destruct (Hwf n) as [chain Hchain]; [lia|].
      exists (B `max` length chain). intros l Hl.
      destruct (decide (l = n)) as [->|Hne].
      + exists chain. split; [done | lia].
      + destruct (HB l) as (chain' & ? & ?); [lia|]. exists chain'. split; [done | lia]. }
  by apply Hn.
Qed.

Lemma set_add_elem x y s : x ∈ set_add y s ↔ x = y ∨ x ∈ s.
Proof.
  unfold set_add. destruct (decide (y ∈ s)) as [Hy|Hy].
  - split; [auto | intros [->|?]; done].
  - rewrite elem_of_app, list_elem_of_singleton. tauto.
Qed.

Lemma set_add_NoDup y s : NoDup s → NoDup (set_add y s).
Proof.
  intros Hs. unfold set_add. destruct (decide (y ∈ s)) as [Hy|Hy]; [done|].
  apply NoDup_app. split; [done|]. split; [|apply NoDup_singleton].
  intros x Hx Hx'. apply list_elem_of_singleton in Hx'. by subst.
Qed.

Section WalkDepsFacts.
Variables (c : BuildContext) (h : Heap).
Hypothesis Hwf : owners_wf h.

Lemma resolve_Ok_resolvesTo fuel entry entryName k r :
  entry < length h →
  resolveDependencyEntry fuel c h entry entryName k = Ok r →
  resolvesTo h entry k r.
Proof.
  intros Hlt Hr. destruct (Hwf entry Hlt) as [chain Hchain].
  exists chain. split; [done|]. by eapply resolveLoop_Ok_nearest.
Qed.

Lemma walkDeps_loop_ok fuel entry entryName ks :
  entry < length h →
  (∀ en e acc walked acc' walked',
     NoDup (default [] walked) →
     walkDeps fuel c h en e set_add acc walked = Ok (acc', walked') →
     walk_ok h e acc (default [] walked) acc' walked') →
  ∀ acc walked acc' walked',
    NoDup walked →
    foldM (fun st packageName =>
             resolvedEntry ←
               resolveDependencyEntry fuel c h entry entryName packageName;
             walkDeps fuel c h packageName resolvedEntry set_add
                      (set_add resolvedEntry (fst st)) (Some (snd st)))
          ks (acc, walked) = Ok (acc', walked') →
    walk_loop_ok h entry ks acc walked acc' walked'.
Proof.
  intros Hlt IH. induction ks as [|k ks IHks]; intros acc walked acc' walked' Hnd Hrun.
  - cbn [foldM] in Hrun. injection Hrun as <- <-. split_and!.
    + done.
    + by exists [].
    + intros k t Hk. by apply elem_of_nil in Hk.
    + intros e He Hne. done.
    + intros x. split; [auto|]. intros [?|[(k & Hk & _)|(e & He & Hne & _)]].
      * done.
      * by apply elem_of_nil in Hk.
      * done.
    + done.
  - cbn [foldM] in Hrun. inv_bind Hrun. inv_bind Ha. cbn [fst snd] in Ha.
    destruct a as [acc1 w2].
    apply resolve_Ok_resolvesTo in Ha0 as Hres; [|done].
    apply IH in Ha as (Hnd2 & [new1 Hnew1] & Hin2 & Hcl2 & Hacc2 & Hndacc2); [|done].
    cbn [default] in *.
    apply IHks in Hrun as (Hnd' & [new2 Hnew2] & Hks' & Hcl' & Hacc' & Hndacc'); [|done].
    assert (∀ x, x ∈ w2 → x ∈ walked') as Hsub2.
    { intros x Hx. rewrite Hnew2, elem_of_app. auto. }
    assert (∀ x, x ∈ walked → x ∈ w2) as Hsub1.
    { intros x Hx. rewrite Hnew1, elem_of_app. auto. }
    split_and!.
    + done.
    + exists (new2 ++ new1). by rewrite Hnew2, Hnew1, app_assoc.
    + intros k' t Hk' Ht. apply elem_of_cons in Hk' as [->|Hk'].
      * rewrite (resolvesTo_det _ _ _ _ _ Ht Hres). auto.
      * by eapply Hks'.
    + intros e He Hne. destruct (decide (e ∈ w2)) as [He2|He2].
      * destruct (Hcl2 e He2 Hne) as (? & Hrtc & Hedges). split_and!; [done| |].
        -- exists k, a0. split_and!; [apply list_elem_of_here | done | done].
        -- intros t Ht. auto.
      * destruct (Hcl' e He He2) as (? & (k' & t & Hk' & Ht & Hrtc) & Hedges).
        split_and!; [done| |done].
        exists k', t. split_and!; [by apply list_elem_of_further | done | done].
    + intros x. rewrite Hacc', Hacc2, set_add_elem. split.
      * intros [[[->|Hx]|(e & He & Hne & Hedge)]|[(k' & Hk' & Ht)|(e & He & Hne & Hedge)]].
        -- right; left. exists k. split; [apply list_elem_of_here | done].
        -- by left.
        -- right; right. exists e. auto.
        -- right; left. exists k'. split; [by apply list_elem_of_further | done].
        -- right; right. exists e. split_and!; [done | | done]. intros ?. auto.
      * intros [Hx|[(k' & Hk' & Ht)|(e & He & Hne & Hedge)]].
        -- left; left; by right.
        -- apply elem_of_cons in Hk' as [->|Hk'].
           ++ left; left; left. by eapply resolvesTo_det.
           ++ right; left. by exists k'.
        -- destruct (decide (e ∈ w2)) as [He2|He2].
           ++ left; right. by exists e.
           ++ right; right. by exists e.
    + intros Hacc. apply Hndacc', Hndacc2. by apply set_add_NoDup.
Qed.

Lemma walkDeps_ok fuel :
  ∀ entryName entry acc walked acc' walked',
    NoDup (default [] walked) →
    walkDeps fuel c h entryName entry set_add acc walked = Ok (acc', walked') →
    walk_ok h entry acc (default [] walked) acc' walked'.
Proof.
  induction fuel as [|fuel IH]; intros entryName entry acc walked acc' walked' Hnd Hrun;
    [done|].
  cbn [walkDeps] in Hrun. set (w := default [] walked) in *.
  destruct (decide (entry ∈ w)) as [Hin|Hnin].
  { injection Hrun as <- <-. split_and!; try done.
    - by exists [].
    - intros x. split; [auto|]. intros [?|(e & He & Hne & _)]; done. }
  inv_bind Hrun. apply heap_get_Ok in Ha as Hentry.
  apply lookup_lt_Some in Hentry as Hlt.
  assert (NoDup (entry :: w)) as Hnd1 by by apply NoDup_cons.
  destruct (requires a) as [req|] eqn:Hreq.
  - apply walkDeps_loop_ok in Hrun
      as (Hnd' & [new Hnew] & Hks & Hcl & Hacc & Hndacc); [|done|done|done].
    assert (entry ∈ walked') as Hentry'.
    { rewrite Hnew, elem_of_app. right. apply list_elem_of_here. }
    assert (∀ t, requires_edge h entry t →
                 ∃ k, k ∈ obj_keys req ∧ resolvesTo h entry k t) as Hedge.
    { intros t (rec & k & Hrec & Hk & Ht). rewrite Hentry in Hrec.
      injection Hrec as <-. rewrite Hreq in Hk. by exists k. }
    assert (∀ k t, k ∈ obj_keys req → resolvesTo h entry k t →
                   requires_edge h entry t) as Hedge'.
    { intros k t Hk Ht. exists a, k. rewrite Hreq. done. }
    split_and!.
    + done.
    + exists (new ++ [entry]). by rewrite Hnew, <- app_assoc.
    + done.
    + intros e He Hne. destruct (decide (e = entry)) as [->|Hne'].
      * split_and!; [done | done |]. intros t Ht.
        destruct (Hedge t Ht) as (k & Hk & Hres). by eapply Hks.
      * destruct (Hcl e He) as (? & (k & t & Hk & Ht & Hrtc) & Hedges).
        { rewrite not_elem_of_cons. done. }
        split_and!; [done | | done].
        eapply rtc_l; [|exact Hrtc]. by eapply Hedge'.
    + intros x. rewrite Hacc. split.
      * intros [Hx|[(k & Hk & Ht)|(e & He & Hne & He')]].
        -- by left.
        -- right. exists entry. split_and!; [done | done |]. by eapply Hedge'.
        -- right. exists e. split_and!; [done | | done].
           intros ?. apply Hne. by apply list_elem_of_further.
      * intros [Hx|(e & He & Hne & He')]; [by left|].
        destruct (decide (e = entry)) as [->|Hne'].
        -- right; left. by apply Hedge.
        -- right; right. exists e. split_and!; [done | | done].
           rewrite not_elem_of_cons. done.
    + done.
  - injection Hrun as <- <-.
    assert (∀ t, ¬ requires_edge h entry t) as Hnone.
    { intros t (rec & k & Hrec & Hk & _). rewrite Hentry in Hrec.
      injection Hrec as <-. rewrite Hreq in Hk. by apply elem_of_nil in Hk. }
    split_and!.
    + done.
    + by exists [entry].
    + apply list_elem_of_here.
    + intros e He Hne. apply elem_of_cons in He as [->|?]; [|done].
      split_and!; [done | done |]. intros t Ht. by apply Hnone in Ht.
    + intros x. split; [auto|]. intros [?|(e & He & Hne & He')]; [done|].
      apply elem_of_cons in He as [->|?]; [|done]. by apply Hnone in He'.
    + done.
Qed.
End WalkDepsFacts.

(** The set a top-level call of [walkDeps] collects, started as
    [walkNonSubsetDeps] starts it. *)
Lemma walkDeps_reached c h fuel entryName entry acc0 reached walked :
  owners_wf h →
  walkDeps fuel c h entryName entry set_add (set_add entry acc0) None
  = Ok (reached, walked) →
  NoDup walked ∧ (NoDup acc0 → NoDup reached) ∧
  ∀ x, x ∈ reached ↔ x ∈ acc0 ∨ rtc (requires_edge h) entry x.
Proof.
  intros Hwf Hrun.
  apply walkDeps_ok in Hrun as (Hnd & _ & Hentry & Hcl & Hacc & Hndacc);
    [|done|apply NoDup_nil_2].
  cbn [default] in *.
  assert (∀ x, rtc (requires_edge h) entry x → x ∈ walked) as Hclosed.
  { intros x Hx.
    eapply (rtc_ind_r (λ y, y ∈ walked)); [exact Hentry | | exact Hx].
    intros y z _ Hyz Hy.
    destruct (Hcl y Hy) as (_ & _ & Hedges); [apply not_elem_of_nil|]. auto. }
  split_and!; [done | intros ?; by apply Hndacc, set_add_NoDup |].
  intros x. rewrite Hacc, set_add_elem. split.
  - intros [[->|Hx]|(e & He & Hne & Hedge)]; [by right | by left |].
    right. destruct (Hcl e He Hne) as (_ & Hrtc & _). by eapply rtc_r.
  - intros [Hx|Hx]; [auto|].
    destruct (rtc_inv_r _ _ Hx) as [->|(e & Hrtc & Hedge)]; [auto|].
    right. exists e. split_and!; [by apply Hclosed | apply not_elem_of_nil | done].
Qed.

Section WalkDepsTermination.
Variables (c : BuildContext) (h : Heap) (B : nat).
Hypothesis Hwf : owners_wf h.
Hypothesis HB :
  ∀ l, l < length h → ∃ chain, ownerChain h (Some l) chain ∧ length chain ≤ B.

Lemma resolve_fuel fuel entry entryName k :
  entry < length h → B ≤ fuel →
  resolveDependencyEntry fuel c h entry entryName k ≠ OutOfFuel.
Proof.
  intros Hlt Hfuel. destruct (HB entry Hlt) as (chain & Hchain & Hlen).
  unfold resolveDependencyEntry.
  rewrite (resolveLoop_nearest _ _ _ _ _ Hchain) by lia.
  by destruct (nearest h chain k).
Qed.

Lemma walked_length (walked : list loc) :
  NoDup walked → (∀ x, x ∈ walked → x < length h) → length walked ≤ length h.
Proof.
  intros Hnd Hlt.
  assert (length walked ≤ length (seq 0 (length h))) as Hle.
  { apply submseteq_length, NoDup_submseteq; [done|].
    intros x Hx. apply elem_of_seq. specialize (Hlt x Hx). lia. }
  by rewrite length_seq in Hle.
Qed.

Lemma walkDeps_fuel fuel :
  ∀ entryName entry acc walked,
    NoDup (default [] walked) →
    (∀ x, x ∈ default [] walked → x < length h) →
    B + (length h - length (default [] walked)) < fuel →
    walkDeps fuel c h entryName entry set_add acc walked ≠ OutOfFuel.
Proof.
  induction fuel as [|fuel IH]; intros entryName entry acc walked Hnd Hlt Hfuel; [lia|].
  cbn [walkDeps]. set (w := default [] walked) in *.
  destruct (decide (entry ∈ w)) as [Hin|Hnin]; [done|].
  destruct (heap_get h entry) as [a| |] eqn:Hget; cbn [mbind res_bind]; [|done|].
  2:{ unfold heap_get in Hget. by destruct (h !! entry). }
  apply heap_get_Ok, lookup_lt_Some in Hget as Hentry.
  destruct (requires a) as [req|]; [|done].
  assert (NoDup (entry :: w)) as Hnd1 by by apply NoDup_cons.
  assert (∀ x, x ∈ entry :: w → x < length h) as Hlt1.
  { intros x Hx. apply elem_of_cons in Hx as [->|?]; auto. }
  assert (B + (length h - length (entry :: w)) < fuel) as Hfuel1.
  { pose proof (walked_length _ Hnd1 Hlt1) as Hlen. cbn [length] in *.
    clearbody w. lia. }
  generalize (entry :: w) Hnd1 Hlt1 Hfuel1. generalize acc.
  clear Hnd Hlt Hfuel Hnin Hnd1 Hlt1 Hfuel1.
  induction (obj_keys req) as [|k ks IHks]; intros acc1 w1 Hnd1 Hlt1 Hfuel1; [done|].
  cbn [foldM fst snd].
  destruct (resolveDependencyEntry fuel c h entry entryName k) as [r|e|] eqn:Hres;
    cbn [mbind res_bind]; [|done|].
  2:{ exfalso. eapply resolve_fuel; [exact Hentry | | exact Hres]. lia. }
  destruct (walkDeps fuel c h k r set_add (set_add r acc1) (Some w1))
    as [[acc2 w2]|e|] eqn:Hwalk; cbn [mbind res_bind]; [|done|].
  2:{ exfalso. eapply IH; [| |  |exact Hwalk]; done. }
  apply walkDeps_ok in Hwalk as (Hnd2 & [new Hnew] & _ & Hcl & _); [|done|done].
  cbn [default] in *. apply IHks.
  - done.
  - intros x Hx. destruct (decide (x ∈ w1)) as [?|Hx1]; [auto|].
    by destruct (Hcl x Hx Hx1).
  - rewrite Hnew, length_app. unfold id. lia.
Qed.
End WalkDepsTermination.


(** ** The tree builder *)

Lemma length_heap_update l f (h : Heap) : length (heap_update l f h) = length h.
Proof.
  unfold heap_update. destruct (h !! l); [by rewrite length_insert | done].
Qed.

Lemma lookup_heap_update l f (h : Heap) l' :
  heap_update l f h !! l' = if decide (l = l') then f <$> h !! l' else h !! l'.
Proof.
  unfold heap_update. destruct (decide (l = l')) as [<-|Hne].
  - destruct (h !! l) as [e|] eqn:He.
    + rewrite list_lookup_insert_eq by by eapply lookup_lt_Some. done.
    + by rewrite He.
  - destruct (h !! l); [by rewrite list_lookup_insert_ne | done].
Qed.

Lemma moduleDirs_get_elem (m : list (Dir * loc)) dir l :
  moduleDirs_get m dir = Some l → (dir, l) ∈ m.
Proof.
  induction m as [|[d e] m IH]; cbn [moduleDirs_get]; [done|].
  destruct (decide (d = dir)) as [->|Hne].
  - intros [= ->]. apply list_elem_of_here.
  - intros H. apply list_elem_of_further. auto.
Qed.

Lemma moduleDirs_get_lt (m : list (Dir * loc)) n dir l :
  map snd m = reverse (seq 0 n) → moduleDirs_get m dir = Some l → l < n.
Proof.
  intros Hm Hl. apply moduleDirs_get_elem in Hl.
  assert (l ∈ map snd m) as Hin.
  { apply list_elem_of_fmap. by exists (dir, l). }
  rewrite Hm, elem_of_reverse, elem_of_seq in Hin. lia.
Qed.

Lemma entry_inv_mono n n' l e : n ≤ n' → entry_inv n l e → entry_inv n' l e.
Proof.
  intros Hle (? & ? & ? & d & ? & ? & Hd). split_and!; try done.
  exists d. split_and!; try done. intros c Hc. specialize (Hd c Hc). lia.
Qed.

Lemma chooseTarget_inv s resolvedDir :
  build_inv s →
  ∃ t, chooseTarget s resolvedDir = (t, s) ∧
       ∃ d, target_deps s t = Ok d ∧
            match t with TRoot => True | TEntry l => l < length (heap s) end.
Proof.
  intros (_ & _ & Hcreated & _ & _ & _ & Hentries & _). unfold chooseTarget.
  destruct (getModulesDir resolvedDir) as [modulesDir|].
  2:{ exists TRoot. split; [done|]. by exists (rootDeps (ctx s)). }
  unfold getDependencyTarget.
  destruct (moduleDirs_get _ _) as [target|] eqn:Hget.
  2:{ exists TRoot. split; [done|]. by exists (rootDeps (ctx s)). }
  eapply moduleDirs_get_lt in Hget as Hlt; [|done].
  destruct (lookup_lt_is_Some_2 _ _ Hlt) as [e He]. rewrite He.
  destruct (Hentries _ _ He) as (_ & _ & _ & d & Hd & _). rewrite Hd.
  exists (TEntry target). split; [done|]. exists d. split; [|done].
  cbn [target_deps]. unfold heap_get. rewrite He. cbn [mbind res_bind].
  by rewrite Hd.
Qed.

Lemma resolves_set_elem (r : list (loc * Obj loc)) entry depName depEntry e m :
  (e, m) ∈ resolves_set r entry depName depEntry →
  (e, m) ∈ r ∨ ∃ m0, (e, m0) ∈ r ∧ m = obj_set m0 depName depEntry.
Proof.
  induction r as [|[e0 m0] r IH]; cbn [resolves_set]; [auto|].
  destruct (decide (e0 = entry)) as [->|Hne]; rewrite !elem_of_cons.
  - intros [[= -> ->]|?]; [|auto]. right. exists m0. split; [|done].
    apply list_elem_of_here.
  - intros [[= -> ->]|Hin]; [auto|]. apply IH in Hin as [?|(m1 & ? & ?)]; [auto|].
    right. exists m1. rewrite elem_of_cons. auto.
Qed.

Lemma record_resolve_inv entry depName depEntry s :
  build_inv s → depEntry < length (heap s) →
  build_inv (record_resolve entry depName depEntry s).
Proof.
  intros (Hroot & Hvis & Hcreated & Hnd & Hkeys & Hvals & Hentries & Hres) Hlt.
  split_and!; try done. cbn. intros r m t Hin Ht.
  apply resolves_set_elem in Hin as [Hin|(m0 & Hin & ->)]; [by eapply Hres|].
  apply obj_values_set_subset in Ht as [->|?]; [done | by eapply Hres].
Qed.

Lemma target_write_inv t d0 depName depEntry s :
  build_inv s →
  target_deps s t = Ok d0 →
  match t with TRoot => True | TEntry l => l < depEntry end →
  depEntry < length (heap s) →
  build_inv (target_write t (obj_set d0 depName depEntry) s).
Proof.
  intros (Hroot & Hvis & Hcreated & Hnd & Hkeys & Hvals & Hentries & Hres) Hd0 Ht Hlt.
  destruct t as [|l]; cbn [target_write target_deps] in *.
  - injection Hd0 as <-. split_and!; try done; cbn.
    + by apply obj_set_NoDup.
    + intros c Hc. apply obj_values_set_subset in Hc as [->|?]; auto.
  - inv_bind Hd0. apply heap_get_Ok in Ha as Hl.
    destruct (dependencies a) as [d|] eqn:Hd; [|done]. injection Hd0 as ->.
    split_and!; try done; cbn [heap ctx set_heap].
    + by rewrite length_heap_update.
    + by rewrite length_heap_update.
    + intros l' e'. rewrite length_heap_update, lookup_heap_update.
      destruct (decide (l = l')) as [<-|Hne]; [|apply Hentries].
      rewrite Hl. cbn. intros [= <-].
      destruct (Hentries _ _ Hl) as (? & ? & ? & d' & Hd' & Hndd & Hcs).
      rewrite Hd in Hd'. injection Hd' as <-.
      split_and!; try done. eexists. split_and!; [done | |].
      * by apply obj_set_NoDup.
      * intros c Hc. apply obj_values_set_subset in Hc as [->|?]; [lia | auto].
    + intros r m t. rewrite length_heap_update. apply Hres.
Qed.

Section BuilderInv.
Variable W : World.

Lemma length_target_write t d s :
  length (heap (target_write t d s)) = length (heap s).
Proof. destruct t; cbn; [done | by rewrite length_heap_update]. Qed.

Lemma visited_target_write t d s :
  visited (ctx (target_write t d s)) = visited (ctx s).
Proof. by destruct t. Qed.

Lemma target_deps_lt s t d c :
  build_inv s → target_deps s t = Ok d → c ∈ obj_values d → c < length (heap s).
Proof.
  intros (_ & _ & _ & _ & _ & Hvals & Hentries & _) Hd Hc.
  destruct t as [|l]; cbn [target_deps] in Hd.
  - injection Hd as <-. auto.
  - inv_bind Hd. apply heap_get_Ok in Ha.
    destruct (Hentries _ _ Ha) as (_ & _ & _ & d' & Hd' & _ & Hcs).
    rewrite Hd' in Hd. injection Hd as <-. specialize (Hcs c Hc). lia.
Qed.

Lemma obj_get_values {V} (o : Obj V) k v : obj_get o k = Some v → v ∈ obj_values o.
Proof.
  intros H. apply obj_get_Some_elem in H. apply list_elem_of_fmap. by exists (k, v).
Qed.

Lemma buildDep_inv rec dir entry s depName s' :
  build_ok rec → build_inv s →
  buildDep W rec dir entry s depName = Ok s' →
  build_inv s' ∧ length (heap s) ≤ length (heap s') ∧
  (∀ x, x ∈ visited (ctx s) → x ∈ visited (ctx s')).
Proof.
  intros Hrec Hinv Hrun. unfold buildDep in Hrun. inv_bind Hrun.
  destruct (decide (a ∈ visited (ctx s))) as [Hin|Hnin].
  { injection Hrun as <-. done. }
  destruct (chooseTarget_inv s a Hinv) as (t & Ht & d & Hd & Hvalid).
  rewrite Ht in Hrun. cbn [fst snd] in Hrun. rewrite Hd in Hrun.
  cbn [mbind res_bind] in Hrun.
  destruct (obj_get d depName) as [depEntry|] eqn:Hget.
  { injection Hrun as <-. split_and!; [|done|done].
    apply record_resolve_inv; [done|].
    eapply target_deps_lt; [done | done |]. by eapply obj_get_values. }
  inv_bind Hrun. destruct a0 as [depEntry s2]. cbn [fst snd] in Hrun.
  destruct (Hrec _ _ _ _ _ Hinv Hnin Ha0) as (Hinv2 & -> & Hlt & Hmono).
  inv_bind Hrun. injection Hrun as <-. split_and!.
  - apply record_resolve_inv; [|by rewrite length_target_write].
    eapply target_write_inv; done.
  - cbn [record_resolve set_ctx heap]. rewrite length_target_write. lia.
  - intros x Hx. cbn [record_resolve set_ctx ctx set_resolves visited].
    rewrite visited_target_write. auto.
Qed.

Lemma buildDeps_inv rec dir entry ks s s' :
  build_ok rec → build_inv s →
  foldM (buildDep W rec dir entry) ks s = Ok s' →
  build_inv s' ∧ length (heap s) ≤ length (heap s') ∧
  (∀ x, x ∈ visited (ctx s) → x ∈ visited (ctx s')).
Proof.
  intros Hrec. revert s. induction ks as [|k ks IH]; intros s Hinv Hrun.
  - injection Hrun as <-. done.
  - cbn [foldM] in Hrun. inv_bind Hrun.
    apply buildDep_inv in Ha as (Hinv1 & Hlen1 & Hmono1); [|done|done].
    apply IH in Hrun as (Hinv' & Hlen' & Hmono'); [|done].
    split_and!; [done | lia | auto].
Qed.

Lemma register_inv s dir m (req : Obj string) :
  build_inv s → dir ∉ visited (ctx s) →
  build_inv {| heap := heap s ++ [newEntry m req];
               ctx := register dir (length (heap s)) (ctx s) |}.
Proof.
  intros (Hroot & Hvis & Hcreated & Hnd & Hkeys & Hvals & Hentries & Hres) Hnin.
  split_and!;
    cbn [heap ctx register root visited moduleDirs rootDeps resolves map fst snd].
  - done.
  - by rewrite Hvis.
  - rewrite Hcreated, length_app. cbn [length].
    replace (length (heap s) + 1) with (S (length (heap s))) by lia.
    rewrite seq_S, reverse_snoc. done.
  - by apply NoDup_cons.
  - done.
  - intros c Hc. rewrite length_app. specialize (Hvals c Hc). lia.
  - intros l e Hl. rewrite length_app. cbn [length].
    apply lookup_app_Some in Hl as [Hl|[Hge Hl]].
    + eapply entry_inv_mono; [|by apply Hentries]. lia.
    + destruct (l - length (heap s)) as [|?] eqn:Hd; [|done].
      injection Hl as <-. split_and!; try done.
      exists []. split_and!; [done | apply NoDup_nil_2 |].
      intros c Hc. by apply elem_of_nil in Hc.
  - intros r m' t Hin Ht. rewrite length_app.
    apply elem_of_cons in Hin as [[= -> ->]|Hin].
    + by apply elem_of_nil in Ht.
    + specialize (Hres r m' t Hin Ht). lia.
Qed.

Lemma buildLockfileEntry_ok fuel : build_ok (buildLockfileEntry W fuel).
Proof.
  induction fuel as [|fuel IH]; intros s dir includeDev e s' Hinv Hnin Hrun; [done|].
  cbn [buildLockfileEntry] in Hrun. inv_bind Hrun. inv_bind Hrun. inv_bind Hrun.
  injection Hrun as <- <-.
  apply buildDeps_inv in Ha1 as (Hinv' & Hlen & Hmono);
    [|done|by apply register_inv].
  cbn [heap ctx register visited] in Hlen, Hmono. rewrite length_app in Hlen.
  cbn [length] in Hlen. split_and!; [done | done | lia |].
  intros x Hx. by apply Hmono, list_elem_of_further.
Qed.

Lemma initialState_inv dir packagesDir : build_inv (initialState dir packagesDir).
Proof.
  split_and!; cbn; try done; try apply NoDup_nil_2.
  - intros c Hc. by apply elem_of_nil in Hc.
  - intros r m t Hin. by apply elem_of_nil in Hin.
Qed.

(** Every run of the builder from the initial context ends in a state that
    satisfies the invariant, with the root entry at the start of the heap. *)
Lemma build_run_inv fuel dir packagesDir includeDev e s :
  buildLockfileEntry W fuel (initialState dir packagesDir) dir includeDev = Ok (e, s) →
  build_inv s ∧ e = 0 ∧ 0 < length (heap s).
Proof.
  intros Hrun. apply buildLockfileEntry_ok in Hrun as (? & -> & ? & _).
  - done.
  - apply initialState_inv.
  - apply not_elem_of_nil.
Qed.
End BuilderInv.

(** ** Merging the root entry's dependencies *)

Lemma obj_get_assign {V} (acc src : Obj V) k :
  NoDup (obj_keys src) →
  obj_get (obj_assign acc src) k
  = match obj_get src k with Some v => Some v | None => obj_get acc k end.
Proof.
  revert acc. induction src as [|[k0 v0] src IH]; intros acc Hnd; [done|].
  cbn [obj_keys map fst] in Hnd. apply NoDup_cons in Hnd as [Hk0 Hnd].
  unfold obj_assign. cbn [fold_left fst snd]. fold (obj_assign (obj_set acc k0 v0) src).
  rewrite IH by done. rewrite obj_get_set. cbn [obj_get].
  destruct (decide (k0 = k)) as [->|Hne]; [|done].
  apply obj_get_None in Hk0. by rewrite Hk0.
Qed.

Lemma obj_values_assign {V} (acc src : Obj V) x :
  x ∈ obj_values (obj_assign acc src) → x ∈ obj_values acc ∨ x ∈ obj_values src.
Proof.
  revert acc. induction src as [|[k0 v0] src IH]; intros acc Hx; [by left|].
  unfold obj_assign in Hx. cbn [fold_left fst snd] in Hx.
  fold (obj_assign (obj_set acc k0 v0) src) in Hx.
  apply IH in Hx as [Hx|Hx].
  - apply obj_values_set_subset in Hx as [->|?]; [|by left].
    right. apply list_elem_of_here.
  - right. by apply list_elem_of_further.
Qed.

Lemma NoDup_fst_functional {K V} (l : list (K * V)) k v1 v2 :
  NoDup (map fst l) → (k, v1) ∈ l → (k, v2) ∈ l → v1 = v2.
Proof.
  induction l as [|[k0 v0] l IH]; intros Hnd H1 H2.
  - by apply elem_of_nil in H1.
  - cbn [map fst] in Hnd. apply NoDup_cons in Hnd as [Hk0 Hnd].
    assert (∀ v, (k0, v) ∈ l → False) as Hk0'.
    { intros v Hv. apply Hk0. apply list_elem_of_fmap. by exists (k0, v). }
    apply elem_of_cons in H1 as [H1|H1]; apply elem_of_cons in H2 as [H2|H2];
      simplify_eq.
    + done.
    + exfalso. by eapply Hk0'.
    + exfalso. by eapply Hk0'.
    + by apply IH.
Qed.

(** C8.  When the root entry's own nested dependencies are merged with the
    top-level [rootDeps] of the run, a name both maps bind resolves, in the
    merged map, to the entry the top-level [rootDeps] held for it; a name only
    the root entry binds resolves to the root entry's child. *)
Theorem mergeRootDeps_precedence (W : World) (fuel : nat) (dir packagesDir : Dir)
    (entry : loc) (s : St) :
  buildLockfileEntry W fuel (initialState dir packagesDir) dir true = Ok (entry, s) →
  ∃ s' rootEntry,
    mergeRootDeps entry s = Ok s' ∧ heap s !! entry = Some rootEntry ∧
    ∀ depName,
      obj_get (rootDeps (ctx s')) depName
      = match obj_get (rootDeps (ctx s)) depName with
        | Some top => Some top
        | None => obj_get (default [] (dependencies rootEntry)) depName
        end.
Proof.
  intros Hrun. apply build_run_inv in Hrun as (Hinv & -> & Hlen).
  destruct (lookup_lt_is_Some_2 _ _ Hlen) as [rootEntry Hroot].
  destruct Hinv as (_ & _ & _ & _ & Hkeys & _ & Hentries & _).
  destruct (Hentries _ _ Hroot) as (_ & _ & _ & d & Hd & Hndd & _).
  eexists _, rootEntry. unfold mergeRootDeps, heap_get. rewrite Hroot.
  cbn [mbind res_bind]. split_and!; [done | done |].
  intros depName. cbn [set_ctx ctx set_rootDeps rootDeps].
  rewrite obj_get_assign by done. rewrite Hd. cbn [spread default].
  rewrite obj_get_assign by done. cbn [obj_get]. unfold id.
  destruct (obj_get (rootDeps (ctx s)) depName); [done|].
  by destruct (obj_get d depName).
Qed.

(** ** One entry for a directory *)


(** ** The cleanup pass *)

Lemma stripEmpty_no_empty_map e : no_empty_map (stripEmpty e).
Proof.
  unfold stripEmpty, no_empty_map.
  destruct e as [v i r req deps dv op ow]. cbn.
  destruct deps as [[|? ?]|]; destruct req as [[|? ?]|]; cbn; done.
Qed.

Lemma stripEmpty_idemp e : stripEmpty (stripEmpty e) = stripEmpty e.
Proof.
  destruct e as [v i r req deps dv op ow]. unfold stripEmpty. cbn.
  destruct deps as [[|? ?]|]; destruct req as [[|? ?]|]; cbn; done.
Qed.

Lemma stripEmpty_values e :
  obj_values (default [] (dependencies (stripEmpty e)))
  = obj_values (default [] (dependencies e)).
Proof.
  destruct e as [v i r req deps dv op ow]. unfold stripEmpty. cbn.
  destruct deps as [[|? ?]|]; destruct req as [[|? ?]|]; cbn; done.
Qed.

Lemma keeps_children_stripEmpty : keeps_children (λ _, stripEmpty).
Proof. intros l e. split; [apply stripEmpty_values | apply stripEmpty_idemp]. Qed.

Lemma in_tree_cons h v vs l :
  in_tree h (v :: vs) l → l = v ∨ in_tree h (children h v) l ∨ in_tree h vs l.
Proof.
  induction 1 as [l Hl|p l _ IH Hl].
  - apply elem_of_cons in Hl as [->|Hl]; [by left|]. right; right. by apply in_tree_top.
  - destruct IH as [->|[IH|IH]].
    + right; left. by apply in_tree_top.
    + right; left. by eapply in_tree_child.
    + right; right. by eapply in_tree_child.
Qed.

Lemma in_tree_nil h l : ¬ in_tree h [] l.
Proof. induction 1 as [l Hl|]; [by apply elem_of_nil in Hl | done]. Qed.

Section RewritingWalk.
Variables (g : loc → Entry → Entry) (walker : loc → Heap → Heap).
Hypothesis Hg : keeps_children g.
Hypothesis Hwalker : ∀ l h, walker l h = heap_update l (g l) h.

Lemma rewritten_refl h : rewritten g h h.
Proof. split; [done | by left]. Qed.

Lemma rewritten_trans h1 h2 h3 :
  rewritten g h1 h2 → rewritten g h2 h3 → rewritten g h1 h3.
Proof.
  intros [Hl12 H12] [Hl23 H23]. split; [congruence|]. intros l.
  destruct (H12 l) as [E12|E12], (H23 l) as [E23|E23]; rewrite E23, E12; auto.
  right. destruct (h1 !! l); cbn; [|done]. by rewrite (proj2 (Hg l e)).
Qed.

Lemma rewritten_update h l : rewritten g h (heap_update l (g l) h).
Proof.
  split; [apply length_heap_update|]. intros l'. rewrite lookup_heap_update.
  destruct (decide (l = l')) as [->|?]; auto.
Qed.

Lemma rewritten_children h h' l : rewritten g h h' → children h' l = children h l.
Proof.
  intros [_ H]. unfold children. destruct (H l) as [->| ->]; [done|].
  destruct (h !! l); cbn; [apply Hg | done].
Qed.

Lemma rewritten_ordered h h' : rewritten g h h' → ordered h → ordered h'.
Proof.
  intros Hs Ho l c Hc. rewrite (rewritten_children _ _ _ Hs) in Hc.
  destruct Hs as [-> _]. auto.
Qed.

Lemma rewritten_in_tree h h' tops l :
  rewritten g h h' → in_tree h tops l ↔ in_tree h' tops l.
Proof.
  intros Hs. split.
  - induction 1 as [l Hl|p l _ IH Hl].
    + by apply in_tree_top.
    + eapply in_tree_child; [exact IH|]. by rewrite (rewritten_children _ _ _ Hs).
  - induction 1 as [l Hl|p l _ IH Hl].
    + by apply in_tree_top.
    + eapply in_tree_child; [exact IH|]. by rewrite <- (rewritten_children _ _ _ Hs).
Qed.

(** Once rewritten, an entry stays so. *)
Lemma rewritten_done (h0 h h' : Heap) l :
  rewritten g h h' → h !! l = g l <$> h0 !! l → h' !! l = g l <$> h0 !! l.
Proof.
  intros [_ H] Hl. destruct (H l) as [E|E]; rewrite E, Hl; [done|].
  destruct (h0 !! l); cbn; [|done]. by rewrite (proj2 (Hg l e)).
Qed.

Lemma rewriting_loop n vs :
  (∀ (deps : option EntryDeps) (h : Heap),
     0 < n → ordered h →
     (∀ c, c ∈ obj_values (default [] deps) → c < length h ∧ length h - c < n) →
     rewrite_spec g (walkEntries id n deps walker)
       (obj_values (default [] deps)) h) →
  ∀ h : Heap,
    ordered h →
    (∀ c, c ∈ vs → c < length h ∧ length h - c ≤ n) →
    rewrite_spec g
      (foldM (fun s value =>
                e ← heap_get (id s) value;
                s ← walkEntries id n (dependencies e) walker s;
                Ok (walker value s)) vs)
      vs h.
Proof.
  intros IH. induction vs as [|v vs IHvs]; intros h Hord Hbound.
  { exists h. split_and!; [done | apply rewritten_refl |].
    intros l Hl. by apply in_tree_nil in Hl. }
  destruct (Hbound v) as [Hv Hfuel]; [apply list_elem_of_here|].
  destruct (lookup_lt_is_Some_2 _ _ Hv) as [e He].
  destruct (IH (dependencies e) h) as (h1 & Hrun1 & Hs1 & Hdone1); [lia | done | |].
  { intros c Hc. destruct (Hord v c) as [? ?]; [|lia].
    unfold children. by rewrite He. }
  set (h2 := heap_update v (g v) h1).
  assert (rewritten g h1 h2) as Hs12 by apply rewritten_update.
  assert (rewritten g h h2) as Hs2 by by eapply rewritten_trans.
  destruct (IHvs h2) as (h' & Hrun' & Hs' & Hdone').
  { by eapply rewritten_ordered. }
  { intros c Hc. destruct Hs2 as [-> _]. apply Hbound. by apply list_elem_of_further. }
  exists h'. split_and!.
  - cbn [foldM]. change (id h) with h. unfold heap_get. rewrite He.
    cbn [mbind res_bind]. rewrite Hrun1. cbn [mbind res_bind].
    rewrite Hwalker. exact Hrun'.
  - by eapply rewritten_trans.
  - intros l Hl. apply in_tree_cons in Hl as [->|[Hl|Hl]].
    + eapply rewritten_done; [exact Hs'|]. unfold h2.
      rewrite lookup_heap_update. destruct (decide (v = v)) as [_|?]; [|done].
      destruct Hs1 as [_ Hs1]. destruct (Hs1 v) as [-> | ->]; [done|].
      rewrite He. cbn. by rewrite (proj2 (Hg v e)).
    + eapply rewritten_done; [exact Hs'|].
      eapply rewritten_done; [exact Hs12|]. apply Hdone1.
      unfold children in Hl. by rewrite He in Hl.
    + rewrite (Hdone' l) by by apply (rewritten_in_tree h h2).
      destruct Hs2 as [_ Hs2]. destruct (Hs2 l) as [-> | ->]; [done|].
      destruct (h !! l) as [el|]; cbn; [|done]. by rewrite (proj2 (Hg l el)).
Qed.

Lemma rewriting_walk n :
  ∀ (deps : option EntryDeps) (h : Heap),
    0 < n → ordered h →
    (∀ c, c ∈ obj_values (default [] deps) → c < length h ∧ length h - c < n) →
    rewrite_spec g (walkEntries id n deps walker)
      (obj_values (default [] deps)) h.
Proof.
  induction n as [|n IH]; intros deps h Hpos Hord Hbound; [lia|].
  destruct deps as [deps|]; cbn [walkEntries default].
  - destruct n as [|n].
    + destruct deps as [|[k v] deps].
      * exists h. split_and!; [done | apply rewritten_refl |].
        intros l Hl. by apply in_tree_nil in Hl.
      * destruct (Hbound v) as [? ?]; [apply list_elem_of_here | lia].
    + apply rewriting_loop; [|done|].
      * intros deps' h' _. by apply IH; lia.
      * intros c Hc. specialize (Hbound c Hc). cbn [default] in Hbound. lia.
  - exists h. split_and!; [done | apply rewritten_refl |].
    intros l Hl. by apply in_tree_nil in Hl.
Qed.
End RewritingWalk.

Lemma build_inv_ordered s : build_inv s → ordered (heap s).
Proof.
  intros (_ & _ & _ & _ & _ & _ & Hentries & _) l c Hc. unfold children in Hc.
  destruct (heap s !! l) as [e|] eqn:He; [|by apply elem_of_nil in Hc].
  destruct (Hentries _ _ He) as (_ & _ & _ & d & Hd & _ & Hcs).
  rewrite Hd in Hc. auto.
Qed.

(** C7.  After the cleanup pass over the merged top-level map of any run,
    which terminates (with fuel from some bound on it returns a state), no
    entry of the tree, at any depth, has a [requires] map or a
    [dependencies] map that is present and empty. *)
Theorem cleanup_no_empty_maps (W : World) (fuel : nat) (dir packagesDir : Dir)
    (entry : loc) (s s1 : St) :
  buildLockfileEntry W fuel (initialState dir packagesDir) dir true = Ok (entry, s) →
  mergeRootDeps entry s = Ok s1 →
  ∃ N, ∀ fuel', N ≤ fuel' →
    ∃ s2, cleanup fuel' s1 = Ok s2 ∧
          ∀ l e, in_tree (heap s2) (obj_values (rootDeps (ctx s2))) l →
                 heap s2 !! l = Some e →
                 requires e ≠ Some [] ∧ dependencies e ≠ Some [].
Proof.
  intros Hrun Hmerge. apply build_run_inv in Hrun as (Hinv & -> & Hlen).
  pose proof (build_inv_ordered _ Hinv) as Hord.
  unfold mergeRootDeps in Hmerge. inv_bind Hmerge. apply heap_get_Ok in Ha.
  injection Hmerge as <-.
  destruct Hinv as (_ & _ & _ & _ & _ & Hvals & Hentries & _).
  destruct (Hentries _ _ Ha) as (_ & _ & _ & d & Hd & _ & Hcs).
  exists (length (heap s) + 1). intros fuel' Hfuel'.
  destruct (rewriting_walk (λ _, stripEmpty)
              (fun dep h => heap_update dep stripEmpty h)
              keeps_children_stripEmpty (λ _ _, eq_refl) fuel'
              (Some (obj_assign (spread [] (dependencies a)) (rootDeps (ctx s))))
              (heap s)) as (h' & Hwalk & Hs & Hdone); [lia | done | |].
  { intros c Hc. cbn [default] in Hc. unfold id in Hc.
    apply obj_values_assign in Hc as [Hc|Hc].
    - rewrite Hd in Hc. cbn [spread] in Hc.
      apply obj_values_assign in Hc as [Hc|Hc]; [by apply elem_of_nil in Hc|].
      specialize (Hcs c Hc). lia.
    - specialize (Hvals c Hc). lia. }
  eexists. unfold cleanup. cbn [set_ctx ctx heap set_rootDeps rootDeps].
  rewrite Hwalk. cbn [mbind res_bind]. split; [done|].
  cbn [set_heap set_ctx heap ctx set_rootDeps rootDeps]. intros l e Hl He.
  rewrite (Hdone l) in He.
  2:{ eapply (rewritten_in_tree (λ _, stripEmpty)); [apply keeps_children_stripEmpty | exact Hs | exact Hl]. }
  destruct (heap s !! l); cbn in He; [|done]. injection He as <-.
  apply stripEmpty_no_empty_map.
Qed.

(** ** A dependency whose name the target map already binds *)

Lemma chooseTarget_ctx s resolvedDir :
  ctx (snd (chooseTarget s resolvedDir)) = ctx s ∧
  length (heap (snd (chooseTarget s resolvedDir))) = length (heap s).
Proof.
  unfold chooseTarget. destruct (getModulesDir resolvedDir); [|done].
  unfold getDependencyTarget. destruct (moduleDirs_get _ _); [|done].
  destruct (heap s !! n) eqn:He; [|done].
  destruct (dependencies e); [done|]. cbn. by rewrite length_insert.
Qed.

(** C10 (as amended).  When the resolved directory of a required
    dependency is not yet visited and its name is bound, in the target map
    chosen for it, to [depEntry], the iteration of the builder's loop does
    not recurse (its result does not depend on the recursive call [rec]); it
    creates no entry and leaves [visited], [moduleDirs] and the target map as
    they are, and it records the logical edge to [depEntry]. *)
Theorem buildDep_bound_name (W : World) (rec : St → Dir → bool → Res (loc * St))
    (dir : Dir) (entry : loc) (s : St) (depName : string) (resolvedDir : Dir)
    (d : EntryDeps) (depEntry : loc) :
  locate W dir depName = Found resolvedDir →
  resolvedDir ∉ visited (ctx s) →
  target_deps (snd (chooseTarget s resolvedDir)) (fst (chooseTarget s resolvedDir)) = Ok d →
  obj_get d depName = Some depEntry →
  ∃ s', buildDep W rec dir entry s depName = Ok s' ∧
        length (heap s') = length (heap s) ∧
        visited (ctx s') = visited (ctx s) ∧
        moduleDirs (ctx s') = moduleDirs (ctx s) ∧
        target_deps s' (fst (chooseTarget s resolvedDir)) = Ok d ∧
        resolves (ctx s') = resolves_set (resolves (ctx s)) entry depName depEntry.
Proof.
  intros Hloc Hnin Hd Hget.
  destruct (chooseTarget_ctx s resolvedDir) as [Hctx Hlen].
  eexists. unfold buildDep, resolvePackageLocation. rewrite Hloc.
  cbn [mbind res_bind]. destruct (decide (resolvedDir ∈ visited (ctx s))); [done|].
  rewrite Hd. cbn [mbind res_bind]. rewrite Hget.
  split_and!; [done | done | | | | ]; cbn; try by rewrite Hctx.
  destruct (fst (chooseTarget s resolvedDir)); [|done].
  cbn in *. by rewrite Hctx in *.
Qed.

(** C10 (as stated) fails twice.  In [world_overwrite] the name [x] is free
    in [rootDeps] when the root's iteration tests it, the recursive call
    binds it (to entry 3), and the iteration then overwrites that binding
    (with entry 1).  In [world_later] the root's iteration for [x] finds its
    directory unvisited and the name bound, links to the bound entry and
    creates nothing, and a later iteration of the same run creates the entry
    of that directory all the same. *)
Lemma bound_name_counterexample :
  (let rec := buildLockfileEntry world_overwrite 9 in
   let dir := pkgDir "a" in
   let s0 := {| heap := [newEntry (pkg "a" [("x", "^2")] [] []) [("x", "^2")]];
                ctx := register dir 0 (ctx (initialState dir [])) |} in
   ∃ sm s1,
     locate world_overwrite dir "x" = Found (pkgDir "x") ∧
     chooseTarget s0 (pkgDir "x") = (TRoot, s0) ∧
     obj_get (rootDeps (ctx s0)) "x" = None ∧
     rec s0 (pkgDir "x") false = Ok (1, sm) ∧
     obj_get (rootDeps (ctx sm)) "x" = Some 3 ∧
     buildDep world_overwrite rec dir 0 s0 "x" = Ok s1 ∧
     obj_get (rootDeps (ctx s1)) "x" = Some 1 ∧
     buildLockfileEntry world_overwrite 10 (initialState dir []) dir true = Ok (0, s1)) ∧
  (let rec := buildLockfileEntry world_later 9 in
   let step := buildDep world_later rec rootDir 0 in
   let req := [("w", "^1"); ("x", "^1"); ("c", "^1")] in
   let s0 := {| heap := [newEntry (pkg "root" req [] []) req];
                ctx := register rootDir 0 (ctx (initialState rootDir [])) |} in
   let dx := modulesOf (modulesOf rootDir "c") "x" in
   ∃ s1 s2 s3,
     step s0 "w" = Ok s1 ∧
     locate world_later rootDir "x" = Found dx ∧
     (dx ∉ visited (ctx s1)) ∧
     chooseTarget s1 dx = (TRoot, s1) ∧
     obj_get (rootDeps (ctx s1)) "x" = Some 2 ∧
     step s1 "x" = Ok s2 ∧
     step s2 "c" = Ok s3 ∧
     buildLockfileEntry world_later 10 (initialState rootDir []) rootDir true = Ok (0, s3) ∧
     dx ∈ visited (ctx s3) ∧
     moduleDirs_get (moduleDirs (ctx s3)) dx = Some 4).
Proof.
  split.
  - cbv zeta. eexists _, _. split_and!.
    + reflexivity.
    + reflexivity.
    + reflexivity.
    + vm_compute. reflexivity.
    + reflexivity.
    + vm_compute. reflexivity.
    + reflexivity.
    + vm_compute. reflexivity.
  - cbv zeta. eexists _, _, _. split_and!.
    + vm_compute. reflexivity.
    + reflexivity.
    + refine (bool_decide_unpack _ _). vm_compute. exact I.
    + reflexivity.
    + reflexivity.
    + vm_compute. reflexivity.
    + vm_compute. reflexivity.
    + vm_compute. reflexivity.
    + refine (bool_decide_unpack _ _). vm_compute. exact I.
    + reflexivity.
Qed.


(** ** The classification pass on a tree that has its root and owners *)

Lemma heap_update_id l (h : Heap) : heap_update l (λ e, e) h = h.
Proof.
  unfold heap_update. destruct (h !! l) eqn:He; [|done]. by apply list_insert_id.
Qed.

Section Classification.
Variables (c : BuildContext) (h : Heap) (r : loc) (rootEntry : Entry)
  (rdeps : EntryDeps) (mark : Entry → Entry).
Hypothesis Hroot : root c = Some r.
Hypothesis Hr : h !! r = Some rootEntry.
Hypothesis Hrdeps : dependencies rootEntry = Some rdeps.
Hypothesis Hwf : owners_wf h.
Hypothesis Hord : ordered h.
Hypothesis Htops : ∀ x, x ∈ obj_values rdeps → x < length h.
Hypothesis Hmark : keeps_children (λ _, mark).

Lemma subset_loop_reached fuel subset acc0 reached :
  foldM (fun subsetDeps packageName =>
           match obj_get rdeps packageName with
           | None => Ok subsetDeps
           | Some entry =>
               r ← walkDeps fuel c h packageName entry set_add
                     (set_add entry subsetDeps) None;
               Ok (fst r)
           end) subset acc0 = Ok reached →
  ∀ x, x ∈ reached ↔ x ∈ acc0 ∨ reachable_from h rdeps subset x.
Proof.
  revert acc0. induction subset as [|k ks IH]; intros acc0 Hrun x.
  - injection Hrun as <-. split; [auto|]. intros [?|(k & e & Hk & _)]; [done|].
    by apply elem_of_nil in Hk.
  - cbn [foldM] in Hrun. inv_bind_as Hrun acc1 Hk.
    rewrite (IH _ Hrun). destruct (obj_get rdeps k) as [entry|] eqn:Hget.
    + inv_bind_as Hk res Hwalk. injection Hk as <-. destruct res as [acc1 walked].
      apply walkDeps_reached in Hwalk as (_ & _ & Hreached); [|done].
      cbn [fst]. rewrite Hreached. split.
      * intros [[?|Hx]|(k' & e & Hk' & He & Hx)]; [by left | |].
        -- right. exists k, entry. split_and!; [apply list_elem_of_here | done | done].
        -- right. exists k', e. split_and!; [by apply list_elem_of_further | done | done].
      * intros [?|(k' & e & Hk' & He & Hx)]; [by left; left|].
        apply elem_of_cons in Hk' as [->|Hk'].
        -- rewrite Hget in He. injection He as <-. left; by right.
        -- right. by exists k', e.
    + injection Hk as <-. split.
      * intros [?|(k' & e & Hk' & He & Hx)]; [by left|].
        right. exists k', e. split_and!; [by apply list_elem_of_further | done | done].
      * intros [?|(k' & e & Hk' & He & Hx)]; [by left|].
        apply elem_of_cons in Hk' as [->|Hk']; [congruence|].
        right. by exists k', e.
Qed.

Lemma subset_loop_fuel B fuel subset acc0 :
  (∀ l, l < length h → ∃ chain, ownerChain h (Some l) chain ∧ length chain ≤ B) →
  B + length h < fuel →
  foldM (fun subsetDeps packageName =>
           match obj_get rdeps packageName with
           | None => Ok subsetDeps
           | Some entry =>
               r ← walkDeps fuel c h packageName entry set_add
                     (set_add entry subsetDeps) None;
               Ok (fst r)
           end) subset acc0 ≠ OutOfFuel.
Proof.
  intros HB Hfuel. revert acc0. induction subset as [|k ks IH]; intros acc0; [done|].
  cbn [foldM]. destruct (obj_get rdeps k) as [entry|]; cbn [mbind res_bind]; [|apply IH].
  destruct (walkDeps fuel c h k entry set_add (set_add entry acc0) None)
    as [res|e|] eqn:Hwalk; cbn [mbind res_bind]; [apply IH | done |].
  exfalso. eapply (walkDeps_fuel c h B Hwf HB); [| | |exact Hwalk]; cbn [default length].
  - apply NoDup_nil_2.
  - intros x Hx. by apply elem_of_nil in Hx.
  - lia.
Qed.

(** On a tree that has its root and its owners, [walkNonSubsetDeps]
    terminates and rewrites, with the visitor's [mark], exactly the entries of
    the tree that are not logically reachable from the names of [subset]. *)
Lemma walkNonSubsetDeps_classifies subset :
  ∃ N, ∀ fuel, N ≤ fuel →
    walkNonSubsetDeps fuel c h subset (fun e h => heap_update e mark h) ≠ OutOfFuel ∧
    ∀ h', walkNonSubsetDeps fuel c h subset (fun e h => heap_update e mark h) = Ok h' →
          length h' = length h ∧
          ∀ l, in_tree h (obj_values rdeps) l →
               (reachable_from h rdeps subset l → h' !! l = h !! l) ∧
               (¬ reachable_from h rdeps subset l → h' !! l = mark <$> h !! l).
Proof.
  destruct (owners_wf_bounded h Hwf) as [B HB].
  exists (B + length h + 1). intros fuel Hfuel.
  unfold walkNonSubsetDeps, heap_get. rewrite Hroot, Hr. cbn [mbind res_bind].
  rewrite Hrdeps.
  destruct (foldM _ subset []) as [reached| |] eqn:Hloop; cbn [mbind res_bind].
  2:{ done. }
  2:{ exfalso. eapply (subset_loop_fuel B fuel); [done | | exact Hloop]. lia. }
  pose proof (subset_loop_reached _ _ _ _ Hloop) as Hreached.
  set (g := λ l e, if decide (l ∈ reached) then e else mark e).
  assert (keeps_children g) as Hg.
  { intros l e. unfold g. destruct (decide (l ∈ reached)); [done | exact (Hmark l e)]. }
  destruct (rewriting_walk g
              (fun e h => if decide (e ∈ reached) then h else heap_update e mark h)
              Hg) with (n := fuel) (deps := Some rdeps) (h := h)
    as (h' & Hwalk & [Hlen _] & Hdone).
  { intros l h0. unfold g. destruct (decide (l ∈ reached)); [|done].
    by rewrite heap_update_id. }
  { lia. }
  { done. }
  { intros x Hx. specialize (Htops x Hx). lia. }
  rewrite Hwalk. split; [done|]. intros h'' [= <-]. split; [done|].
  intros l Hl. rewrite (Hdone l Hl). unfold g.
  assert (l ∈ reached ↔ reachable_from h rdeps subset l) as Hiff.
  { rewrite Hreached. split; [|auto]. intros [Hx|?]; [by apply elem_of_nil in Hx | done]. }
  destruct (decide (l ∈ reached)) as [Hin|Hnin].
  - split; [|tauto]. intros _. by destruct (h !! l).
  - split; [tauto | done].
Qed.
End Classification.

(** The two passes on [heap_demo], each with the name [c] only: [c] is
    reachable in both and keeps no flag; [a] and [b], reachable in neither,
    end up with both flags. *)
Example classification_demo :
  ∃ h1 h2,
    walkNonSubsetDeps 10 ctx_demo heap_demo ["c"]
      (fun e h => heap_update e (set_dev (Some true)) h) = Ok h1 ∧
    walkNonSubsetDeps 10 ctx_demo h1 ["c"]
      (fun e h => heap_update e (set_optional (Some true)) h) = Ok h2 ∧
    map (λ e, (dev e, optional e)) h2
    = [(None, None); (Some true, Some true); (Some true, Some true); (None, None)].
Proof. eexists _, _. split_and!; vm_compute; reflexivity. Qed.

(** ** The classification passes inside a generation run *)

Lemma walkNonSubsetDeps_no_root fuel c h subset walker :
  root c = None → walkNonSubsetDeps fuel c h subset walker = Throw TypeError.
Proof. intros Hroot. unfold walkNonSubsetDeps. by rewrite Hroot. Qed.

Lemma markDevDeps_no_root W fuel s s' :
  root (ctx s) = None → markDevDeps W fuel s ≠ Ok s'.
Proof.
  intros Hroot. unfold markDevDeps. destruct (readManifest W _); [|done|done].
  cbn [mbind res_bind]. by rewrite walkNonSubsetDeps_no_root.
Qed.

(** No run of [generateLockfile] on a directory that has a manifest returns
    a document: the builder never sets [ctx.root], and [markDevDeps] reads
    [ctx.root.dependencies]. *)
Lemma generateLockfile_no_document W fuel dir packagesDir m doc :
  readIfExists W dir = Some m →
  generateLockfile W fuel dir packagesDir ≠ Ok doc.
Proof.
  intros Hm Hrun. unfold generateLockfile in Hrun. rewrite Hm in Hrun.
  inv_bind_as Hrun r Hbuild. destruct r as [e s].
  apply build_run_inv in Hbuild as ((Hroot & _) & _ & _).
  inv_bind_as Hrun s1 Hmerge. inv_bind_as Hrun s2 Hclean. inv_bind_as Hrun s3 Hdev.
  eapply markDevDeps_no_root; [|exact Hdev].
  unfold cleanup in Hclean. inv_bind_as Hclean h Hwalk. injection Hclean as <-.
  unfold mergeRootDeps in Hmerge. inv_bind_as Hmerge re Hre. injection Hmerge as <-.
  done.
Qed.

(** No entry the builder creates is ever given an owner. *)
Lemma build_owner_unset W fuel dir packagesDir includeDev e s l en :
  buildLockfileEntry W fuel (initialState dir packagesDir) dir includeDev = Ok (e, s) →
  heap s !! l = Some en → owner en = None.
Proof.
  intros Hrun Hl. apply build_run_inv in Hrun as (Hinv & _ & _).
  destruct Hinv as (_ & _ & _ & _ & _ & _ & Hentries & _).
  by destruct (Hentries _ _ Hl) as (? & _).
Qed.

(** C1 (the code at the failing input).  On the specification's own
    scenario the tree is built, merged and cleaned, and then the dev pass
    throws a [TypeError] before it flags anything: the run returns no
    document and no entry carries a flag. *)
Theorem generateLockfile_spec_scenario_throws :
  ∃ s,
    (r ← buildLockfileEntry world_spec 10 (initialState rootDir []) rootDir true;
     s ← mergeRootDeps (fst r) (snd r);
     cleanup 10 s) = Ok s ∧
    rootDeps (ctx s) = [("a", 1); ("c", 3); ("b", 2)] ∧
    Forall (λ e, dev e = None ∧ optional e = None) (heap s) ∧
    markDevDeps world_spec 10 s = Throw TypeError ∧
    generateLockfile world_spec 10 rootDir [] = Throw TypeError.
Proof.
  eexists. split_and!.
  - vm_compute. reflexivity.
  - reflexivity.
  - repeat constructor.
  - vm_compute. reflexivity.
  - vm_compute. reflexivity.
Qed.

(** C2 (the code at the failing input).  On the specification's scenario
    the entry of [a] (1) is inserted into the dependencies map of the root
    entry (0), and neither it nor any other entry has an owner; so the scope
    resolver, started at [b] (2), cannot climb to the map that holds [c]. *)
Theorem builder_leaves_owner_unset :
  ∃ s,
    buildLockfileEntry world_spec 10 (initialState rootDir []) rootDir true = Ok (0, s) ∧
    dependencies <$> heap s !! 0 = Some (Some [("a", 1); ("c", 3); ("b", 2)]) ∧
    owner <$> heap s !! 1 = Some None ∧
    Forall (λ e, owner e = None) (heap s) ∧
    resolveDependencyEntry 10 (ctx s) (heap s) 2 "b" "c" = Throw (InternalError "b" "c").
Proof.
  eexists. split_and!.
  - vm_compute. reflexivity.
  - reflexivity.
  - reflexivity.
  - repeat constructor.
  - vm_compute. reflexivity.
Qed.

(** ** The visitors of the repository keep the nesting *)

Lemma children_heap_update l f h x :
  (∀ e, obj_values (default [] (dependencies (f e)))
        = obj_values (default [] (dependencies e))) →
  children (heap_update l f h) x = children h x.
Proof.
  intros Hf. unfold children. rewrite lookup_heap_update.
  destruct (decide (l = x)); [|done]. destruct (h !! x); cbn; [apply Hf | done].
Qed.

Lemma keeps_nesting_update (f : Entry → Entry) :
  (∀ e, obj_values (default [] (dependencies (f e)))
        = obj_values (default [] (dependencies e))) →
  keeps_nesting id (fun l h => heap_update l f h).
Proof.
  intros Hf l h. split; [apply length_heap_update|].
  intros x. by apply children_heap_update.
Qed.

Lemma keeps_nesting_stripEmpty :
  keeps_nesting id (fun l h => heap_update l stripEmpty h).
Proof. apply keeps_nesting_update, stripEmpty_values. Qed.

Lemma keeps_nesting_set_dev v :
  keeps_nesting id (fun l h => heap_update l (set_dev v) h).
Proof. by apply keeps_nesting_update. Qed.

Lemma keeps_nesting_set_optional v :
  keeps_nesting id (fun l h => heap_update l (set_optional v) h).
Proof. by apply keeps_nesting_update. Qed.

(** ** The theorems at concrete inputs *)

Lemma ownerChain_demo_2 : ownerChain heap_demo (Some 2) [2; 1; 0].
Proof.
  eapply ownerChain_step; [reflexivity | cbn].
  eapply ownerChain_step; [reflexivity | cbn].
  eapply ownerChain_step; [reflexivity | cbn].
  apply ownerChain_end.
Defined.

Lemma owners_wf_demo : owners_wf heap_demo.
Proof.
  intros l Hl. destruct l as [|[|[|[|l]]]].
  - exists [0]. eapply ownerChain_step; [reflexivity | apply ownerChain_end].
  - exists [1; 0]. eapply ownerChain_step; [reflexivity | cbn].
    eapply ownerChain_step; [reflexivity | apply ownerChain_end].
  - exists [2; 1; 0]. apply ownerChain_demo_2.
  - exists [3; 0]. eapply ownerChain_step; [reflexivity | cbn].
    eapply ownerChain_step; [reflexivity | apply ownerChain_end].
  - cbn in Hl. lia.
Defined.



(** The cycle [a -> b -> a] of [heap_demo]: each entry expanded once, each
    reachable entry collected once. *)
Example walkDeps_demo :
  walkDeps 10 ctx_demo heap_demo "a" 1 set_add (set_add 1 []) None
  = Ok ([1; 2; 3], [3; 2; 1]).
Proof. vm_compute. reflexivity. Qed.


Lemma tableWorld_never_fails manifests links from packageName :
  locate (tableWorld manifests links) from packageName ≠ Failed.
Proof. cbn. by destruct (table_get links (from, packageName)). Qed.



Lemma cleanup_no_empty_maps_witness :
  ∃ s s1,
    buildLockfileEntry world_spec 10 (initialState rootDir []) rootDir true = Ok (0, s) ∧
    mergeRootDeps 0 s = Ok s1 ∧
    ∃ N, ∀ fuel', N ≤ fuel' →
      ∃ s2, cleanup fuel' s1 = Ok s2 ∧
            ∀ l e, in_tree (heap s2) (obj_values (rootDeps (ctx s2))) l →
                   heap s2 !! l = Some e →
                   requires e ≠ Some [] ∧ dependencies e ≠ Some [].
Proof.
  eexists _, _. split_and!.
  - vm_compute. reflexivity.
  - vm_compute. reflexivity.
  - eapply (cleanup_no_empty_maps world_spec 10 rootDir [] 0).
    + vm_compute. reflexivity.
    + vm_compute. reflexivity.
Defined.

(** The cleanup of the specification's scenario: [a] and [c] lose both
    maps, [b] its empty [dependencies]. *)
Example cleanup_demo :
  ∃ s,
    (r ← buildLockfileEntry world_spec 10 (initialState rootDir []) rootDir true;
     s ← mergeRootDeps (fst r) (snd r);
     cleanup 10 s) = Ok s ∧
    map (λ e, (requires e, dependencies e)) (heap s)
    = [(Some [("a", "^1"); ("b", "^1")], Some [("a", 1); ("c", 3); ("b", 2)]);
       (None, None);
       (Some [("c", "^1")], None);
       (None, None)].
Proof. eexists. split; vm_compute; reflexivity. Qed.

Lemma mergeRootDeps_precedence_witness :
  ∃ s,
    buildLockfileEntry world_collision 10 (initialState (pkgDir "a") []) (pkgDir "a") true
    = Ok (0, s) ∧
    obj_get (rootDeps (ctx s)) "x" = Some 3 ∧
    ∃ s' rootEntry,
      mergeRootDeps 0 s = Ok s' ∧ heap s !! 0 = Some rootEntry ∧
      ∀ depName,
        obj_get (rootDeps (ctx s')) depName
        = match obj_get (rootDeps (ctx s)) depName with
          | Some top => Some top
          | None => obj_get (default [] (dependencies rootEntry)) depName
          end.
Proof.
  eexists. split_and!.
  - vm_compute. reflexivity.
  - reflexivity.
  - eapply (mergeRootDeps_precedence world_collision 10 (pkgDir "a") [] 0).
    vm_compute. reflexivity.
Defined.

(** The merge of [world_collision]: the root entry's own [x] (1) gives way
    to the [x] of the top-level map (3). *)
Example mergeRootDeps_demo :
  ∃ s s',
    buildLockfileEntry world_collision 10 (initialState (pkgDir "a") []) (pkgDir "a") true
    = Ok (0, s) ∧
    dependencies <$> heap s !! 0 = Some (Some [("x", 1)]) ∧
    rootDeps (ctx s) = [("x", 3); ("y", 2)] ∧
    mergeRootDeps 0 s = Ok s' ∧
    rootDeps (ctx s') = [("x", 3); ("y", 2)].
Proof. eexists _, _. split_and!; vm_compute; reflexivity. Qed.

Lemma buildDep_bound_name_witness :
  let rec := buildLockfileEntry world_later 9 in
  let req := [("w", "^1"); ("x", "^1"); ("c", "^1")] in
  let s0 := {| heap := [newEntry (pkg "root" req [] []) req];
               ctx := register rootDir 0 (ctx (initialState rootDir [])) |} in
  let dx := modulesOf (modulesOf rootDir "c") "x" in
  ∃ s1,
    buildDep world_later rec rootDir 0 s0 "w" = Ok s1 ∧
    locate world_later rootDir "x" = Found dx ∧
    (dx ∉ visited (ctx s1)) ∧
    ∃ s', buildDep world_later rec rootDir 0 s1 "x" = Ok s' ∧
          length (heap s') = length (heap s1) ∧
          visited (ctx s') = visited (ctx s1) ∧
          moduleDirs (ctx s') = moduleDirs (ctx s1) ∧
          target_deps s' (fst (chooseTarget s1 dx)) = Ok [("x", 2); ("w", 1)] ∧
          resolves (ctx s') = resolves_set (resolves (ctx s1)) 0 "x" 2.
Proof.
  cbv zeta. eexists. split_and!.
  - vm_compute. reflexivity.
  - reflexivity.
  - refine (bool_decide_unpack _ _). vm_compute. exact I.
  - eapply (buildDep_bound_name world_later).
    + reflexivity.
    + refine (bool_decide_unpack _ _). vm_compute. exact I.
    + reflexivity.
    + reflexivity.
Defined.

(** * Further properties of the code *)

(** ** The nearest modules directory of a path *)

Lemma basename_snoc (d : Dir) x : basename (d ++ [x]) = x.
Proof. unfold basename. by rewrite last_snoc. Qed.

Lemma dirname_snoc (d : Dir) x : dirname (d ++ [x]) = d.
Proof. unfold dirname. apply removelast_last. Qed.

Lemma getModulesDir_loop_spec n (location : Dir) :
  length location ≤ n →
  match getModulesDir_loop n location with
  | Some md =>
      ∃ pre rest, location = pre ++ "node_modules" :: rest ∧
                  md = pre ++ ["node_modules"] ∧
                  "node_modules" ∉ rest
  | None => "node_modules" ∉ location
  end.
Proof.
  revert n. induction location as [|x location IH] using rev_ind; intros n Hn.
  - destruct n; cbn; apply not_elem_of_nil.
  - rewrite length_app in Hn. cbn [length] in Hn.
    destruct n as [|n]; [lia|]. cbn [getModulesDir_loop].
    rewrite basename_snoc, dirname_snoc.
    destruct (decide (x = "node_modules")) as [->|Hx].
    + exists location, []. split_and!; [done | done | apply not_elem_of_nil].
    + destruct (decide (location ++ [x] = fsroot)) as [Heq|_].
      { by destruct location. }
      specialize (IH n ltac:(lia)).
      destruct (getModulesDir_loop n location) as [md|].
      * destruct IH as (pre & rest & -> & -> & Hrest).
        exists pre, (rest ++ [x]). split_and!; [by rewrite <- app_assoc | done |].
        rewrite elem_of_app, list_elem_of_singleton. intros [?|?]; [done | congruence].
      * rewrite elem_of_app, list_elem_of_singleton. intros [?|?]; [done | congruence].
Qed.

(** X1.  [getModulesDir] returns the nearest ancestor of the path, the path
    itself included, whose last segment is [node_modules]: the path up to and
    including its last such segment; and it returns nothing exactly when no
    segment of the path is [node_modules]. *)
Theorem getModulesDir_nearest (location : Dir) :
  match getModulesDir location with
  | Some md =>
      ∃ pre rest, location = pre ++ "node_modules" :: rest ∧
                  md = pre ++ ["node_modules"] ∧
                  "node_modules" ∉ rest
  | None => "node_modules" ∉ location
  end.
Proof. by apply getModulesDir_loop_spec. Qed.

(** ** The outcomes of [getRequires] *)

Section GetRequiresOutcome.
Variable W : World.

Lemma getRequires_loop_fail dir ks k (acc : Obj string) :
  k ∈ ks → locate W dir k = Failed →
  foldM (fun requires packageName =>
           installed ← isInstalled W dir packageName;
           Ok (if installed : bool then requires
               else obj_delete requires packageName)) ks acc
  = Throw LocatorFailure.
Proof.
  intros Hk Hfail. revert acc. induction ks as [|k0 ks IH]; intros acc.
  - by apply elem_of_nil in Hk.
  - cbn [foldM]. destruct (locate W dir k0) eqn:Hk0.
    + rewrite isInstalled_isFound by congruence. cbn [mbind res_bind].
      apply IH. apply elem_of_cons in Hk as [->|?]; [congruence | done].
    + rewrite isInstalled_isFound by congruence. cbn [mbind res_bind].
      apply IH. apply elem_of_cons in Hk as [->|?]; [congruence | done].
    + unfold isInstalled, resolvePackageLocation. by rewrite Hk0.
Qed.

Lemma locate_fails_or_not dir (ks : list string) :
  (∀ k, k ∈ ks → locate W dir k ≠ Failed) ∨
  (∃ k, k ∈ ks ∧ locate W dir k = Failed).
Proof.
  induction ks as [|k0 ks [IH|(k & Hk & Hfail)]].
  - left. intros k Hk. by apply elem_of_nil in Hk.
  - destruct (locate W dir k0) eqn:Hk0.
    + left. intros k Hk. apply elem_of_cons in Hk as [->|?]; [congruence | auto].
    + left. intros k Hk. apply elem_of_cons in Hk as [->|?]; [congruence | auto].
    + right. exists k0. split; [apply list_elem_of_here | done].
  - right. exists k. split; [by apply list_elem_of_further | done].
Qed.

Lemma getRequires_cases (dir : Dir) (includeDev : bool) :
  match getRequires W dir includeDev with
  | Ok req =>
      ∃ m, read W dir = Some m ∧
           req = filter (λ kv, isFound W dir kv.1) (declaredRequires m includeDev) ∧
           ∀ k, k ∈ obj_keys (declaredRequires m includeDev) →
                locate W dir k ≠ Failed
  | Throw e =>
      (e = ManifestError ∧ read W dir = None) ∨
      (e = LocatorFailure ∧
       ∃ m k, read W dir = Some m ∧
              k ∈ obj_keys (declaredRequires m includeDev) ∧
              locate W dir k = Failed)
  | OutOfFuel => False
  end.
Proof.
  unfold getRequires, readManifest. destruct (read W dir) as [m|]; cbn [mbind res_bind].
  2:{ by left. }
  destruct (locate_fails_or_not dir (obj_keys (declaredRequires m includeDev)))
    as [Hok|(k & Hk & Hfail)].
  - rewrite getRequires_loop by done. exists m. split_and!; [done | | done].
    apply filter_iff_elem. intros [k v] Hin. cbn [fst]. split; [|auto].
    intros H. apply H. apply list_elem_of_fmap. by exists (k, v).
  - rewrite (getRequires_loop_fail dir _ k) by done. right. split; [done|].
    by exists m, k.
Qed.

(** X2.  [getRequires] fails only when the manifest cannot be read or when
    the locator fails, for a declared name, with something other than "not
    found"; otherwise it returns the declared requirements, in their order,
    that the locator finds.  A missing module is never an error of
    [getRequires], and the function needs no fuel. *)
Theorem getRequires_outcome (dir : Dir) (includeDev : bool) :
  match getRequires W dir includeDev with
  | Ok req =>
      ∃ m, read W dir = Some m ∧
           req = filter (λ kv, isFound W dir kv.1) (declaredRequires m includeDev) ∧
           ∀ k, k ∈ obj_keys (declaredRequires m includeDev) →
                locate W dir k ≠ Failed
  | Throw e =>
      (e = ManifestError ∧ read W dir = None) ∨
      (e = LocatorFailure ∧
       ∃ m k, read W dir = Some m ∧
              k ∈ obj_keys (declaredRequires m includeDev) ∧
              locate W dir k = Failed)
  | OutOfFuel => False
  end.
Proof. apply getRequires_cases. Qed.

Lemma getRequires_found dir includeDev req k :
  getRequires W dir includeDev = Ok req → k ∈ obj_keys req →
  ∃ d, locate W dir k = Found d.
Proof.
  intros Hreq Hk. pose proof (getRequires_cases dir includeDev) as H.
  rewrite Hreq in H. destruct H as (m & _ & -> & _).
  apply list_elem_of_fmap in Hk as ([k' v] & -> & Hin).
  apply list_elem_of_filter in Hin as [Hf _]. cbn [fst] in *.
  unfold isFound in Hf. destruct (locate W dir k'); [eauto | done | done].
Qed.
End GetRequiresOutcome.

(** ** The outcomes of the builder *)

Lemma build_error_step W dir d k e :
  locate W dir k = Found d → build_error W d e → build_error W dir e.
Proof.
  intros Hk [(-> & x & Hx & ?)|(-> & x & n & Hx & ?)]; [left|right];
    (split; [done|]).
  - exists x. split; [|done]. eapply rtc_l; [by exists k | done].
  - exists x, n. split; [|done]. eapply rtc_l; [by exists k | done].
Qed.

Lemma target_deps_Ok s t :
  build_inv s →
  match t with TRoot => True | TEntry l => l < length (heap s) end →
  ∃ d, target_deps s t = Ok d.
Proof.
  intros (_ & _ & _ & _ & _ & _ & Hentries & _) Ht. destruct t as [|l].
  - by eexists.
  - destruct (lookup_lt_is_Some_2 _ _ Ht) as [e He].
    destruct (Hentries _ _ He) as (_ & _ & _ & d & Hd & _).
    exists d. cbn [target_deps]. unfold heap_get. rewrite He.
    cbn [mbind res_bind]. by rewrite Hd.
Qed.

Lemma target_deps_fuel s t : target_deps s t ≠ OutOfFuel.
Proof.
  destruct t as [|l]; cbn [target_deps]; [done|]. unfold heap_get.
  destruct (heap s !! l) as [e|]; cbn [mbind res_bind]; [|done].
  by destruct (dependencies e).
Qed.

Section BuilderOutcome.
Variable W : World.

Lemma buildDep_throws rec dir entry s depName e :
  build_ok rec → throws_ok W rec → build_inv s →
  (∃ d, locate W dir depName = Found d) →
  buildDep W rec dir entry s depName = Throw e →
  build_error W dir e.
Proof.
  intros Hok Hrec Hinv [a Ha] Hrun. unfold buildDep, resolvePackageLocation in Hrun.
  rewrite Ha in Hrun. cbn [mbind res_bind] in Hrun.
  destruct (decide (a ∈ visited (ctx s))) as [Hin|Hnin]; [done|].
  destruct (chooseTarget_inv s a Hinv) as (t & Ht & d & Hd & Hvalid).
  rewrite Ht in Hrun. cbn [fst snd] in Hrun. rewrite Hd in Hrun.
  cbn [mbind res_bind] in Hrun.
  destruct (obj_get d depName) as [depEntry|]; [done|].
  destruct (rec s a false) as [[depEntry s2]|e'|] eqn:Hr;
    cbn [mbind res_bind fst snd] in Hrun; [| |done].
  - destruct (Hok _ _ _ _ _ Hinv Hnin Hr) as (Hinv2 & -> & Hlt & _).
    destruct (target_deps_Ok s2 t Hinv2) as [d2 Hd2].
    { destruct t; [done | lia]. }
    by rewrite Hd2 in Hrun.
  - injection Hrun as <-. eapply build_error_step; [done|]. by eapply Hrec.
Qed.

Lemma buildDeps_throws rec dir entry ks s e :
  build_ok rec → throws_ok W rec → build_inv s →
  (∀ k, k ∈ ks → ∃ d, locate W dir k = Found d) →
  foldM (buildDep W rec dir entry) ks s = Throw e →
  build_error W dir e.
Proof.
  intros Hok Hrec. revert s. induction ks as [|k ks IH]; intros s Hinv Hks Hrun; [done|].
  cbn [foldM] in Hrun.
  destruct (buildDep W rec dir entry s k) as [s1|e'|] eqn:Hstep;
    cbn [mbind res_bind] in Hrun; [| |done].
  - apply buildDep_inv in Hstep as (Hinv1 & _ & _); [|done|done].
    apply (IH s1); [done | | done].
    intros k' Hk'. apply Hks. by apply list_elem_of_further.
  - injection Hrun as <-. eapply buildDep_throws; [done | done | done | | done].
    apply Hks, list_elem_of_here.
Qed.

Lemma buildLockfileEntry_throws fuel : throws_ok W (buildLockfileEntry W fuel).
Proof.
  induction fuel as [|fuel IH]; intros s dir includeDev e Hinv Hnin Hrun; [done|].
  cbn [buildLockfileEntry] in Hrun. unfold readManifest in Hrun.
  destruct (read W dir) as [m|] eqn:Hm; cbn [mbind res_bind] in Hrun.
  2:{ injection Hrun as <-. left. split; [done|]. exists dir. split; [apply rtc_refl | done]. }
  pose proof (getRequires_cases W dir includeDev) as Hreq.
  destruct (getRequires W dir includeDev) as [req|e'|] eqn:Hg;
    cbn [mbind res_bind] in Hrun; [| |done].
  - destruct (foldM _ _ _) as [s1|e'|] eqn:Hloop in Hrun;
      cbn [mbind res_bind] in Hrun; [done | | done].
    injection Hrun as <-.
    eapply buildDeps_throws in Hloop; [done | apply buildLockfileEntry_ok | done | | ].
    + by apply register_inv.
    + intros k Hk. by eapply getRequires_found.
  - injection Hrun as <-.
    destruct Hreq as [(-> & Hnone)|(-> & _ & k & _ & _ & Hfail)]; [congruence|].
    right. split; [done|]. exists dir, k. split; [apply rtc_refl | done].
Qed.

(** X3.  A build that throws does so for one of two reasons: a directory
    it has come to, the start directory or one the locator found from a
    directory it came to before, has no readable manifest, or the locator
    failed from such a directory with something other than "not found".  A
    module that is not installed never aborts the build, and no lookup in the
    builder's own maps fails. *)
Theorem buildLockfileEntry_errors (fuel : nat) (dir packagesDir : Dir)
    (includeDev : bool) (e : Err) :
  buildLockfileEntry W fuel (initialState dir packagesDir) dir includeDev = Throw e →
  (e = ManifestError ∧ ∃ d, reachable_dir W dir d ∧ read W d = None) ∨
  (e = LocatorFailure ∧
   ∃ d packageName, reachable_dir W dir d ∧ locate W d packageName = Failed).
Proof.
  intros Hrun. eapply buildLockfileEntry_throws; [| |done].
  - apply initialState_inv.
  - apply not_elem_of_nil.
Qed.
End BuilderOutcome.

Lemma buildLockfileEntry_errors_witness :
  build_error world_broken rootDir ManifestError.
Proof.
  apply (buildLockfileEntry_errors world_broken 5 rootDir [] true ManifestError).
  vm_compute. reflexivity.
Defined.

(** ** Termination of the builder on a finite installation *)

Section BuilderTermination.
Variable W : World.
Variable dir0 : Dir.
Variable dirs : list Dir.
Hypothesis dirs_closed : ∀ d, reachable_dir W dir0 d → d ∈ dirs.

Lemma unvisited_mono s s' :
  (∀ x, x ∈ visited (ctx s) → x ∈ visited (ctx s')) →
  length (unvisited dirs s') ≤ length (unvisited dirs s).
Proof.
  intros Hmono. unfold unvisited. clear dirs_closed.
  induction dirs as [|d ds IH]; [done|].
  rewrite !filter_cons.
  destruct (decide (d ∉ visited (ctx s'))) as [Hn'|Hv'];
    destruct (decide (d ∉ visited (ctx s))) as [Hn|Hv]; cbn [length]; try lia.
  exfalso. apply Hn'. apply Hmono. by apply dec_stable.
Qed.

Lemma unvisited_register s d (e : Entry) l :
  d ∈ dirs → d ∉ visited (ctx s) →
  length (unvisited dirs {| heap := heap s ++ [e]; ctx := register d l (ctx s) |})
  < length (unvisited dirs s).
Proof.
  intros Hd Hnin. unfold unvisited. cbn [ctx register visited]. clear dirs_closed.
  induction dirs as [|d' ds IH]; [by apply elem_of_nil in Hd|].
  rewrite !filter_cons.
  assert (length (filter (λ x, x ∉ d :: visited (ctx s)) ds)
          ≤ length (filter (λ x, x ∉ visited (ctx s)) ds)) as Hle.
  { clear. induction ds as [|x xs IH]; [done|]. rewrite !filter_cons.
    destruct (decide (x ∉ d :: visited (ctx s))) as [Hn'|Hv'];
      destruct (decide (x ∉ visited (ctx s))) as [Hn|Hv]; cbn [length]; try lia.
    exfalso. apply Hv. intros ?. apply Hn'. by apply list_elem_of_further. }
  apply elem_of_cons in Hd as [<-|Hd].
  - rewrite decide_False by (intros H; apply H, list_elem_of_here).
    rewrite decide_True by done. cbn [length]. lia.
  - specialize (IH Hd).
    destruct (decide (d' ∉ d :: visited (ctx s))) as [Hn'|Hv'];
      destruct (decide (d' ∉ visited (ctx s))) as [Hn|Hv]; cbn [length]; try lia.
    exfalso. apply Hv. intros ?. apply Hn'. by apply list_elem_of_further.
Qed.

Lemma buildDep_fuel n rec d entry s depName :
  rec_fuel W dir0 dirs n rec → build_inv s → reachable_dir W dir0 d →
  length (unvisited dirs s) ≤ n →
  buildDep W rec d entry s depName ≠ OutOfFuel.
Proof.
  intros Hrec Hinv Hd Hn. unfold buildDep, resolvePackageLocation.
  destruct (locate W d depName) as [a| |] eqn:Ha; cbn [mbind res_bind]; [|done|done].
  destruct (decide (a ∈ visited (ctx s))) as [Hin|Hnin]; [done|].
  destruct (chooseTarget_inv s a Hinv) as (t & Ht & deps & Hdeps & Hvalid).
  rewrite Ht. cbn [fst snd]. rewrite Hdeps. cbn [mbind res_bind].
  destruct (obj_get deps depName) as [depEntry|]; [done|].
  assert (reachable_dir W dir0 a) as Hra.
  { eapply rtc_r; [done|]. by exists depName. }
  specialize (Hrec s a false Hinv Hra Hnin Hn).
  destruct (rec s a false) as [[depEntry s2]|e'|]; cbn [mbind res_bind fst snd];
    [|done|done].
  pose proof (target_deps_fuel s2 t) as Hf.
  by destruct (target_deps s2 t).
Qed.

Lemma buildDeps_fuel n rec d entry ks s :
  build_ok rec → rec_fuel W dir0 dirs n rec → build_inv s → reachable_dir W dir0 d →
  length (unvisited dirs s) ≤ n →
  foldM (buildDep W rec d entry) ks s ≠ OutOfFuel.
Proof.
  intros Hok Hrec Hinv Hd. revert s Hinv.
  induction ks as [|k ks IH]; intros s Hinv Hn; [done|].
  cbn [foldM]. pose proof (buildDep_fuel n rec d entry s k Hrec Hinv Hd Hn) as Hstep.
  destruct (buildDep W rec d entry s k) as [s1|e'|] eqn:Hrun;
    cbn [mbind res_bind]; [|done|done].
  apply buildDep_inv in Hrun as (Hinv1 & _ & Hmono); [|done|done].
  apply IH; [done|]. pose proof (unvisited_mono s s1 Hmono). lia.
Qed.

Lemma buildLockfileEntry_fuel fuel : rec_fuel W dir0 dirs fuel (buildLockfileEntry W fuel).
Proof.
  induction fuel as [|fuel IH]; intros s d includeDev Hinv Hd Hnin Hn.
  - exfalso. pose proof (dirs_closed d Hd) as Hin. unfold unvisited in Hn.
    assert (d ∈ filter (λ x, x ∉ visited (ctx s)) dirs) as Hf.
    { by apply list_elem_of_filter. }
    destruct (filter _ dirs); [by apply elem_of_nil in Hf | cbn in Hn; lia].
  - cbn [buildLockfileEntry]. unfold readManifest.
    destruct (read W d) as [m|]; cbn [mbind res_bind]; [|done].
    pose proof (getRequires_cases W d includeDev) as Hreq.
    destruct (getRequires W d includeDev) as [req|e'|]; cbn [mbind res_bind];
      [|done|done].
    pose proof (unvisited_register s d (newEntry m req) (length (heap s))
                  (dirs_closed d Hd) Hnin) as Hlt.
    pose proof (buildDeps_fuel fuel (buildLockfileEntry W fuel) d (length (heap s))
                  (obj_keys req) _ (buildLockfileEntry_ok W fuel) IH
                  (register_inv s d m req Hinv Hnin) Hd) as Hloop.
    destruct (foldM _ _ _) as [s1|e'|]; cbn [mbind res_bind]; [done|done|].
    exfalso. apply Hloop; [lia | done].
Qed.
End BuilderTermination.

(** X4.  On a finite installation the builder terminates, cyclic
    requirements included: when all the directories it can come to from the
    start directory lie in the list [dirs], fuel for one nested call per
    directory is enough, and the build returns a tree or throws. *)
Theorem buildLockfileEntry_terminates (W : World) (dirs : list Dir) (fuel : nat)
    (dir packagesDir : Dir) (includeDev : bool) :
  (∀ d, reachable_dir W dir d → d ∈ dirs) →
  length dirs ≤ fuel →
  buildLockfileEntry W fuel (initialState dir packagesDir) dir includeDev ≠ OutOfFuel.
Proof.
  intros Hclosed Hfuel.
  apply (buildLockfileEntry_fuel W dir dirs Hclosed fuel).
  - apply initialState_inv.
  - apply rtc_refl.
  - apply not_elem_of_nil.
  - unfold unvisited. pose proof (length_filter (λ d, d ∉ visited (ctx (initialState dir packagesDir))) dirs). lia.
Qed.

Lemma tableWorld_reachable manifests links dir d :
  reachable_dir (tableWorld manifests links) dir d → d ∈ dir :: map snd links.
Proof.
  intros H. apply rtc_inv_r in H as [->|(x & _ & k & Hk)]; [apply list_elem_of_here|].
  apply list_elem_of_further. cbn in Hk.
  destruct (table_get links (x, k)) as [d'|] eqn:Hget; [|done].
  injection Hk as ->. clear -Hget.
  induction links as [|[k0 v0] links IH]; [done|]. cbn [table_get] in Hget.
  destruct (decide (k0 = (x, k))).
  - injection Hget as ->. apply list_elem_of_here.
  - apply list_elem_of_further. auto.
Qed.

Lemma buildLockfileEntry_terminates_witness :
  buildLockfileEntry world_spec 4 (initialState rootDir []) rootDir true ≠ OutOfFuel.
Proof.
  apply (buildLockfileEntry_terminates world_spec
           [rootDir; modulesOf rootDir "a"; modulesOf rootDir "b";
            modulesOf rootDir "c"]).
  - intros d Hd. exact (tableWorld_reachable _ _ _ _ Hd).
  - cbn. lia.
Defined.

Lemma moduleDirs_target_write t d s :
  moduleDirs (ctx (target_write t d s)) = moduleDirs (ctx s).
Proof. by destruct t. Qed.

(** ** The record of directories only grows *)

Section BuilderGrows.
Variable W : World.

Lemma buildDep_grows rec dir entry s depName s' :
  grow_ok rec →
  buildDep W rec dir entry s depName = Ok s' →
  ∃ new, moduleDirs (ctx s') = new ++ moduleDirs (ctx s).
Proof.
  intros Hrec Hrun. unfold buildDep in Hrun. inv_bind Hrun.
  destruct (decide (a ∈ visited (ctx s))) as [Hin|Hnin].
  { injection Hrun as <-. by exists []. }
  destruct (chooseTarget_ctx s a) as [Hctx _].
  destruct (chooseTarget s a) as [t s1]. cbn [fst snd] in *.
  inv_bind_as Hrun d Hd.
  destruct (obj_get d depName) as [depEntry|].
  { injection Hrun as <-. exists []. cbn. by rewrite Hctx. }
  inv_bind_as Hrun r Hr. destruct r as [depEntry s2]. cbn [fst snd] in Hrun.
  inv_bind_as Hrun d2 Hd2. injection Hrun as <-.
  destruct (Hrec _ _ _ _ _ Hr) as [new Hnew].
  exists (new ++ [(a, depEntry)]).
  cbn [record_resolve set_ctx ctx set_resolves moduleDirs].
  rewrite moduleDirs_target_write, Hnew, Hctx. by rewrite <- app_assoc.
Qed.

Lemma buildDeps_grows rec dir entry ks s s' :
  grow_ok rec →
  foldM (buildDep W rec dir entry) ks s = Ok s' →
  ∃ new, moduleDirs (ctx s') = new ++ moduleDirs (ctx s).
Proof.
  intros Hrec. revert s. induction ks as [|k ks IH]; intros s Hrun.
  - injection Hrun as <-. by exists [].
  - cbn [foldM] in Hrun. inv_bind_as Hrun s1 Hstep.
    apply buildDep_grows in Hstep as [new1 H1]; [|done].
    apply IH in Hrun as [new2 H2]. exists (new2 ++ new1).
    by rewrite H2, H1, app_assoc.
Qed.

Lemma buildLockfileEntry_grows fuel : grow_ok (buildLockfileEntry W fuel).
Proof.
  induction fuel as [|fuel IH]; intros s dir b e s' Hrun; [done|].
  cbn [buildLockfileEntry] in Hrun. inv_bind_as Hrun m Hread.
  inv_bind_as Hrun req Hreq. inv_bind_as Hrun s1 Hloop. injection Hrun as <- <-.
  apply buildDeps_grows in Hloop as [new Hnew]; [|done]. by exists new.
Qed.
End BuilderGrows.

(** ** What the entries carry *)

Lemma entry_of_set_dependencies W d b v e :
  entry_of W d b e → entry_of W d b (set_dependencies v e).
Proof. intros (m & req & ?). by exists m, req. Qed.

Lemma entries_match_target_write W b0 t d s :
  entries_match W b0 s → entries_match W b0 (target_write t d s).
Proof.
  intros Hm dir l Hin. rewrite moduleDirs_target_write in Hin.
  destruct (Hm dir l Hin) as (e & He & Hof). destruct t as [|l']; [by exists e|].
  cbn [target_write set_heap heap]. rewrite lookup_heap_update.
  destruct (decide (l' = l)) as [->|Hne]; [|by exists e].
  rewrite He. eexists. split; [done|]. by apply entry_of_set_dependencies.
Qed.

Section EntriesMatch.
Variable W : World.
Variable includeDev0 : bool.

Lemma buildDep_match rec dir entry s depName s' :
  build_ok rec → match_ok W includeDev0 rec → build_inv s →
  0 < length (heap s) → entries_match W includeDev0 s →
  buildDep W rec dir entry s depName = Ok s' →
  entries_match W includeDev0 s'.
Proof.
  intros Hok Hrec Hinv Hpos Hm Hrun. unfold buildDep in Hrun. inv_bind Hrun.
  destruct (decide (a ∈ visited (ctx s))) as [Hin|Hnin].
  { by injection Hrun as <-. }
  destruct (chooseTarget_inv s a Hinv) as (t & Ht & d & Hd & Hvalid).
  rewrite Ht in Hrun. cbn [fst snd] in Hrun. rewrite Hd in Hrun.
  cbn [mbind res_bind] in Hrun.
  destruct (obj_get d depName) as [depEntry|] eqn:Hget.
  { by injection Hrun as <-. }
  inv_bind Hrun. destruct a0 as [depEntry s2]. cbn [fst snd] in Hrun.
  inv_bind Hrun. injection Hrun as <-.
  intros x l Hin. cbn [record_resolve set_ctx ctx set_resolves moduleDirs heap] in *.
  apply (entries_match_target_write W includeDev0 t _ s2); [|done].
  eapply Hrec; [done | done | done | | done].
  destruct (decide (length (heap s) = 0)); [lia | done].
Qed.

Lemma buildDeps_match rec dir entry ks s s' :
  build_ok rec → match_ok W includeDev0 rec → build_inv s →
  0 < length (heap s) → entries_match W includeDev0 s →
  foldM (buildDep W rec dir entry) ks s = Ok s' →
  entries_match W includeDev0 s'.
Proof.
  intros Hok Hrec. revert s. induction ks as [|k ks IH]; intros s Hinv Hpos Hm Hrun.
  - by injection Hrun as <-.
  - cbn [foldM] in Hrun. inv_bind Hrun.
    pose proof (buildDep_match _ _ _ _ _ _ Hok Hrec Hinv Hpos Hm Ha) as Hm1.
    apply buildDep_inv in Ha as (Hinv1 & Hlen1 & _); [|done|done].
    apply (IH a); [done | lia | done | done].
Qed.

Lemma buildLockfileEntry_match fuel :
  match_ok W includeDev0 (buildLockfileEntry W fuel).
Proof.
  induction fuel as [|fuel IH]; intros s dir b e s' Hinv Hnin Hm Hb Hrun; [done|].
  cbn [buildLockfileEntry] in Hrun. inv_bind_as Hrun m Hread.
  inv_bind_as Hrun req Hreq. inv_bind_as Hrun s1 Hloop. injection Hrun as <- <-.
  refine (buildDeps_match _ _ _ _ _ _ (buildLockfileEntry_ok W fuel) IH _ _ _ Hloop).
  - by apply register_inv.
  - cbn [heap]. rewrite length_app. cbn [length]. lia.
  - intros d l Hin. cbn [ctx register moduleDirs heap] in *.
    apply elem_of_cons in Hin as [[= -> ->]|Hin].
    + rewrite lookup_app_r, Nat.sub_diag by done. eexists. split; [done|].
      unfold readManifest in Hread. destruct (read W dir) as [m'|] eqn:Hm'; [|done].
      injection Hread as ->. exists m, req. by rewrite <- Hb.
    + destruct (Hm d l Hin) as (en & Hen & Hof). exists en. split; [|done].
      by apply lookup_app_l_Some.
Qed.

(** X5.  When a build returns, the directories it has visited are those
    on record in [moduleDirs], the start directory with the first entry, and
    the entry on record for a directory carries what the manifest of that
    directory says: its version, its integrity and resolved fields, and as
    [requires] the map [getRequires] returns for the directory, with the
    development requirements counted for the start directory only.  No
    later step of the build overwrites these fields. *)
Theorem entries_carry_manifests (fuel : nat) (dir packagesDir : Dir) (e : loc) (s : St) :
  buildLockfileEntry W fuel (initialState dir packagesDir) dir includeDev0 = Ok (e, s) →
  visited (ctx s) = map fst (moduleDirs (ctx s)) ∧
  (dir, 0) ∈ moduleDirs (ctx s) ∧
  ∀ d l, (d, l) ∈ moduleDirs (ctx s) →
    ∃ m req en,
      read W d = Some m ∧
      getRequires W d (if decide (l = 0) then includeDev0 else false) = Ok req ∧
      heap s !! l = Some en ∧
      version en = mversion m ∧ integrity en = _integrity m ∧
      resolved en = _resolved m ∧ requires en = Some req.
Proof.
  intros Hrun.
  assert (entries_match W includeDev0 (initialState dir packagesDir)) as Hm0.
  { intros x y Hxy. by apply elem_of_nil in Hxy. }
  pose proof (buildLockfileEntry_match fuel _ _ _ _ _
                (initialState_inv dir packagesDir) (not_elem_of_nil _) Hm0
                eq_refl Hrun) as Hm.
  apply buildLockfileEntry_ok in Hrun as Hok;
    [| apply initialState_inv | apply not_elem_of_nil].
  destruct Hok as ((_ & Hvis & _) & -> & _). split_and!.
  - done.
  - apply buildLockfileEntry_grows in Hrun as [new ->].
    apply elem_of_app. right. apply list_elem_of_here.
  - intros d l Hin.
    destruct (Hm d l Hin) as (en & Hen & m & req & ? & ? & ? & ? & ? & ?).
    exists m, req, en. split_and!; done.
Qed.
End EntriesMatch.

Lemma entries_carry_manifests_witness :
  ∃ s,
    buildLockfileEntry world_spec 10 (initialState rootDir []) rootDir true = Ok (0, s) ∧
    (rootDir, 0) ∈ moduleDirs (ctx s).
Proof.
  eexists. split; [vm_compute; reflexivity|].
  edestruct (entries_carry_manifests world_spec true 10 rootDir [] 0) as (_ & H & _);
    [vm_compute; reflexivity|].
  exact H.
Defined.

(** ** The nesting of the entries follows the directories *)

Lemma NoDup_snd_functional {K V} (l : list (K * V)) k1 k2 v :
  NoDup (map snd l) → (k1, v) ∈ l → (k2, v) ∈ l → k1 = k2.
Proof.
  induction l as [|[k0 v0] l IH]; intros Hnd H1 H2.
  - by apply elem_of_nil in H1.
  - cbn [map snd] in Hnd. apply NoDup_cons in Hnd as [Hv0 Hnd].
    assert (∀ k, (k, v0) ∈ l → False) as Hv0'.
    { intros k Hk. apply Hv0. apply list_elem_of_fmap. by exists (k, v0). }
    apply elem_of_cons in H1 as [H1|H1]; apply elem_of_cons in H2 as [H2|H2];
      simplify_eq.
    + done.
    + exfalso. by eapply Hv0'.
    + exfalso. by eapply Hv0'.
    + by apply IH.
Qed.

Lemma moduleDirs_entry_dir s d1 d2 l :
  build_inv s → (d1, l) ∈ moduleDirs (ctx s) → (d2, l) ∈ moduleDirs (ctx s) →
  d1 = d2.
Proof.
  intros (_ & _ & Hcreated & _) H1 H2.
  eapply NoDup_snd_functional; [|done|done].
  rewrite Hcreated, reverse_Permutation. apply NoDup_seq.
Qed.

Lemma moduleDirs_lt s d l :
  build_inv s → (d, l) ∈ moduleDirs (ctx s) → l < length (heap s).
Proof.
  intros (_ & _ & Hcreated & _) Hin.
  assert (l ∈ map snd (moduleDirs (ctx s))) as Hl.
  { apply list_elem_of_fmap. by exists (d, l). }
  rewrite Hcreated, elem_of_reverse, elem_of_seq in Hl. lia.
Qed.

Lemma children_lt s l c :
  build_inv s → c ∈ children (heap s) l → l < c < length (heap s).
Proof. intros Hinv. by apply build_inv_ordered. Qed.

Lemma chooseTarget_TEntry s resolvedDir target s1 :
  chooseTarget s resolvedDir = (TEntry target, s1) →
  ∃ pre rest, resolvedDir = pre ++ "node_modules" :: rest ∧
              ("node_modules" ∉ rest) ∧
              (pre, target) ∈ moduleDirs (ctx s).
Proof.
  unfold chooseTarget. pose proof (getModulesDir_loop_spec (length resolvedDir)
                                     resolvedDir (le_n _)) as Hmd.
  fold (getModulesDir resolvedDir) in Hmd.
  destruct (getModulesDir resolvedDir) as [md|]; [|done].
  destruct Hmd as (pre & rest & -> & -> & Hrest).
  unfold getDependencyTarget. rewrite dirname_snoc.
  destruct (moduleDirs_get _ pre) as [t|] eqn:Hget; [|done].
  apply moduleDirs_get_elem in Hget. intros Heq. exists pre, rest.
  split_and!; [done | done |].
  destruct (heap s !! t) as [e|]; [destruct (dependencies e)|]; by simplify_eq.
Qed.

Lemma children_target_write t d s l c :
  c ∈ children (heap (target_write t d s)) l →
  c ∈ children (heap s) l ∨ (t = TEntry l ∧ c ∈ obj_values d).
Proof.
  destruct t as [|l']; cbn [target_write set_ctx set_heap heap]; [auto|].
  unfold children. rewrite lookup_heap_update.
  destruct (decide (l' = l)) as [->|Hne]; [|auto].
  destruct (heap s !! l) as [e|]; cbn; [auto|]. intros H. by apply elem_of_nil in H.
Qed.

Section Nesting.
Variable W : World.

Lemma buildDep_nest rec dir entry s depName s' :
  build_ok rec → grow_ok rec → nest_ok rec → build_inv s → nest_inv s →
  buildDep W rec dir entry s depName = Ok s' →
  nest_inv s'.
Proof.
  intros Hok Hgrow Hrec Hinv Hnest Hrun. unfold buildDep in Hrun. inv_bind Hrun.
  destruct (decide (a ∈ visited (ctx s))) as [Hin|Hnin].
  { by injection Hrun as <-. }
  destruct (chooseTarget_inv s a Hinv) as (t & Ht & d & Hd & Hvalid).
  rewrite Ht in Hrun. cbn [fst snd] in Hrun. rewrite Hd in Hrun.
  cbn [mbind res_bind] in Hrun.
  destruct (obj_get d depName) as [depEntry|] eqn:Hget.
  { by injection Hrun as <-. }
  inv_bind_as Hrun r Hr. destruct r as [depEntry s2]. cbn [fst snd] in Hrun.
  inv_bind_as Hrun d2 Hd2. injection Hrun as <-.
  destruct (Hok _ _ _ _ _ Hinv Hnin Hr) as (Hinv2 & -> & Hlt & _).
  pose proof (Hrec _ _ _ _ _ Hinv Hnin Hnest Hr) as Hnest2.
  destruct (Hgrow _ _ _ _ _ Hr) as [new Hnew].
  intros dl l dc c Hl Hc Hch.
  cbn [record_resolve set_ctx ctx set_resolves moduleDirs heap] in Hl, Hc, Hch.
  rewrite moduleDirs_target_write in Hl, Hc.
  apply children_target_write in Hch as [Hch|[-> Hch]]; [by eapply Hnest2|].
  apply obj_values_set_subset in Hch as [->|Hch].
  2:{ eapply Hnest2; [done | done |]. cbn [target_deps] in Hd2.
      inv_bind_as Hd2 en Hen. apply heap_get_Ok in Hen. unfold children.
      rewrite Hen. by destruct (dependencies en); simplify_eq. }
  apply chooseTarget_TEntry in Ht as (pre & rest & -> & Hrest & Hpre).
  assert ((pre, l) ∈ moduleDirs (ctx s2)) as Hpre2.
  { rewrite Hnew. apply elem_of_app. right. by apply list_elem_of_further. }
  assert ((pre ++ "node_modules" :: rest, length (heap s)) ∈ moduleDirs (ctx s2))
    as Hnew2.
  { rewrite Hnew. apply elem_of_app. right. apply list_elem_of_here. }
  rewrite (moduleDirs_entry_dir s2 dl pre l Hinv2 Hl Hpre2).
  rewrite (moduleDirs_entry_dir s2 dc _ _ Hinv2 Hc Hnew2).
  by exists rest.
Qed.

Lemma buildDeps_nest rec dir entry ks s s' :
  build_ok rec → grow_ok rec → nest_ok rec → build_inv s → nest_inv s →
  foldM (buildDep W rec dir entry) ks s = Ok s' →
  nest_inv s'.
Proof.
  intros Hok Hgrow Hrec. revert s. induction ks as [|k ks IH]; intros s Hinv Hnest Hrun.
  - by injection Hrun as <-.
  - cbn [foldM] in Hrun. inv_bind_as Hrun s1 Hstep.
    pose proof (buildDep_nest _ _ _ _ _ _ Hok Hgrow Hrec Hinv Hnest Hstep) as Hnest1.
    apply buildDep_inv in Hstep as (Hinv1 & _ & _); [|done|done].
    by apply (IH s1).
Qed.

Lemma register_nest s dir m (req : Obj string) :
  build_inv s → nest_inv s →
  nest_inv {| heap := heap s ++ [newEntry m req];
              ctx := register dir (length (heap s)) (ctx s) |}.
Proof.
  intros Hinv Hnest dl l dc c Hl Hc Hch. cbn [ctx register moduleDirs heap] in *.
  assert (l < length (heap s) ∧ c ∈ children (heap s) l) as [Hlt Hch'].
  { unfold children in *. destruct (decide (l < length (heap s))) as [Hlt|Hge].
    - by rewrite lookup_app_l in Hch.
    - exfalso. rewrite lookup_app_r in Hch by lia.
      destruct (l - length (heap s)) as [|?]; cbn in Hch; by apply elem_of_nil in Hch. }
  pose proof (children_lt s l c Hinv Hch') as Hc'.
  apply elem_of_cons in Hl as [[= -> ->]|Hl]; [lia|].
  apply elem_of_cons in Hc as [[= -> ->]|Hc]; [lia|].
  by eapply Hnest.
Qed.

Lemma buildLockfileEntry_nest fuel : nest_ok (buildLockfileEntry W fuel).
Proof.
  induction fuel as [|fuel IH]; intros s dir b e s' Hinv Hnin Hnest Hrun; [done|].
  cbn [buildLockfileEntry] in Hrun. inv_bind_as Hrun m Hread.
  inv_bind_as Hrun req Hreq. inv_bind_as Hrun s1 Hloop. injection Hrun as <- <-.
  refine (buildDeps_nest _ _ _ _ _ _ (buildLockfileEntry_ok W fuel)
            (buildLockfileEntry_grows W fuel) IH _ _ Hloop).
  - by apply register_inv.
  - by apply register_nest.
Qed.

(** X6.  In the tree a build returns, the nesting of the entries follows
    that of the directories: an entry held in the [dependencies] map of
    another belongs to a directory inside the modules directory of that
    other's directory, with no further modules directory in between. *)
Theorem nesting_follows_directories (fuel : nat) (dir packagesDir : Dir)
    (includeDev : bool) (e : loc) (s : St) :
  buildLockfileEntry W fuel (initialState dir packagesDir) dir includeDev = Ok (e, s) →
  ∀ dl l dc c,
    (dl, l) ∈ moduleDirs (ctx s) → (dc, c) ∈ moduleDirs (ctx s) →
    c ∈ children (heap s) l →
    ∃ rest, dc = dl ++ "node_modules" :: rest ∧ "node_modules" ∉ rest.
Proof.
  intros Hrun.
  assert (nest_inv (initialState dir packagesDir)) as Hn0.
  { intros dl l dc c Hl. by apply elem_of_nil in Hl. }
  exact (buildLockfileEntry_nest fuel _ _ _ _ _
           (initialState_inv dir packagesDir) (not_elem_of_nil _) Hn0 Hrun).
Qed.
End Nesting.

Lemma nesting_follows_directories_witness :
  ∃ s,
    buildLockfileEntry world_spec 10 (initialState rootDir []) rootDir true = Ok (0, s) ∧
    ∀ dl l dc c,
      (dl, l) ∈ moduleDirs (ctx s) → (dc, c) ∈ moduleDirs (ctx s) →
      c ∈ children (heap s) l →
      ∃ rest, dc = dl ++ "node_modules" :: rest ∧ "node_modules" ∉ rest.
Proof.
  eexists. split; [vm_compute; reflexivity|].
  apply (nesting_follows_directories world_spec 10 rootDir [] true 0).
  vm_compute. reflexivity.
Defined.

(** ** The walk over a tree visits the tree *)

Lemma in_tree_cons_inv h v vs l :
  l = v ∨ in_tree h (children h v) l ∨ in_tree h vs l → in_tree h (v :: vs) l.
Proof.
  intros [->|[H|H]].
  - apply in_tree_top, list_elem_of_here.
  - induction H as [l Hl|p l _ IH Hl].
    + eapply in_tree_child; [|exact Hl]. apply in_tree_top, list_elem_of_here.
    + by eapply in_tree_child.
  - induction H as [l Hl|p l _ IH Hl].
    + by apply in_tree_top, list_elem_of_further.
    + by eapply in_tree_child.
Qed.

Lemma in_tree_ext h h' tops l :
  (∀ x, children h' x = children h x) → in_tree h tops l → in_tree h' tops l.
Proof.
  intros Hch. induction 1 as [l Hl|p l _ IH Hl].
  - by apply in_tree_top.
  - eapply in_tree_child; [exact IH|]. by rewrite Hch.
Qed.

Section WalkVisits.
Context {σ : Type} (hp : σ → Heap) (walker : loc → σ → σ).
Hypothesis Hkeeps : keeps_nesting hp walker.

Lemma visits_loop n vs :
  (∀ (deps : option EntryDeps) (s : σ) log0,
     0 < n → ordered (hp s) →
     (∀ c, c ∈ obj_values (default [] deps) →
           c < length (hp s) ∧ length (hp s) - c < n) →
     ∃ s' seg,
       walkEntries (hp ∘ fst) n deps (logged walker) (s, log0) = Ok (s', log0 ++ seg) ∧
       (∀ l, l ∈ seg ↔ in_tree (hp s) (obj_values (default [] deps)) l) ∧
       length (hp s') = length (hp s) ∧
       (∀ x, children (hp s') x = children (hp s) x)) →
  ∀ (s : σ) log0,
    ordered (hp s) →
    (∀ c, c ∈ vs → c < length (hp s) ∧ length (hp s) - c ≤ n) →
    ∃ s' seg,
      foldM (fun s value =>
               e ← heap_get ((hp ∘ fst) s) value;
               s ← walkEntries (hp ∘ fst) n (dependencies e) (logged walker) s;
               Ok (logged walker value s)) vs (s, log0) = Ok (s', log0 ++ seg) ∧
      (∀ l, l ∈ seg ↔ in_tree (hp s) vs l) ∧
      length (hp s') = length (hp s) ∧
      (∀ x, children (hp s') x = children (hp s) x).
Proof.
  intros IH. induction vs as [|v vs IHvs]; intros s log0 Hord Hbound.
  { exists s, []. rewrite app_nil_r. split_and!; try done. intros l. split.
    - intros Hl. by apply elem_of_nil in Hl.
    - intros Hl. by apply in_tree_nil in Hl. }
  destruct (Hbound v) as [Hv Hfuel]; [apply list_elem_of_here|].
  destruct (lookup_lt_is_Some_2 _ _ Hv) as [e He].
  assert (children (hp s) v = obj_values (default [] (dependencies e))) as Hchv.
  { unfold children. by rewrite He. }
  destruct (IH (dependencies e) s log0) as (s1 & seg1 & Hrun1 & Hseg1 & Hlen1 & Hch1).
  { lia. }
  { done. }
  { intros c Hc. rewrite <- Hchv in Hc. destruct (Hord v c Hc). lia. }
  destruct (Hkeeps v s1) as [Hlenw Hchw].
  destruct (IHvs (walker v s1) ((log0 ++ seg1) ++ [v])) as (s' & seg2 & Hrun2 & Hseg2 & Hlen2 & Hch2).
  { intros l c Hc. rewrite Hchw, Hch1 in Hc. rewrite Hlenw, Hlen1. by apply Hord. }
  { intros c Hc. rewrite Hlenw, Hlen1. apply Hbound. by apply list_elem_of_further. }
  exists s', (seg1 ++ [v] ++ seg2). split_and!.
  - assert (heap_get ((hp ∘ fst) (s, log0)) v = Ok e) as Hget.
    { unfold heap_get. cbn [compose fst]. by rewrite He. }
    cbn [foldM]. rewrite Hget.
    cbn [mbind res_bind]. rewrite Hrun1. cbn [mbind res_bind].
    replace (log0 ++ seg1 ++ [v] ++ seg2) with (((log0 ++ seg1) ++ [v]) ++ seg2)
      by (by rewrite <- !app_assoc).
    exact Hrun2.
  - intros l. rewrite !elem_of_app, list_elem_of_singleton, Hseg1, Hseg2, <- Hchv.
    split.
    + intros [H|[->|H]]; apply in_tree_cons_inv; [auto | auto |].
      right; right. eapply in_tree_ext; [|exact H].
      intros x. by rewrite <- Hch1, <- Hchw.
    + intros H. apply in_tree_cons in H as [->|[H|H]]; [auto | auto |].
      right; right. eapply in_tree_ext; [|exact H].
      intros x. by rewrite Hchw, Hch1.
  - lia.
  - intros x. by rewrite Hch2, Hchw, Hch1.
Qed.

Lemma visits_walk n :
  ∀ (deps : option EntryDeps) (s : σ) log0,
    0 < n → ordered (hp s) →
    (∀ c, c ∈ obj_values (default [] deps) →
          c < length (hp s) ∧ length (hp s) - c < n) →
    ∃ s' seg,
      walkEntries (hp ∘ fst) n deps (logged walker) (s, log0) = Ok (s', log0 ++ seg) ∧
      (∀ l, l ∈ seg ↔ in_tree (hp s) (obj_values (default [] deps)) l) ∧
      length (hp s') = length (hp s) ∧
      (∀ x, children (hp s') x = children (hp s) x).
Proof.
  induction n as [|n IH]; intros deps s log0 Hpos Hord Hbound; [lia|].
  destruct deps as [deps|]; cbn [walkEntries default].
  - destruct n as [|n].
    + destruct deps as [|[k v] deps].
      * exists s, []. rewrite app_nil_r. split_and!; try done. intros l. split.
        -- intros Hl. by apply elem_of_nil in Hl.
        -- intros Hl. by apply in_tree_nil in Hl.
      * destruct (Hbound v) as [? ?]; [apply list_elem_of_here | lia].
    + apply visits_loop; [|done|].
      * intros deps' s0 log1 _. by apply IH; lia.
      * intros c Hc. specialize (Hbound c Hc). cbn [default] in Hbound. lia.
  - exists s, []. rewrite app_nil_r. split_and!; try done. intros l. split.
    + intros Hl. by apply elem_of_nil in Hl.
    + intros Hl. by apply in_tree_nil in Hl.
Qed.

(** X7.  On a tree whose entries hold only entries allocated after them,
    [walkEntries] terminates, with fuel above the number of entries, for
    every visitor that leaves the nesting as it is, and it calls the visitor
    on exactly the entries of the tree: on every entry nested at any depth
    under [deps], and on nothing else. *)
Theorem walkEntries_visits_tree (fuel : nat) (deps : option EntryDeps) (s : σ) :
  ordered (hp s) →
  (∀ c, c ∈ obj_values (default [] deps) → c < length (hp s)) →
  length (hp s) < fuel →
  ∃ s' visits,
    walkEntries (hp ∘ fst) fuel deps (logged walker) (s, []) = Ok (s', visits) ∧
    walkEntries hp fuel deps walker s = Ok s' ∧
    ∀ l, l ∈ visits ↔ in_tree (hp s) (obj_values (default [] deps)) l.
Proof.
  intros Hord Htops Hfuel.
  destruct (visits_walk fuel deps s []) as (s' & seg & Hrun & Hseg & _).
  { lia. }
  { done. }
  { intros c Hc. specialize (Htops c Hc). lia. }
  exists s', seg. split_and!; [done | | done].
  by apply (walkEntries_spec hp walker Hkeeps) in Hrun as (_ & _ & ? & _).
Qed.
End WalkVisits.

Lemma ordered_heap_demo : ordered heap_demo.
Proof.
  intros l c Hc. unfold children in Hc.
  do 4 (destruct l as [|l];
        [cbn in Hc; repeat (apply elem_of_cons in Hc as [->|Hc]);
         [cbn; lia.. | by apply elem_of_nil in Hc]|]).
  cbn in Hc. by apply elem_of_nil in Hc.
Qed.

Lemma walkEntries_visits_tree_witness :
  ∃ h' (visits : list loc),
    walkEntries id 5 (Some [("a", 1); ("c", 3)])
      (fun dep h => heap_update dep stripEmpty h) heap_demo = Ok h' ∧
    ∀ l, l ∈ visits ↔ in_tree heap_demo [1; 3] l.
Proof.
  destruct (walkEntries_visits_tree id (fun dep h => heap_update dep stripEmpty h)
              keeps_nesting_stripEmpty 5 (Some [("a", 1); ("c", 3)]) heap_demo)
    as (h' & visits & _ & Hplain & Hvisits).
  - exact ordered_heap_demo.
  - intros c Hc. cbn in Hc. repeat (apply elem_of_cons in Hc as [->|Hc]);
      [cbn; lia.. | by apply elem_of_nil in Hc].
  - cbn. lia.
  - by exists h', visits.
Defined.

(** ** What the cleanup pass leaves alone *)

Section RewritingFrame.
Variables (g : loc → Entry → Entry) (walker : loc → Heap → Heap).
Hypothesis Hg : keeps_children g.
Hypothesis Hwalker : ∀ l h, walker l h = heap_update l (g l) h.

Lemma rewritten_twice (h0 h : Heap) l :
  h !! l = h0 !! l ∨ h !! l = g l <$> h0 !! l →
  g l <$> h !! l = g l <$> h0 !! l.
Proof.
  intros [-> | ->]; [done|]. destruct (h0 !! l); cbn; [|done].
  by rewrite (proj2 (Hg l e)).
Qed.

Lemma frame_loop n vs :
  (∀ (deps : option EntryDeps) (h h' : Heap),
     walkEntries id n deps walker h = Ok h' →
     rewritten g h h' ∧
     ∀ l, h' !! l = h !! l ∨
          (in_tree h (obj_values (default [] deps)) l ∧ h' !! l = g l <$> h !! l)) →
  ∀ h h' : Heap,
    foldM (fun s value =>
             e ← heap_get (id s) value;
             s ← walkEntries id n (dependencies e) walker s;
             Ok (walker value s)) vs h = Ok h' →
    rewritten g h h' ∧
    ∀ l, h' !! l = h !! l ∨ (in_tree h vs l ∧ h' !! l = g l <$> h !! l).
Proof.
  intros IH. induction vs as [|v vs IHvs]; intros h h' Hrun.
  { injection Hrun as <-. split; [apply (rewritten_refl g) | by left]. }
  cbn [foldM] in Hrun. inv_bind_as Hrun h2 Hstep. inv_bind_as Hstep e He.
  inv_bind_as Hstep h1 Hinner. injection Hstep as <-.
  apply heap_get_Ok in He. change (id h) with h in He.
  destruct (IH _ _ _ Hinner) as [Hs1 Hf1]. rewrite Hwalker in Hrun.
  pose proof (rewritten_update g h1 v) as Hs12.
  pose proof (rewritten_trans g Hg _ _ _ Hs1 Hs12) as Hs2.
  destruct (IHvs _ _ Hrun) as [Hs' Hf']. split.
  { by eapply (rewritten_trans g Hg). }
  assert (children h v = obj_values (default [] (dependencies e))) as Hchv.
  { unfold children. by rewrite He. }
  intros l. destruct (Hf' l) as [E|[Hin E]]; rewrite E.
  - rewrite lookup_heap_update. destruct (decide (v = l)) as [->|Hne].
    + right. split; [apply in_tree_top, list_elem_of_here|].
      apply rewritten_twice. destruct (Hf1 l) as [?|[_ ?]]; auto.
    + destruct (Hf1 l) as [?|[Hin ?]]; [by left|]. right. split; [|done].
      apply in_tree_cons_inv. right; left. by rewrite Hchv.
  - right. split.
    + apply in_tree_cons_inv. right; right.
      by apply (rewritten_in_tree g Hg h _ vs l Hs2).
    + apply rewritten_twice. destruct Hs2 as [_ Hs2]. apply Hs2.
Qed.

Lemma frame_walk n :
  ∀ (deps : option EntryDeps) (h h' : Heap),
    walkEntries id n deps walker h = Ok h' →
    rewritten g h h' ∧
    ∀ l, h' !! l = h !! l ∨
         (in_tree h (obj_values (default [] deps)) l ∧ h' !! l = g l <$> h !! l).
Proof.
  induction n as [|n IH]; intros deps h h' Hrun; [done|].
  destruct deps as [deps|]; cbn [walkEntries default] in *.
  - by eapply frame_loop.
  - injection Hrun as <-. split; [apply (rewritten_refl g) | by left].
Qed.
End RewritingFrame.

Lemma stripEmpty_keeps e :
  version (stripEmpty e) = version e ∧ integrity (stripEmpty e) = integrity e ∧
  resolved (stripEmpty e) = resolved e ∧ dev (stripEmpty e) = dev e ∧
  optional (stripEmpty e) = optional e ∧ owner (stripEmpty e) = owner e ∧
  default [] (requires (stripEmpty e)) = default [] (requires e) ∧
  default [] (dependencies (stripEmpty e)) = default [] (dependencies e).
Proof.
  destruct e as [v i r req deps dv op ow]. unfold stripEmpty. cbn.
  destruct deps as [[|? ?]|]; destruct req as [[|? ?]|]; cbn; done.
Qed.

(** X8.  The cleanup pass loses nothing: it keeps the context and the
    number of entries, leaves every entry outside the tree of [rootDeps]
    exactly as it is, and an entry it has changed differs from what it was
    only in that a present-but-empty [requires] or [dependencies] map is
    gone.  Version, integrity, resolved, the flags and every binding of
    either map are as before. *)
Theorem cleanup_only_strips (fuel : nat) (s s' : St) :
  cleanup fuel s = Ok s' →
  ctx s' = ctx s ∧ length (heap s') = length (heap s) ∧
  (∀ l, ¬ in_tree (heap s) (obj_values (rootDeps (ctx s))) l →
        heap s' !! l = heap s !! l) ∧
  ∀ l e, heap s !! l = Some e →
    ∃ e', heap s' !! l = Some e' ∧ (e' = e ∨ e' = stripEmpty e) ∧
          version e' = version e ∧ integrity e' = integrity e ∧
          resolved e' = resolved e ∧ dev e' = dev e ∧
          optional e' = optional e ∧ owner e' = owner e ∧
          default [] (requires e') = default [] (requires e) ∧
          default [] (dependencies e') = default [] (dependencies e).
Proof.
  unfold cleanup. intros Hrun. inv_bind_as Hrun h Hwalk. injection Hrun as <-.
  apply (frame_walk (λ _, stripEmpty) _ keeps_children_stripEmpty (λ _ _, eq_refl))
    in Hwalk as [[Hlen Hs] Hframe].
  cbn [set_heap heap ctx]. split_and!; [done | done | |].
  { intros l Hl. destruct (Hframe l) as [?|[? _]]; done. }
  intros l e He. destruct (Hs l) as [E|E]; rewrite E, He; cbn.
  - exists e. split_and!; auto.
  - exists (stripEmpty e). split; [done|]. split; [by right|]. apply stripEmpty_keeps.
Qed.

Lemma cleanup_only_strips_witness :
  ∃ s s1 s2,
    buildLockfileEntry world_spec 10 (initialState rootDir []) rootDir true = Ok (0, s) ∧
    mergeRootDeps 0 s = Ok s1 ∧ cleanup 10 s1 = Ok s2 ∧
    ctx s2 = ctx s1 ∧ length (heap s2) = length (heap s1).
Proof.
  eexists _, _, _. split_and!.
  - vm_compute. reflexivity.
  - vm_compute. reflexivity.
  - vm_compute. reflexivity.
  - eapply (cleanup_only_strips 10). vm_compute. reflexivity.
  - eapply (cleanup_only_strips 10). vm_compute. reflexivity.
Defined.

(** X9.  The cleanup pass is idempotent: on a tree whose entries hold only
    entries allocated after them it returns, with fuel above the number of
    entries, and a second pass over its result changes nothing. *)
Theorem cleanup_idempotent (fuel : nat) (s : St) :
  ordered (heap s) →
  (∀ c, c ∈ obj_values (rootDeps (ctx s)) → c < length (heap s)) →
  length (heap s) < fuel →
  ∃ s', cleanup fuel s = Ok s' ∧ cleanup fuel s' = Ok s'.
Proof.
  intros Hord Htops Hfuel. unfold cleanup.
  pose proof (rewriting_walk (λ _, stripEmpty)
                (fun dep h => heap_update dep stripEmpty h)
                keeps_children_stripEmpty (λ _ _, eq_refl) fuel) as Hwalk.
  destruct (Hwalk (Some (rootDeps (ctx s))) (heap s)) as (h1 & Hrun1 & Hs1 & Hdone1).
  { lia. }
  { done. }
  { intros c Hc. specialize (Htops c Hc). lia. }
  rewrite Hrun1. cbn [mbind res_bind]. eexists. split; [done|].
  cbn [set_heap heap ctx].
  destruct (Hwalk (Some (rootDeps (ctx s))) h1) as (h2 & Hrun2 & Hs2 & Hdone2).
  { lia. }
  { by eapply (rewritten_ordered (λ _, stripEmpty) keeps_children_stripEmpty). }
  { intros c Hc. destruct Hs1 as [-> _]. specialize (Htops c Hc). lia. }
  rewrite Hrun2. cbn [mbind res_bind]. assert (h2 = h1) as ->; [|done].
  apply (frame_walk (λ _, stripEmpty) _ keeps_children_stripEmpty (λ _ _, eq_refl))
    in Hrun2 as [_ Hframe].
  apply list_eq. intros l. destruct (Hframe l) as [E|[Hin E]]; [done|].
  rewrite E, (Hdone1 l).
  2:{ by apply (rewritten_in_tree (λ _, stripEmpty) keeps_children_stripEmpty
                  (heap s) h1). }
  destruct (heap s !! l); cbn; [|done]. by rewrite stripEmpty_idemp.
Qed.

Lemma cleanup_idempotent_witness :
  ∃ s', cleanup 5 st_demo = Ok s' ∧ cleanup 5 s' = Ok s'.
Proof.
  apply (cleanup_idempotent 5 st_demo).
  - exact ordered_heap_demo.
  - intros c Hc. cbn in Hc. repeat (apply elem_of_cons in Hc as [->|Hc]);
      [cbn; lia.. | by apply elem_of_nil in Hc].
  - cbn. lia.
Defined.

(** ** The entries [walkNonSubsetDeps] hands to its visitor *)



(** ** The two classification passes *)

Lemma same_graph_sym h h' : same_graph h h' → same_graph h' h.
Proof.
  intros [Hlen H]. split; [done|]. intros l e' He'.
  assert (l < length h) as Hl by (rewrite <- Hlen; by eapply lookup_lt_Some).
  destruct (lookup_lt_is_Some_2 _ _ Hl) as [e He].
  destruct (H l e He) as (e'' & He'' & ? & ? & ?). simplify_eq. by exists e.
Qed.

Lemma same_graph_of_rewritten mark h h' :
  keeps_graph mark → rewritten (λ _, mark) h h' → same_graph h h'.
Proof.
  intros Hmark [Hlen H]. split; [done|]. intros l e He.
  destruct (H l) as [E|E]; rewrite E, He; cbn.
  - by exists e.
  - exists (mark e). split; [done|]. apply Hmark.
Qed.

Lemma same_graph_children h h' x : same_graph h h' → children h' x = children h x.
Proof.
  intros [Hlen H]. unfold children. destruct (h !! x) as [e|] eqn:He.
  - destruct (H x e He) as (e' & -> & _ & -> & _). done.
  - rewrite (proj2 (lookup_ge_None h' x)); [done|].
    rewrite Hlen. by apply lookup_ge_None.
Qed.

Lemma same_graph_ordered h h' : same_graph h h' → ordered h → ordered h'.
Proof.
  intros Hs Ho l c Hc. rewrite (same_graph_children _ _ _ Hs) in Hc.
  destruct Hs as [-> _]. auto.
Qed.

Lemma same_graph_in_tree h h' tops l :
  same_graph h h' → in_tree h tops l → in_tree h' tops l.
Proof. intros Hs. apply in_tree_ext. intros x. by apply same_graph_children. Qed.

Lemma same_graph_ownerChain h h' o chain :
  same_graph h h' → ownerChain h o chain → ownerChain h' o chain.
Proof.
  intros [_ H]. induction 1 as [|l e ls He _ IH]; [constructor|].
  destruct (H l e He) as (e' & He' & _ & _ & Ho).
  econstructor; [exact He'|]. by rewrite Ho.
Qed.

Lemma same_graph_provides h h' container depName :
  same_graph h h' → provides h' container depName = provides h container depName.
Proof.
  intros [Hlen H]. unfold provides. destruct (h !! container) as [e|] eqn:He.
  - destruct (H _ e He) as (e' & -> & _ & Hd & _). cbn. by rewrite Hd.
  - rewrite (proj2 (lookup_ge_None h' container)); [done|].
    rewrite Hlen. by apply lookup_ge_None.
Qed.

Lemma same_graph_nearest h h' chain depName :
  same_graph h h' → nearest h' chain depName = nearest h chain depName.
Proof.
  intros Hs. induction chain as [|c chain IH]; [done|]. cbn [nearest].
  by rewrite (same_graph_provides h h'), IH.
Qed.

Lemma same_graph_requires_edge h h' e t :
  same_graph h h' → requires_edge h e t → requires_edge h' e t.
Proof.
  intros Hs (rec & depName & He & Hk & chain & Hchain & Hnear).
  destruct (proj2 Hs _ _ He) as (rec' & He' & Hreq & _).
  exists rec', depName. split_and!; [done | by rewrite Hreq |].
  exists chain. split; [by eapply same_graph_ownerChain|].
  by rewrite (same_graph_nearest h h').
Qed.

Lemma same_graph_reachable_from h h' rdeps subset x :
  same_graph h h' → reachable_from h rdeps subset x → reachable_from h' rdeps subset x.
Proof.
  intros Hs (depName & entry & Hk & Hget & Hrtc). exists depName, entry.
  split_and!; [done | done |].
  eapply rtc_subrel; [|exact Hrtc]. intros a b. by apply same_graph_requires_edge.
Qed.

Lemma same_graph_bound h h' B :
  same_graph h h' →
  (∀ l, l < length h → ∃ chain, ownerChain h (Some l) chain ∧ length chain ≤ B) →
  ∀ l, l < length h' → ∃ chain, ownerChain h' (Some l) chain ∧ length chain ≤ B.
Proof.
  intros Hs HB l Hl. destruct (HB l) as (chain & Hchain & Hlen).
  { by rewrite <- (proj1 Hs). }
  exists chain. split; [by eapply same_graph_ownerChain | done].
Qed.

Section ClassificationBound.
Variables (c : BuildContext) (h : Heap) (r : loc) (rootEntry : Entry)
  (rdeps : EntryDeps) (mark : Entry → Entry) (B : nat).
Hypothesis Hroot : root c = Some r.
Hypothesis Hr : h !! r = Some rootEntry.
Hypothesis Hrdeps : dependencies rootEntry = Some rdeps.
Hypothesis HB :
  ∀ l, l < length h → ∃ chain, ownerChain h (Some l) chain ∧ length chain ≤ B.
Hypothesis Hord : ordered h.
Hypothesis Htops : ∀ x, x ∈ obj_values rdeps → x < length h.
Hypothesis Hmark : keeps_children (λ _, mark).

Lemma classifies_bound subset fuel :
  B + length h < fuel →
  walkNonSubsetDeps fuel c h subset (fun e h => heap_update e mark h) ≠ OutOfFuel ∧
  ∀ h', walkNonSubsetDeps fuel c h subset (fun e h => heap_update e mark h) = Ok h' →
        rewritten (λ _, mark) h h' ∧
        ∀ l, in_tree h (obj_values rdeps) l →
             (reachable_from h rdeps subset l → h' !! l = h !! l) ∧
             (¬ reachable_from h rdeps subset l → h' !! l = mark <$> h !! l).
Proof.
  intros Hfuel.
  assert (owners_wf h) as Hwf.
  { intros l Hl. destruct (HB l Hl) as (chain & ? & _). by exists chain. }
  unfold walkNonSubsetDeps, heap_get. rewrite Hroot, Hr. cbn [mbind res_bind].
  rewrite Hrdeps.
  destruct (foldM _ subset []) as [reached| |] eqn:Hloop; cbn [mbind res_bind].
  2:{ done. }
  2:{ exfalso. eapply (subset_loop_fuel c h rdeps Hwf B fuel); [done | | exact Hloop]. lia. }
  pose proof (subset_loop_reached c h rdeps Hwf _ _ _ _ Hloop) as Hreached.
  set (g := λ l e, if decide (l ∈ reached) then e else mark e).
  assert (keeps_children g) as Hg.
  { intros l e. unfold g. destruct (decide (l ∈ reached)); [done | exact (Hmark l e)]. }
  destruct (rewriting_walk g
              (fun e h => if decide (e ∈ reached) then h else heap_update e mark h)
              Hg) with (n := fuel) (deps := Some rdeps) (h := h)
    as (h' & Hwalk & [Hlen Hs] & Hdone).
  { intros l h0. unfold g. destruct (decide (l ∈ reached)); [|done].
    by rewrite heap_update_id. }
  { lia. }
  { done. }
  { intros x Hx. specialize (Htops x Hx). lia. }
  rewrite Hwalk. split; [done|]. intros h'' [= <-]. split.
  { split; [done|]. intros l. destruct (Hs l) as [?|E]; [by left|]. rewrite E.
    unfold g. destruct (decide (l ∈ reached)); [left | right]; by destruct (h !! l). }
  intros l Hl. rewrite (Hdone l Hl). unfold g.
  assert (l ∈ reached ↔ reachable_from h rdeps subset l) as Hiff.
  { rewrite Hreached. split; [|auto]. intros [Hx|?]; [by apply elem_of_nil in Hx | done]. }
  destruct (decide (l ∈ reached)) as [Hin|Hnin].
  - split; [|tauto]. intros _. by destruct (h !! l).
  - split; [tauto | done].
Qed.
End ClassificationBound.

Lemma keeps_graph_children mark : keeps_graph mark → (∀ e, mark (mark e) = mark e) →
  keeps_children (λ _, mark).
Proof.
  intros Hk Hi l e. split; [|apply Hi]. by rewrite (proj1 (proj2 (Hk e))).
Qed.



(** ** What [generateLockfile] returns *)


(** ** Scope resolution on the builder's trees *)



(** ** Builds that succeed *)

(** X14.  On a finite installation in which every directory the builder
    can come to has a readable manifest and the locator never fails with
    anything but "not found", the build returns a tree, with the root entry
    first: uninstalled modules and cyclic requirements are no obstacle. *)
Theorem buildLockfileEntry_succeeds (W : World) (dirs : list Dir) (fuel : nat)
    (dir packagesDir : Dir) (includeDev : bool) :
  (∀ d, reachable_dir W dir d →
        d ∈ dirs ∧ read W d ≠ None ∧ ∀ packageName, locate W d packageName ≠ Failed) →
  length dirs ≤ fuel →
  ∃ s, buildLockfileEntry W fuel (initialState dir packagesDir) dir includeDev
       = Ok (0, s).
Proof.
  intros Hgood Hfuel.
  destruct (buildLockfileEntry W fuel (initialState dir packagesDir) dir includeDev)
    as [[e s]|err|] eqn:Hrun.
  - apply build_run_inv in Hrun as (_ & -> & _). by exists s.
  - exfalso. apply buildLockfileEntry_throws in Hrun;
      [| apply initialState_inv | apply not_elem_of_nil].
    destruct Hrun as [(_ & d & Hd & Hread)|(_ & d & k & Hd & Hfail)].
    + by destruct (Hgood d Hd) as (_ & ? & _).
    + destruct (Hgood d Hd) as (_ & _ & Hk). by apply (Hk k).
  - exfalso. eapply (buildLockfileEntry_fuel W dir dirs); [| | | | |exact Hrun].
    + intros d Hd. by destruct (Hgood d Hd).
    + apply initialState_inv.
    + apply rtc_refl.
    + apply not_elem_of_nil.
    + unfold unvisited.
      pose proof (length_filter (λ d, d ∉ visited (ctx (initialState dir packagesDir))) dirs).
      lia.
Qed.

Lemma buildLockfileEntry_succeeds_witness :
  ∃ s, buildLockfileEntry world_spec 4 (initialState rootDir []) rootDir true = Ok (0, s).
Proof.
  apply (buildLockfileEntry_succeeds world_spec
           [rootDir; modulesOf rootDir "a"; modulesOf rootDir "b";
            modulesOf rootDir "c"]).
  - intros d Hd. pose proof (tableWorld_reachable _ _ _ _ Hd) as Hin.
    split_and!; [exact Hin | | intros k; apply tableWorld_never_fails].
    cbn in Hin. repeat (apply elem_of_cons in Hin as [->|Hin]);
      [done.. | by apply elem_of_nil in Hin].
  - cbn. lia.
Defined.

(** ** Every entry was required *)

Section Required.
Variable W : World.
Variable includeDev0 : bool.

Lemma required_by_mono s s' d' l' d :
  (∀ x, x ∈ moduleDirs (ctx s) → x ∈ moduleDirs (ctx s')) →
  required_by W includeDev0 s d' l' d → required_by W includeDev0 s' d' l' d.
Proof. intros Hmono [Hin H]. split; [by apply Hmono | done]. Qed.

Lemma required_inv_ctx s s' :
  moduleDirs (ctx s') = moduleDirs (ctx s) →
  required_inv W includeDev0 s → required_inv W includeDev0 s'.
Proof.
  intros Heq H d l Hin Hl. rewrite Heq in Hin.
  destruct (H d l Hin Hl) as (d' & l' & Hlt & Hreq). exists d', l'.
  split; [done|]. eapply required_by_mono; [|done]. intros x. by rewrite Heq.
Qed.

Lemma buildDep_required rec dir entry req s depName s' :
  build_ok rec → required_ok W includeDev0 rec → build_inv s →
  required_inv W includeDev0 s →
  (dir, entry) ∈ moduleDirs (ctx s) →
  getRequires W dir (if decide (entry = 0) then includeDev0 else false) = Ok req →
  depName ∈ obj_keys req →
  buildDep W rec dir entry s depName = Ok s' →
  required_inv W includeDev0 s'.
Proof.
  intros Hok Hrec Hinv Hreq Hentry Hget Hk Hrun.
  unfold buildDep, resolvePackageLocation in Hrun.
  destruct (locate W dir depName) as [a| |] eqn:Ha; cbn [mbind res_bind] in Hrun;
    [|done|done].
  destruct (decide (a ∈ visited (ctx s))) as [Hin|Hnin].
  { by injection Hrun as <-. }
  destruct (chooseTarget_inv s a Hinv) as (t & Ht & d & Hd & Hvalid).
  rewrite Ht in Hrun. cbn [fst snd] in Hrun. rewrite Hd in Hrun.
  cbn [mbind res_bind] in Hrun.
  destruct (obj_get d depName) as [depEntry|] eqn:Hbound.
  { injection Hrun as <-. by eapply required_inv_ctx. }
  inv_bind_as Hrun r Hr. destruct r as [depEntry s2]. cbn [fst snd] in Hrun.
  inv_bind_as Hrun d2 Hd2. injection Hrun as <-.
  eapply (required_inv_ctx s2).
  { cbn [record_resolve set_ctx ctx set_resolves moduleDirs].
    by rewrite moduleDirs_target_write. }
  pose proof (moduleDirs_lt s dir entry Hinv Hentry) as Hlt.
  eapply Hrec; [done | done | done | | | exact Hr].
  - destruct (decide (length (heap s) = 0)); [lia | done].
  - intros _. exists dir, entry. split; [done|]. split; [done|].
    by exists depName, req.
Qed.

Lemma buildDeps_required rec dir entry req ks s s' :
  build_ok rec → grow_ok rec → required_ok W includeDev0 rec → build_inv s →
  required_inv W includeDev0 s →
  (dir, entry) ∈ moduleDirs (ctx s) →
  getRequires W dir (if decide (entry = 0) then includeDev0 else false) = Ok req →
  (∀ k, k ∈ ks → k ∈ obj_keys req) →
  foldM (buildDep W rec dir entry) ks s = Ok s' →
  required_inv W includeDev0 s'.
Proof.
  intros Hok Hgrow Hrec. revert s.
  induction ks as [|k ks IH]; intros s Hinv Hreq Hentry Hget Hks Hrun.
  - by injection Hrun as <-.
  - cbn [foldM] in Hrun. inv_bind_as Hrun s1 Hstep.
    pose proof (buildDep_required _ _ _ _ _ _ _ Hok Hrec Hinv Hreq Hentry Hget
                  (Hks k (list_elem_of_here _ _)) Hstep) as Hreq1.
    pose proof (buildDep_grows W _ _ _ _ _ _ Hgrow Hstep) as [new Hnew].
    apply buildDep_inv in Hstep as (Hinv1 & _ & _); [|done|done].
    apply (IH s1); [done | done | | done | | done].
    + rewrite Hnew. apply elem_of_app. by right.
    + intros k' Hk'. by apply Hks, list_elem_of_further.
Qed.

Lemma buildLockfileEntry_required fuel :
  required_ok W includeDev0 (buildLockfileEntry W fuel).
Proof.
  induction fuel as [|fuel IH]; intros s dir b e s' Hinv Hnin Hreq Hb Hcaller Hrun;
    [done|].
  cbn [buildLockfileEntry] in Hrun. inv_bind_as Hrun m Hread.
  inv_bind_as Hrun req Hget. inv_bind_as Hrun s1 Hloop. injection Hrun as <- <-.
  refine (buildDeps_required _ _ _ req _ _ _ (buildLockfileEntry_ok W fuel)
            (buildLockfileEntry_grows W fuel) IH _ _ _ _ _ Hloop).
  - by apply register_inv.
  - intros d l Hin Hl. cbn [ctx register moduleDirs] in Hin.
    apply elem_of_cons in Hin as [[= -> ->]|Hin].
    + destruct (Hcaller Hl) as (d' & l' & Hlt & Hby). exists d', l'.
      split; [done|]. eapply required_by_mono; [|done].
      intros x Hx. cbn [ctx register moduleDirs]. by apply list_elem_of_further.
    + destruct (Hreq d l Hin Hl) as (d' & l' & Hlt & Hby). exists d', l'.
      split; [done|]. eapply required_by_mono; [|done].
      intros x Hx. cbn [ctx register moduleDirs]. by apply list_elem_of_further.
  - cbn [ctx register moduleDirs]. apply list_elem_of_here.
  - by rewrite <- Hb.
  - done.
Qed.

(** X15.  The tree a build returns holds no spurious entry: every entry
    but the root's was required by an entry created before it, whose
    [requires] map (what [getRequires] returns for its directory) lists a
    name that the locator finds, from that directory, at the entry's own
    directory.  So every directory the build has visited can be come to from
    the start directory through the locator. *)
Theorem entries_are_required (fuel : nat) (dir packagesDir : Dir) (e : loc) (s : St) :
  buildLockfileEntry W fuel (initialState dir packagesDir) dir includeDev0 = Ok (e, s) →
  (∀ d l, (d, l) ∈ moduleDirs (ctx s) → l ≠ 0 →
     ∃ d' l' depName req,
       (d', l') ∈ moduleDirs (ctx s) ∧ l' < l ∧
       getRequires W d' (if decide (l' = 0) then includeDev0 else false) = Ok req ∧
       depName ∈ obj_keys req ∧ locate W d' depName = Found d) ∧
  (∀ d, d ∈ visited (ctx s) → reachable_dir W dir d).
Proof.
  intros Hrun.
  assert (required_inv W includeDev0 (initialState dir packagesDir)) as Hr0.
  { intros d l Hin. by apply elem_of_nil in Hin. }
  pose proof (buildLockfileEntry_required fuel _ _ _ _ _
                (initialState_inv dir packagesDir) (not_elem_of_nil _) Hr0 eq_refl
                (λ H, False_ind _ (H eq_refl)) Hrun) as Hreq.
  pose proof (buildLockfileEntry_grows W fuel _ _ _ _ _ Hrun) as [new Hnew].
  apply buildLockfileEntry_ok in Hrun as (Hinv & -> & _);
    [| apply initialState_inv | apply not_elem_of_nil].
  assert ((dir, 0) ∈ moduleDirs (ctx s)) as Hroot.
  { rewrite Hnew. apply elem_of_app. right. apply list_elem_of_here. }
  split.
  - intros d l Hin Hl. destruct (Hreq d l Hin Hl) as (d' & l' & Hlt & Hd' & k & req & ?).
    by exists d', l', k, req.
  - assert (∀ n d l, l < n → (d, l) ∈ moduleDirs (ctx s) → reachable_dir W dir d)
      as Hreach.
    { induction n as [|n IH]; intros d l Hl Hin; [lia|].
      destruct (decide (l = 0)) as [->|Hne].
      - rewrite (moduleDirs_entry_dir s d dir 0 Hinv Hin Hroot). apply rtc_refl.
      - destruct (Hreq d l Hin Hne) as (d' & l' & Hlt & Hd' & k & req & _ & _ & Hk).
        eapply rtc_r; [apply (IH d' l'); [lia | done]|]. by exists k. }
    intros d Hd. destruct Hinv as (_ & Hvis & _). rewrite Hvis in Hd.
    apply list_elem_of_fmap in Hd as ([d0 l] & -> & Hin).
    apply (Hreach (S l) d0 l); [lia | done].
Qed.
End Required.

Lemma entries_are_required_witness :
  ∃ s,
    buildLockfileEntry world_spec 10 (initialState rootDir []) rootDir true = Ok (0, s) ∧
    ∀ d, d ∈ visited (ctx s) → reachable_dir world_spec rootDir d.
Proof.
  eexists. split; [vm_compute; reflexivity|].
  edestruct (entries_are_required world_spec true 10 rootDir [] 0) as [_ H];
    [vm_compute; reflexivity|].
  exact H.
Defined.

(** ** No entry is bound twice *)

Lemma obj_values_set_NoDup {V} (o : Obj V) k v :
  NoDup (obj_values o) → v ∉ obj_values o → NoDup (obj_values (obj_set o k v)).
Proof.
  unfold obj_values. induction o as [|[k0 v0] o IH]; cbn [obj_set map snd].
  - intros _ _. apply NoDup_singleton.
  - rewrite NoDup_cons, not_elem_of_cons. intros [Hv0 Hnd] [Hne Hv].
    destruct (decide (k0 = k)) as [->|Hk]; cbn [map snd]; apply NoDup_cons.
    + done.
    + split; [|by apply IH]. intros Hin.
      apply (obj_values_set_subset o k v v0) in Hin as [->|?]; done.
Qed.

Lemma holds_lt s p c : build_inv s → holds s p c → c < length (heap s).
Proof.
  intros Hinv Hc. destruct p as [l|]; cbn [holds] in Hc.
  - by destruct (children_lt s l c Hinv Hc).
  - destruct Hinv as (_ & _ & _ & _ & _ & Hvals & _). auto.
Qed.

Lemma holds_target_write s t d2 k v p c :
  target_deps s t = Ok d2 →
  holds (target_write t (obj_set d2 k v) s) p c →
  holds s p c ∨ (p = pos_of t ∧ c = v).
Proof.
  intros Hd2 Hc. destruct p as [l|]; cbn [holds] in *.
  - apply children_target_write in Hc as [?|[-> Hc]]; [by left|].
    apply obj_values_set_subset in Hc as [->|Hc]; [by right|]. left.
    cbn [target_deps] in Hd2. inv_bind_as Hd2 en Hen. apply heap_get_Ok in Hen.
    unfold children. rewrite Hen. by destruct (dependencies en); simplify_eq.
  - destruct t as [|tl]; cbn [target_write set_ctx set_heap ctx set_rootDeps rootDeps] in Hc.
    + cbn [target_deps] in Hd2. injection Hd2 as <-.
      apply obj_values_set_subset in Hc as [->|Hc]; [by right | by left].
    + by left.
Qed.

Lemma children_target_write_same s l d0 d :
  target_deps s (TEntry l) = Ok d0 →
  children (heap (target_write (TEntry l) d s)) l = obj_values d.
Proof.
  cbn [target_deps target_write set_heap heap]. intros Hd0.
  inv_bind_as Hd0 en Hen. apply heap_get_Ok in Hen.
  unfold children. rewrite lookup_heap_update, decide_True by done.
  by rewrite Hen.
Qed.

Lemma children_target_write_other s t d l :
  t ≠ TEntry l →
  children (heap (target_write t d s)) l = children (heap s) l.
Proof.
  intros Hne. destruct t as [|tl]; cbn [target_write set_ctx set_heap heap]; [done|].
  unfold children. rewrite lookup_heap_update, decide_False; [done|]. congruence.
Qed.

Lemma held_once_target_write s t d2 k v :
  held_once s → target_deps s t = Ok d2 → (∀ p, ¬ holds s p v) →
  held_once (target_write t (obj_set d2 k v) s).
Proof.
  intros (Hroot & Hch & Huniq) Hd2 Hfresh. split_and!.
  - destruct t as [|tl]; cbn [target_write set_ctx set_heap ctx set_rootDeps rootDeps];
      [|done].
    cbn [target_deps] in Hd2. injection Hd2 as <-.
    apply obj_values_set_NoDup; [done|]. exact (Hfresh None).
  - intros l. destruct t as [|tl].
    + by rewrite children_target_write_other.
    + destruct (decide (tl = l)) as [->|Hne].
      * rewrite (children_target_write_same s l d2) by done.
        specialize (Hch l). pose proof (Hfresh (Some l)) as Hv. cbn [holds] in Hv.
        cbn [target_deps] in Hd2. inv_bind_as Hd2 en Hen. apply heap_get_Ok in Hen.
        unfold children in Hch, Hv. rewrite Hen in Hch, Hv.
        destruct (dependencies en); simplify_eq. by apply obj_values_set_NoDup.
      * rewrite children_target_write_other by congruence. apply Hch.
  - intros p1 p2 c H1 H2.
    destruct (holds_target_write s t d2 k v p1 c Hd2 H1) as [H1'|[E1 Ec1]];
      destruct (holds_target_write s t d2 k v p2 c Hd2 H2) as [H2'|[E2 Ec2]].
    + by eapply Huniq.
    + subst. by destruct (Hfresh _ H1').
    + subst. by destruct (Hfresh _ H2').
    + congruence.
Qed.

Section HeldOnce.
Variable W : World.

Lemma buildDep_held rec dir entry s depName s' :
  build_ok rec → held_ok rec → build_inv s → held_once s →
  buildDep W rec dir entry s depName = Ok s' →
  held_once s' ∧ binds_from (length (heap s)) s s'.
Proof.
  intros Hok Hrec Hinv Hheld Hrun. unfold buildDep in Hrun. inv_bind Hrun.
  destruct (decide (a ∈ visited (ctx s))) as [Hin|Hnin].
  { injection Hrun as <-. split; [done|]. intros p c ?. by left. }
  destruct (chooseTarget_inv s a Hinv) as (t & Ht & d & Hd & Hvalid).
  rewrite Ht in Hrun. cbn [fst snd] in Hrun. rewrite Hd in Hrun.
  cbn [mbind res_bind] in Hrun.
  destruct (obj_get d depName) as [depEntry|] eqn:Hget.
  { injection Hrun as <-. split; [done|]. intros p c ?. by left. }
  inv_bind_as Hrun r Hr. destruct r as [depEntry s2]. cbn [fst snd] in Hrun.
  inv_bind_as Hrun d2 Hd2. injection Hrun as <-.
  destruct (Hok _ _ _ _ _ Hinv Hnin Hr) as (Hinv2 & -> & Hlt & _).
  destruct (Hrec _ _ _ _ _ Hinv Hnin Hheld Hr) as [Hheld2 Hfrom2].
  assert (∀ p, ¬ holds s2 p (length (heap s))) as Hfresh.
  { intros p Hp. destruct (Hfrom2 p _ Hp) as [Hp'|?]; [|lia].
    pose proof (holds_lt s p _ Hinv Hp'). lia. }
  split.
  - by apply (held_once_target_write s2 t d2 depName (length (heap s))).
  - intros p c Hc.
    apply (holds_target_write s2 t d2 depName (length (heap s)) p c Hd2)
      in Hc as [Hc|[_ ->]]; [|by right].
    destruct (Hfrom2 p c Hc) as [?|?]; [by left | right; lia].
Qed.

Lemma buildDeps_held rec dir entry ks s s' :
  build_ok rec → held_ok rec → build_inv s → held_once s →
  foldM (buildDep W rec dir entry) ks s = Ok s' →
  held_once s' ∧ binds_from (length (heap s)) s s'.
Proof.
  intros Hok Hrec. revert s. induction ks as [|k ks IH]; intros s Hinv Hheld Hrun.
  - injection Hrun as <-. split; [done|]. intros p c ?. by left.
  - cbn [foldM] in Hrun. inv_bind_as Hrun s1 Hstep.
    destruct (buildDep_held _ _ _ _ _ _ Hok Hrec Hinv Hheld Hstep) as [Hheld1 Hfrom1].
    apply buildDep_inv in Hstep as (Hinv1 & Hlen1 & _); [|done|done].
    destruct (IH s1 Hinv1 Hheld1 Hrun) as [Hheld' Hfrom']. split; [done|].
    intros p c Hc. destruct (Hfrom' p c Hc) as [Hc1|?]; [|right; lia].
    apply Hfrom1 in Hc1 as [?|?]; [by left | by right].
Qed.

Lemma holds_register s dir m (req : Obj string) p c :
  holds {| heap := heap s ++ [newEntry m req];
           ctx := register dir (length (heap s)) (ctx s) |} p c ↔ holds s p c.
Proof.
  destruct p as [l|]; cbn [holds heap ctx register rootDeps]; [|done].
  unfold children. destruct (decide (l < length (heap s))) as [Hlt|Hge].
  - by rewrite lookup_app_l.
  - rewrite lookup_app_r by lia. rewrite (proj2 (lookup_ge_None (heap s) l)) by lia.
    by destruct (l - length (heap s)) as [|[|?]].
Qed.

Lemma register_held s dir m (req : Obj string) :
  held_once s →
  held_once {| heap := heap s ++ [newEntry m req];
               ctx := register dir (length (heap s)) (ctx s) |}.
Proof.
  intros (Hroot & Hch & Huniq). split_and!.
  - done.
  - intros l. specialize (Hch l). cbn [heap]. unfold children in *.
    destruct (decide (l < length (heap s))) as [Hlt|Hge].
    + by rewrite lookup_app_l.
    + rewrite lookup_app_r by lia.
      destruct (l - length (heap s)) as [|[|?]]; cbn; apply NoDup_nil_2.
  - intros p1 p2 c H1 H2. apply holds_register in H1, H2. by eapply Huniq.
Qed.

Lemma buildLockfileEntry_held fuel : held_ok (buildLockfileEntry W fuel).
Proof.
  induction fuel as [|fuel IH]; intros s dir b e s' Hinv Hnin Hheld Hrun; [done|].
  cbn [buildLockfileEntry] in Hrun. inv_bind_as Hrun m Hread.
  inv_bind_as Hrun req Hreq. inv_bind_as Hrun s1 Hloop. injection Hrun as <- <-.
  destruct (buildDeps_held _ _ _ _ _ _ (buildLockfileEntry_ok W fuel) IH
              (register_inv s dir m req Hinv Hnin)
              (register_held s dir m req Hheld) Hloop) as [Hheld1 Hfrom1].
  split; [done|]. intros p c Hc. destruct (Hfrom1 p c Hc) as [Hc0|Hge].
  - left. by apply holds_register in Hc0.
  - right. cbn [heap] in Hge. rewrite length_app in Hge. cbn [length] in Hge. lia.
Qed.

(** X16.  In the state a build returns no entry is bound twice: the
    top-level map and the [dependencies] map of every entry bind an entry
    under at most one name, and no entry is bound in two of these maps.  The
    nested entries form a forest. *)
Theorem entries_held_once (fuel : nat) (dir packagesDir : Dir)
    (includeDev : bool) (e : loc) (s : St) :
  buildLockfileEntry W fuel (initialState dir packagesDir) dir includeDev = Ok (e, s) →
  NoDup (obj_values (rootDeps (ctx s))) ∧
  (∀ l, NoDup (children (heap s) l)) ∧
  (∀ l1 l2 c, c ∈ children (heap s) l1 → c ∈ children (heap s) l2 → l1 = l2) ∧
  (∀ l c, c ∈ children (heap s) l → c ∉ obj_values (rootDeps (ctx s))) ∧
  (∀ p, ¬ holds s p e).
Proof.
  intros Hrun.
  assert (held_once (initialState dir packagesDir)) as H0.
  { split_and!.
    - apply NoDup_nil_2.
    - intros l. apply NoDup_nil_2.
    - intros [l1|] p2 c H1; cbn in H1; by apply elem_of_nil in H1. }
  destruct (buildLockfileEntry_held fuel _ _ _ _ _
              (initialState_inv dir packagesDir) (not_elem_of_nil _) H0 Hrun)
    as [(Hroot & Hch & Huniq) Hfrom].
  apply buildLockfileEntry_ok in Hrun as (_ & -> & _);
    [| apply initialState_inv | apply not_elem_of_nil].
  split_and!; [done | done | | |].
  - intros l1 l2 c H1 H2.
    pose proof (Huniq (Some l1) (Some l2) c H1 H2) as Heq. by injection Heq.
  - intros l c H1 H2. by pose proof (Huniq (Some l) None c H1 H2).
  - intros p Hp. destruct (Hfrom p _ Hp) as [Hp0|Hge]; [|cbn in Hge; lia].
    destruct p; cbn in Hp0; by apply elem_of_nil in Hp0.
Qed.
End HeldOnce.

Lemma entries_held_once_witness :
  ∃ s,
    buildLockfileEntry world_spec 10 (initialState rootDir []) rootDir true = Ok (0, s) ∧
    NoDup (obj_values (rootDeps (ctx s))) ∧ ∀ l, NoDup (children (heap s) l).
Proof.
  eexists. split; [vm_compute; reflexivity|].
  edestruct (entries_held_once world_spec 10 rootDir [] true 0) as (H1 & H2 & _);
    [vm_compute; reflexivity|].
  split; [exact H1 | exact H2].
Defined.

(** ** The walk over a forest visits every entry once *)

Lemma in_tree_children_gt h v l :
  ordered h → in_tree h (children h v) l → v < l.
Proof.
  intros Hord. induction 1 as [l Hl|p l _ IH Hl].
  - by destruct (Hord v l Hl).
  - destruct (Hord p l Hl). lia.
Qed.

Lemma in_tree_weaken h (tops tops' : list loc) l :
  (∀ x, x ∈ tops → in_tree h tops' x) → in_tree h tops l → in_tree h tops' l.
Proof.
  intros Hsub. induction 1 as [l Hl|p l _ IH Hl]; [by apply Hsub|].
  by eapply in_tree_child.
Qed.

Lemma forest_ext h h' tops :
  (∀ x, children h' x = children h x) → forest h tops → forest h' tops.
Proof.
  intros Hch (Hnd & Hchn & Htop & Huniq).
  assert (∀ l, in_tree h' tops l → in_tree h tops l) as Hback.
  { intros l. apply in_tree_ext. intros x. by rewrite Hch. }
  split_and!.
  - done.
  - intros l Hl. rewrite Hch. auto.
  - intros l c Hl Hc. rewrite Hch in Hc. eauto.
  - intros l1 l2 c H1 H2 Hc1 Hc2. rewrite Hch in Hc1, Hc2. eauto.
Qed.

Lemma forest_tail h v vs : forest h (v :: vs) → forest h vs.
Proof.
  intros (Hnd & Hchn & Htop & Huniq).
  assert (∀ l, in_tree h vs l → in_tree h (v :: vs) l) as Hup.
  { intros l. apply in_tree_weaken. intros x Hx.
    by apply in_tree_top, list_elem_of_further. }
  apply NoDup_cons in Hnd as [_ Hnd]. split_and!.
  - done.
  - auto.
  - intros l c Hl Hc Hin. eapply Htop; [by apply Hup | done |].
    by apply list_elem_of_further.
  - intros l1 l2 c H1 H2. apply Huniq; auto.
Qed.

Lemma forest_children h v vs :
  ordered h → forest h (v :: vs) → forest h (children h v).
Proof.
  intros Hord (Hnd & Hchn & Htop & Huniq).
  assert (in_tree h (v :: vs) v) as Hv by apply in_tree_top, list_elem_of_here.
  assert (∀ l, in_tree h (children h v) l → in_tree h (v :: vs) l) as Hup.
  { intros l Hl. apply in_tree_cons_inv. auto. }
  split_and!.
  - auto.
  - auto.
  - intros l c Hl Hc Hin.
    pose proof (Huniq l v c (Hup l Hl) Hv Hc Hin) as ->.
    pose proof (in_tree_children_gt h v v Hord Hl). lia.
  - intros l1 l2 c H1 H2. apply Huniq; auto.
Qed.

Lemma forest_top_not_below h v vs : forest h (v :: vs) → ¬ in_tree h vs v.
Proof.
  intros (Hnd & _ & Htop & _) Hin. apply NoDup_cons in Hnd as [Hv _].
  destruct Hin as [v Hin|p v Hp Hc]; [done|].
  eapply (Htop p v); [| done | apply list_elem_of_here].
  eapply in_tree_weaken; [|exact Hp]. intros x Hx.
  by apply in_tree_top, list_elem_of_further.
Qed.

Lemma forest_disjoint h v vs l :
  forest h (v :: vs) → in_tree h (children h v) l → in_tree h vs l → False.
Proof.
  intros Hf H1. pose proof Hf as (Hnd & _ & Htop & Huniq).
  assert (in_tree h (v :: vs) v) as Hv by apply in_tree_top, list_elem_of_here.
  assert (∀ x, in_tree h (children h v) x → in_tree h (v :: vs) x) as Hup1.
  { intros x Hx. apply in_tree_cons_inv. auto. }
  assert (∀ x, in_tree h vs x → in_tree h (v :: vs) x) as Hup2.
  { intros x Hx. apply in_tree_cons_inv. auto. }
  induction H1 as [l Hl|p l Hp IH Hl]; intros H2.
  - destruct H2 as [l H2|p' l Hp' Hl'].
    + eapply (Htop v l); [done | done | by apply list_elem_of_further].
    + pose proof (Huniq v p' l Hv (Hup2 _ Hp') Hl Hl') as <-.
      by eapply forest_top_not_below.
  - destruct H2 as [l H2|p' l Hp' Hl'].
    + eapply (Htop p l); [by apply Hup1 | done | by apply list_elem_of_further].
    + pose proof (Huniq p p' l (Hup1 _ Hp) (Hup2 _ Hp') Hl Hl') as <-. auto.
Qed.

Section WalkOnce.
Context {σ : Type} (hp : σ → Heap) (walker : loc → σ → σ).
Hypothesis Hkeeps : keeps_nesting hp walker.

Lemma once_loop n vs :
  (∀ (deps : option EntryDeps) (s : σ) log0,
     0 < n → ordered (hp s) → forest (hp s) (obj_values (default [] deps)) →
     (∀ c, c ∈ obj_values (default [] deps) →
           c < length (hp s) ∧ length (hp s) - c < n) →
     ∃ s' seg,
       walkEntries (hp ∘ fst) n deps (logged walker) (s, log0) = Ok (s', log0 ++ seg) ∧
       NoDup seg ∧
       (∀ l, l ∈ seg ↔ in_tree (hp s) (obj_values (default [] deps)) l) ∧
       length (hp s') = length (hp s) ∧
       (∀ x, children (hp s') x = children (hp s) x)) →
  ∀ (s : σ) log0,
    ordered (hp s) → forest (hp s) vs →
    (∀ c, c ∈ vs → c < length (hp s) ∧ length (hp s) - c ≤ n) →
    ∃ s' seg,
      foldM (fun s value =>
               e ← heap_get ((hp ∘ fst) s) value;
               s ← walkEntries (hp ∘ fst) n (dependencies e) (logged walker) s;
               Ok (logged walker value s)) vs (s, log0) = Ok (s', log0 ++ seg) ∧
      NoDup seg ∧
      (∀ l, l ∈ seg ↔ in_tree (hp s) vs l) ∧
      length (hp s') = length (hp s) ∧
      (∀ x, children (hp s') x = children (hp s) x).
Proof.
  intros IH. induction vs as [|v vs IHvs]; intros s log0 Hord Hforest Hbound.
  { exists s, []. rewrite app_nil_r. split_and!; try done; [apply NoDup_nil_2|].
    intros l. split.
    - intros Hl. by apply elem_of_nil in Hl.
    - intros Hl. by apply in_tree_nil in Hl. }
  destruct (Hbound v) as [Hv Hfuel]; [apply list_elem_of_here|].
  destruct (lookup_lt_is_Some_2 _ _ Hv) as [e He].
  assert (children (hp s) v = obj_values (default [] (dependencies e))) as Hchv.
  { unfold children. by rewrite He. }
  destruct (IH (dependencies e) s log0)
    as (s1 & seg1 & Hrun1 & Hnd1 & Hseg1 & Hlen1 & Hch1).
  { lia. }
  { done. }
  { rewrite <- Hchv. by eapply forest_children. }
  { intros c Hc. rewrite <- Hchv in Hc. destruct (Hord v c Hc). lia. }
  destruct (Hkeeps v s1) as [Hlenw Hchw].
  assert (∀ x, children (hp (walker v s1)) x = children (hp s) x) as Hch2'.
  { intros x. by rewrite Hchw, Hch1. }
  destruct (IHvs (walker v s1) ((log0 ++ seg1) ++ [v]))
    as (s' & seg2 & Hrun2 & Hnd2 & Hseg2 & Hlen2 & Hch2).
  { intros l c Hc. rewrite Hch2' in Hc. rewrite Hlenw, Hlen1. by apply Hord. }
  { eapply forest_ext; [exact Hch2'|]. by eapply forest_tail. }
  { intros c Hc. rewrite Hlenw, Hlen1. apply Hbound. by apply list_elem_of_further. }
  assert (∀ l, l ∈ seg2 ↔ in_tree (hp s) vs l) as Hseg2'.
  { intros l. rewrite Hseg2. split; apply in_tree_ext; intros x; by rewrite Hch2'. }
  rewrite <- Hchv in Hseg1.
  exists s', (seg1 ++ [v] ++ seg2). split_and!.
  - assert (heap_get ((hp ∘ fst) (s, log0)) v = Ok e) as Hget.
    { unfold heap_get. cbn [compose fst]. by rewrite He. }
    cbn [foldM]. rewrite Hget.
    cbn [mbind res_bind]. rewrite Hrun1. cbn [mbind res_bind].
    replace (log0 ++ seg1 ++ [v] ++ seg2) with (((log0 ++ seg1) ++ [v]) ++ seg2)
      by (by rewrite <- !app_assoc).
    exact Hrun2.
  - apply NoDup_app. split_and!; [done | |].
    + intros x Hx1 Hx2. apply Hseg1 in Hx1.
      apply elem_of_cons in Hx2 as [->|Hx2].
      * pose proof (in_tree_children_gt _ _ _ Hord Hx1). lia.
      * apply Hseg2' in Hx2. by eapply forest_disjoint.
    + apply NoDup_cons. split; [|done]. intros Hin. apply Hseg2' in Hin.
      by eapply forest_top_not_below.
  - intros l. rewrite !elem_of_app, list_elem_of_singleton, Hseg1, Hseg2'.
    split.
    + intros [H|[->|H]]; apply in_tree_cons_inv; auto.
    + intros H. apply in_tree_cons in H as [->|[H|H]]; auto.
  - lia.
  - intros x. by rewrite Hch2, Hch2'.
Qed.

Lemma once_walk n :
  ∀ (deps : option EntryDeps) (s : σ) log0,
    0 < n → ordered (hp s) → forest (hp s) (obj_values (default [] deps)) →
    (∀ c, c ∈ obj_values (default [] deps) →
          c < length (hp s) ∧ length (hp s) - c < n) →
    ∃ s' seg,
      walkEntries (hp ∘ fst) n deps (logged walker) (s, log0) = Ok (s', log0 ++ seg) ∧
      NoDup seg ∧
      (∀ l, l ∈ seg ↔ in_tree (hp s) (obj_values (default [] deps)) l) ∧
      length (hp s') = length (hp s) ∧
      (∀ x, children (hp s') x = children (hp s) x).
Proof.
  induction n as [|n IH]; intros deps s log0 Hpos Hord Hforest Hbound; [lia|].
  destruct deps as [deps|]; cbn [walkEntries default].
  - destruct n as [|n].
    + destruct deps as [|[k v] deps].
      * exists s, []. rewrite app_nil_r. split_and!; try done; [apply NoDup_nil_2|].
        intros l. split.
        -- intros Hl. by apply elem_of_nil in Hl.
        -- intros Hl. by apply in_tree_nil in Hl.
      * destruct (Hbound v) as [? ?]; [apply list_elem_of_here | lia].
    + apply once_loop; [|done|done|].
      * intros deps' s0 log1 _. by apply IH; lia.
      * intros c Hc. specialize (Hbound c Hc). cbn [default] in Hbound. lia.
  - exists s, []. rewrite app_nil_r. split_and!; try done; [apply NoDup_nil_2|].
    intros l. split.
    + intros Hl. by apply elem_of_nil in Hl.
    + intros Hl. by apply in_tree_nil in Hl.
Qed.

(** X17.  On a forest whose entries hold only entries allocated after
    them, [walkEntries] calls a visitor that leaves the nesting as it is
    exactly once on every entry of the tree: the record of its calls holds
    each entry of the tree, no entry twice, and nothing else. *)
Theorem walkEntries_visits_once (fuel : nat) (deps : option EntryDeps) (s : σ) :
  ordered (hp s) →
  forest (hp s) (obj_values (default [] deps)) →
  (∀ c, c ∈ obj_values (default [] deps) → c < length (hp s)) →
  length (hp s) < fuel →
  ∃ s' visits,
    walkEntries (hp ∘ fst) fuel deps (logged walker) (s, []) = Ok (s', visits) ∧
    NoDup visits ∧
    ∀ l, l ∈ visits ↔ in_tree (hp s) (obj_values (default [] deps)) l.
Proof.
  intros Hord Hforest Htops Hfuel.
  destruct (once_walk fuel deps s []) as (s' & seg & Hrun & Hnd & Hseg & _).
  { lia. }
  { done. }
  { done. }
  { intros c Hc. specialize (Htops c Hc). lia. }
  by exists s', seg.
Qed.
End WalkOnce.

Lemma forest_heap_demo : forest heap_demo [1; 3].
Proof.
  assert (∀ l, in_tree heap_demo [1; 3] l → l = 1 ∨ l = 2 ∨ l = 3) as Htree.
  { induction 1 as [l Hl|p l _ IH Hl].
    - repeat (apply elem_of_cons in Hl as [->|Hl]); [auto.. | by apply elem_of_nil in Hl].
    - destruct IH as [->|[->| ->]]; cbn in Hl;
        repeat (apply elem_of_cons in Hl as [->|Hl]); [auto.. | |];
        by apply elem_of_nil in Hl. }
  split_and!.
  - refine (bool_decide_unpack _ _). vm_compute. exact I.
  - intros l Hl. destruct (Htree l Hl) as [->|[->| ->]]; cbn;
      refine (bool_decide_unpack _ _); vm_compute; exact I.
  - intros l c Hl Hc Hin. destruct (Htree l Hl) as [->|[->| ->]]; cbn in Hc;
      repeat (apply elem_of_cons in Hc as [->|Hc]);
      try (by apply elem_of_nil in Hc).
    revert Hin. refine (bool_decide_unpack _ _). vm_compute. exact I.
  - intros l1 l2 c H1 H2 Hc1 Hc2.
    destruct (Htree l1 H1) as [->|[->| ->]]; destruct (Htree l2 H2) as [->|[->| ->]];
      cbn in Hc1, Hc2; try done;
      repeat (apply elem_of_cons in Hc1 as [->|Hc1]);
      try (by apply elem_of_nil in Hc1); by apply elem_of_nil in Hc2.
Qed.

Lemma walkEntries_visits_once_witness :
  ∃ h' (visits : list loc),
    walkEntries (id ∘ fst) 5 (Some [("a", 1); ("c", 3)])
      (logged (fun dep h => heap_update dep stripEmpty h)) (heap_demo, [])
    = Ok (h', visits) ∧
    NoDup visits.
Proof.
  destruct (walkEntries_visits_once id (fun dep h => heap_update dep stripEmpty h)
              keeps_nesting_stripEmpty 5 (Some [("a", 1); ("c", 3)]) heap_demo)
    as (h' & visits & Hrun & Hnd & _).
  - exact ordered_heap_demo.
  - exact forest_heap_demo.
  - intros c Hc. cbn in Hc. repeat (apply elem_of_cons in Hc as [->|Hc]);
      [cbn; lia.. | by apply elem_of_nil in Hc].
  - cbn. lia.
  - by exists h', visits.
Defined.

(** ** The tree of a generation run is a forest *)

Lemma obj_values_assign_NoDup {V} (acc src : Obj V) :
  NoDup (obj_values acc) → NoDup (obj_values src) →
  (∀ x, x ∈ obj_values acc → x ∉ obj_values src) →
  NoDup (obj_values (obj_assign acc src)).
Proof.
  revert acc. induction src as [|[k v] src IH]; intros acc Hacc Hsrc Hdis; [done|].
  unfold obj_assign. cbn [fold_left fst snd]. fold (obj_assign (obj_set acc k v) src).
  cbn [obj_values map snd] in Hsrc. apply NoDup_cons in Hsrc as [Hv Hsrc].
  apply IH.
  - apply obj_values_set_NoDup; [done|]. intros Hin. apply (Hdis v Hin).
    apply list_elem_of_here.
  - done.
  - intros x Hx. apply obj_values_set_subset in Hx as [->|Hx]; [done|].
    intros Hin. apply (Hdis x Hx). by apply list_elem_of_further.
Qed.

(** X18.  The tree a generation run walks after the merge is a forest that
    does not hold the root entry: no entry is a top-level entry twice, and
    no entry of the tree is held twice or by two entries.  So the cleanup
    pass, given fuel above the number of entries, calls its visitor exactly
    once on every entry of the tree. *)
Theorem merged_tree_is_forest (W : World) (fuel : nat) (dir packagesDir : Dir)
    (entry : loc) (s s1 : St) :
  buildLockfileEntry W fuel (initialState dir packagesDir) dir true = Ok (entry, s) →
  mergeRootDeps entry s = Ok s1 →
  forest (heap s1) (obj_values (rootDeps (ctx s1))) ∧
  ¬ in_tree (heap s1) (obj_values (rootDeps (ctx s1))) entry ∧
  ∀ fuel', length (heap s1) < fuel' →
    ∃ h' visits,
      walkEntries (id ∘ fst) fuel' (Some (rootDeps (ctx s1)))
        (logged (fun dep h => heap_update dep stripEmpty h)) (heap s1, [])
      = Ok (h', visits) ∧
      NoDup visits ∧
      ∀ l, l ∈ visits ↔ in_tree (heap s1) (obj_values (rootDeps (ctx s1))) l.
Proof.
  intros Hrun Hmerge.
  assert (held_once (initialState dir packagesDir)) as H0.
  { split_and!.
    - apply NoDup_nil_2.
    - intros l. apply NoDup_nil_2.
    - intros [l1|] p2 c H1; cbn in H1; by apply elem_of_nil in H1. }
  destruct (buildLockfileEntry_held W fuel _ _ _ _ _
              (initialState_inv dir packagesDir) (not_elem_of_nil _) H0 Hrun)
    as [(Hroot & Hch & Huniq) Hfrom].
  apply build_run_inv in Hrun as (Hinv & -> & Hlen).
  assert (∀ p, ¬ holds s p 0) as Hfresh.
  { intros p Hp. destruct (Hfrom p _ Hp) as [Hp0|Hge]; [|cbn in Hge; lia].
    destruct p; cbn in Hp0; by apply elem_of_nil in Hp0. }
  pose proof (build_inv_ordered _ Hinv) as Hord.
  unfold mergeRootDeps in Hmerge. inv_bind_as Hmerge e0 He0.
  apply heap_get_Ok in He0. injection Hmerge as <-.
  cbn [set_ctx heap ctx set_rootDeps rootDeps].
  set (tops := obj_values (obj_assign (spread [] (dependencies e0)) (rootDeps (ctx s)))).
  assert (∀ x, x ∈ obj_values (spread [] (dependencies e0)) → holds s (Some 0) x)
    as Hown.
  { intros x Hx. cbn [holds]. unfold children. rewrite He0.
    destruct (dependencies e0) as [d0|]; cbn [spread default] in *.
    - apply obj_values_assign in Hx as [Hx|Hx]; [by apply elem_of_nil in Hx | done].
    - by apply elem_of_nil in Hx. }
  assert (∀ x, x ∈ tops → holds s (Some 0) x ∨ holds s None x) as Htops.
  { intros x Hx. apply obj_values_assign in Hx as [Hx|Hx]; [left; auto | by right]. }
  assert (∀ l, in_tree (heap s) tops l → ∃ p, holds s p l) as Hheld.
  { induction 1 as [l Hl|p l _ _ Hl].
    - destruct (Htops l Hl); eauto.
    - by exists (Some p). }
  assert (forest (heap s) tops) as Hforest.
  { split_and!.
    - apply obj_values_assign_NoDup; [|done|].
      + destruct (dependencies e0) as [d0|] eqn:Hd0; cbn [spread];
          [|apply NoDup_nil_2].
        apply obj_values_assign_NoDup; [apply NoDup_nil_2 | |].
        * specialize (Hch 0). unfold children in Hch. by rewrite He0, Hd0 in Hch.
        * intros x Hx. by apply elem_of_nil in Hx.
      + intros x Hx Hx'. by pose proof (Huniq _ _ _ (Hown x Hx) (Hx' : holds s None x)).
    - intros l _. apply Hch.
    - intros l c Hl Hc Hin. destruct (Hheld l Hl) as [p Hp].
      destruct (Htops c Hin) as [H|H].
      + pose proof (Huniq (Some l) (Some 0) c Hc H) as [= ->]. by eapply Hfresh.
      + by pose proof (Huniq (Some l) None c Hc H).
    - intros l1 l2 c _ _ H1 H2.
      by pose proof (Huniq (Some l1) (Some l2) c H1 H2) as [= ->]. }
  split_and!.
  - done.
  - intros Hin. destruct (Hheld 0 Hin) as [p Hp]. by eapply Hfresh.
  - intros fuel' Hfuel'.
    destruct (once_walk id (fun dep h => heap_update dep stripEmpty h)
                keeps_nesting_stripEmpty fuel'
                (Some (obj_assign (spread [] (dependencies e0)) (rootDeps (ctx s))))
                (heap s) []) as (h' & seg & Hwalk & Hnd & Hseg & _).
    + lia.
    + done.
    + done.
    + intros c Hc. cbn [default] in Hc.
      assert (c < length (heap s)); [|unfold id; lia].
      destruct (Htops c Hc) as [H|H]; by eapply holds_lt.
    + by exists h', seg.
Qed.

Lemma merged_tree_is_forest_witness :
  ∃ s s1,
    buildLockfileEntry world_spec 10 (initialState rootDir []) rootDir true = Ok (0, s) ∧
    mergeRootDeps 0 s = Ok s1 ∧
    forest (heap s1) (obj_values (rootDeps (ctx s1))).
Proof.
  eexists _, _. split_and!.
  - vm_compute. reflexivity.
  - vm_compute. reflexivity.
  - eapply (merged_tree_is_forest world_spec 10 rootDir [] 0).
    + vm_compute. reflexivity.
    + vm_compute. reflexivity.
Defined.
